(** * The backup and restore service of the bot (backup-service.ts)

    A shallow embedding of [BackupService]: the snapshot builders
    ([createFullBackup], [createCriticalBackup]), the validator
    ([validateBackup]), the restore orchestrator ([restoreFromBackup]) and
    the retention cleanup ([listAvailableBackups], [cleanupOldBackups]).

    The service is asynchronous but strictly sequential (every call is
    awaited), so it is modelled as a state-and-exception monad over a world
    made of the relational store, the file system, the clock and the log.
    What the service uses but does not define is taken as an interface:
    the store ([Store]) and the built-ins of the JavaScript runtime
    ([Runtime]). Of the log service (log-service.ts) the filter and the
    database sink are modelled, since the sink writes to the store the
    service backs up; of the scripts (scripts/backup.ts, scripts/restore.ts)
    the reading of the command line and the call they make. *)

From stdpp Require Import base option list strings gmap pretty sorting.
From Stdlib Require Import ZArith.
From Stdlib Require Import Ascii.

Set Default Proof Using "Type".

(** ** JSON documents and the JavaScript operations the service applies to them *)

(** A value produced by [JSON.parse], or read from one. An object is the
    sequence of its own properties in insertion order; a property is read at
    its first binding. [JNum] holds a number that is an integer (below 10^21
    in magnitude, where its rendering is the plain decimal one); [JReal]
    holds any other number, by its rendering. [JNative] is a built-in
    function, the kind of value a read finds on the prototype chain
    ([{}.constructor], [{}.toString]): it is no JSON data, no document and no
    row holds one, and it is known by what the service can observe of it,
    its text [String(f)] and its [length]. The JavaScript value [undefined]
    is [None] in [option json]. *)
#[warnings="-register-all"]
Inductive json : Type :=
| JNull
| JBool (b : bool)
| JNum (z : Z)
| JReal (lit : string)
| JStr (s : string)
| JArr (items : list json)
| JObj (fields : list (string * json))
| JNative (text : string) (len : option Z).

Abbreviation jsval := (option json).

(** Own properties of a plain object, as an association list. *)
Fixpoint obj_get {A} (key : string) (fields : list (string * A)) : option A :=
  match fields with
  | [] => None
  | (k, v) :: rest => if decide (k = key) then Some v else obj_get key rest
  end.

(** [o[key] = v]: an existing property keeps its place, a new one goes last. *)
Fixpoint obj_set {A} (key : string) (v : A) (fields : list (string * A))
  : list (string * A) :=
  match fields with
  | [] => [(key, v)]
  | (k, x) :: rest =>
      if decide (k = key) then (k, v) :: rest else (k, x) :: obj_set key v rest
  end.

Fixpoint obj_remove {A} (key : string) (fields : list (string * A))
  : list (string * A) :=
  match fields with
  | [] => []
  | (k, x) :: rest =>
      if decide (k = key) then obj_remove key rest else (k, x) :: obj_remove key rest
  end.

Definition obj_keys {A} (fields : list (string * A)) : list string :=
  fields.*1.

(** JavaScript truthiness ([if (v)], [!v], [a && b]). *)
Definition truthy (v : jsval) : bool :=
  match v with
  | None => false
  | Some JNull => false
  | Some (JBool b) => b
  | Some (JNum z) => negb (Z.eqb z 0)
  | Some (JReal _) => true
  | Some (JStr s) => negb (String.eqb s EmptyString)
  | Some (JArr _) => true
  | Some (JObj _) => true
  | Some (JNative _ _) => true
  end.

Definition is_array (v : jsval) : bool :=
  match v with
  | Some (JArr _) => true
  | _ => false
  end.

(** The characters of a string, each as a one-character string
    ([for (const c of s)], [s[i]]). *)
Fixpoint string_chars (s : string) : list string :=
  match s with
  | EmptyString => []
  | String c rest => String c EmptyString :: string_chars rest
  end.

(** An array index written as a property key: the canonical decimal of a
    position below [n]. *)
Definition index_of_key (key : string) (n : nat) : option nat :=
  fst <$> list_find (fun i : nat => pretty i = key) (seq 0 n).

(** The own property [key] of a value that is neither [null] nor
    [undefined]. *)
Definition own_property (v : json) (key : string) : jsval :=
  match v with
  | JObj fields => obj_get key fields
  | JArr items =>
      if decide (key = "length") then Some (JNum (Z.of_nat (length items)))
      else i ← index_of_key key (length items); items !! i
  | JStr s =>
      if decide (key = "length") then Some (JNum (Z.of_nat (String.length s)))
      else i ← index_of_key key (String.length s); JStr <$> (string_chars s !! i)
  | JNative _ len => if decide (key = "length") then JNum <$> len else None
  | _ => None
  end.

(** [String(v)], as in a template literal or a property key. *)
Fixpoint js_to_string (v : json) : string :=
  match v with
  | JNull => "null"
  | JBool true => "true"
  | JBool false => "false"
  | JNum z => pretty z
  | JReal lit => lit
  | JStr s => s
  | JArr items =>
      String.concat ","
        ((fix elems (l : list json) : list string :=
            match l with
            | [] => []
            | JNull :: rest => EmptyString :: elems rest
            | x :: rest => js_to_string x :: elems rest
            end) items)
  | JObj _ => "[object Object]"
  | JNative text _ => text
  end.

Definition jsval_to_string (v : jsval) : string :=
  match v with
  | None => "undefined"
  | Some j => js_to_string j
  end.

(** [v.length === 0] and friends: strict equality of a value with a number. *)
Definition strict_eq_num (v : jsval) (n : Z) : bool :=
  match v with
  | Some (JNum z) => Z.eqb z n
  | _ => false
  end.

Definition strict_eq_str (v : jsval) (s : string) : bool :=
  match v with
  | Some (JStr x) => String.eqb x s
  | _ => false
  end.

(** ** Exceptions *)

Inductive Exn : Type :=
| TypeError (msg : string)
| SyntaxError (msg : string)
| SystemError (code : string) (path : string).

(** [error.message] *)
Definition exn_message (e : Exn) : string :=
  match e with
  | TypeError msg => msg
  | SyntaxError msg => msg
  | SystemError code path => code +:+ ": " +:+ path
  end.

Inductive Result (A : Type) : Type :=
| Ok (a : A)
| Throw (e : Exn).
Arguments Ok {A} a.
Arguments Throw {A} e.

(** ** The built-ins of the runtime *)

(** [JSON.stringify(v)] without indentation,
    [createHash('sha256').update(s).digest('hex')],
    [new Date(v).getTime()] where [None] is NaN, and the prototype chain:
    [inherited v key] is what [v[key]] reads when [v] has no own property
    [key], a member of [Object.prototype], [Array.prototype] and the like
    ([constructor], [toString], [__proto__], ...) or [undefined]. *)
Class Runtime : Type := {
  JSON_stringify : json -> string;
  sha256_hex : string -> string;
  Date_getTime : jsval -> option Z;
  inherited : json -> string -> jsval }.

(** [v[key]] for a value that is neither [null] nor [undefined]: the own
    property when there is one, what the prototype chain gives otherwise. *)
Definition property `{!Runtime} (v : json) (key : string) : jsval :=
  match own_property v key with
  | Some x => Some x
  | None => inherited v key
  end.

(** [v.length] for a value known to be truthy. *)
Definition length_of `{!Runtime} (v : jsval) : jsval :=
  match v with
  | Some j => property j "length"
  | None => None
  end.

(** [base.key], [base[key]]: reading a property of [undefined] or [null] is
    a TypeError (the wording is the one of V8). *)
Definition prop `{!Runtime} (base : jsval) (key : string) : Result jsval :=
  match base with
  | None =>
      Throw (TypeError ("Cannot read properties of undefined (reading '" +:+ key +:+ "')"))
  | Some JNull =>
      Throw (TypeError ("Cannot read properties of null (reading '" +:+ key +:+ "')"))
  | Some v => Ok (property v key)
  end.
#[global] Arguments prop : simpl never.

(** ** The clock and the timestamp of a snapshot *)

(** A reading of the clock, broken down in UTC as [Date.prototype.toISOString]
    prints it. *)
Record DateTime : Type := {
  dt_year : nat; dt_month : nat; dt_day : nat;
  dt_hour : nat; dt_minute : nat; dt_second : nat; dt_millis : nat }.

Definition digit (n : nat) : Ascii.ascii := Ascii.ascii_of_nat (48 + n mod 10).

Definition pad2 (n : nat) : string :=
  String (digit (n / 10)) (String (digit n) EmptyString).
Definition pad3 (n : nat) : string := String (digit (n / 100)) (pad2 n).
Definition pad4 (n : nat) : string := String (digit (n / 1000)) (pad3 n).

(** [new Date().toISOString()]: YYYY-MM-DDTHH:mm:ss.sssZ (years 0 to 9999). *)
Definition toISOString (d : DateTime) : string :=
  pad4 (dt_year d) +:+ "-" +:+ pad2 (dt_month d) +:+ "-" +:+ pad2 (dt_day d)
  +:+ "T" +:+ pad2 (dt_hour d) +:+ ":" +:+ pad2 (dt_minute d) +:+ ":"
  +:+ pad2 (dt_second d) +:+ "." +:+ pad3 (dt_millis d) +:+ "Z".

(** [s.replace(/:/g, '-')] *)
Fixpoint replace_colons (s : string) : string :=
  match s with
  | EmptyString => EmptyString
  | String c rest =>
      String (if Ascii.eqb c ":"%char then "-"%char else c) (replace_colons rest)
  end.

Definition line_terminator (c : Ascii.ascii) : bool :=
  Ascii.eqb c "010" || Ascii.eqb c "013".

(** What is left of a line once [.+] has consumed all it can. *)
Fixpoint after_line (s : string) : string :=
  match s with
  | EmptyString => EmptyString
  | String c rest => if line_terminator c then s else after_line rest
  end.

(** [s.replace(/\..+/, '')]: the first dot that is followed by a character
    of the same line is removed together with the rest of that line. *)
Fixpoint strip_fraction (s : string) : string :=
  match s with
  | EmptyString => EmptyString
  | String c rest =>
      match rest with
      | String c' _ =>
          if Ascii.eqb c "." && negb (line_terminator c') then after_line rest
          else String c (strip_fraction rest)
      | EmptyString => String c EmptyString
      end
  end.

(** [new Date().toISOString().replace(/:/g, '-').replace(/\..+/, '')] *)
Definition backup_timestamp (d : DateTime) : string :=
  strip_fraction (replace_colons (toISOString d)).

(** ** The store the service consumes *)

(** The answer [{ data, error }] of a select. *)
Record SelectResult : Type := {
  sel_data : option (list json);
  sel_error : option string }.

(** The relational store behind the supabase client:
    [from(t).select('*')], [from(t).delete().neq(column, value)],
    [from(t).upsert(values, { onConflict })] and [from(t).insert(row)]. An
    error is returned, not thrown; it is carried by its message. *)
Class Store (S : Type) : Type := {
  store_select : S -> string -> SelectResult;
  store_delete_neq : S -> string -> string -> json -> S * option string;
  store_upsert : S -> string -> json -> string -> S * option string;
  store_insert : S -> string -> json -> S * option string }.

(** ** The log service: its filter and its configuration *)

Module LogService.

(** The fields of the configuration that decide what reaches the store:
    [logLevel] and [includeCategories], which [shouldLog] reads, and
    [enableDatabase], the switch of the database sink. The console and the
    log file are outside the world of the service. *)
Record LogConfig : Type := {
  enableDatabase : bool;
  logLevel : string;
  includeCategories : list string }.

(** [LogService.config] as the module defines it. *)
Definition config : LogConfig :=
  {| enableDatabase := true;
     logLevel := "info";
     includeCategories :=
       ["system"; "discord"; "database"; "ai"; "security"; "performance"; "api";
        "user"] |}.

Definition levels : list string := ["debug"; "info"; "warn"; "error"; "fatal"].

(** [names.indexOf(v)]: the first index of [v], -1 when there is none. *)
Fixpoint indexOf (names : list string) (v : string) : Z :=
  match names with
  | [] => -1
  | name :: rest =>
      if String.eqb name v then 0
      else if (indexOf rest v <? 0)%Z then -1 else (indexOf rest v + 1)%Z
  end.

Definition shouldLog (config : LogConfig) (level category : string) : bool :=
  let configLevelIndex := indexOf levels (logLevel config) in
  let currentLevelIndex := indexOf levels level in
  (configLevelIndex <=? currentLevelIndex)%Z
  && bool_decide (category ∈ includeCategories config).

End LogService.

(** ** The world *)

(** A file is represented by what [JSON.parse] makes of its text: the parsed
    document, or text that does not parse. [JSON.stringify] followed by
    [JSON.parse] gives the document back. *)
Inductive FileContent : Type :=
| Doc (j : json)
| Garbage (text : string).

(** What the backup service does to the files and to the rows of the
    tables, in the order it happens. A file event is recorded when the
    operation succeeded, a store event when the call was made. The rows the
    log service inserts are not events: they are told by [w_log]. *)
Inductive Event : Type :=
| EvWriteFile (path : string) (content : FileContent)
| EvUnlink (path : string)
| EvDeleteRows (table : string)
| EvUpsert (table : string) (values : json).

Record LogEntry : Type := {
  log_level : string; log_category : string; log_message : string }.

(** [w_files] lists the files by path, in the order [readdir] reports them;
    directories hold plain files only, and the files of the log service are
    not among them. [w_unwritable] and [w_undeletable] are the paths for
    which the file system refuses [writeFile] and [unlink]. [w_clock n] is
    the [n]-th reading of the clock by the backup service. [w_log] holds
    the calls of the log service, [w_logging] its configuration, and
    [w_answers] what the store answered to each select of the service. *)
Record World (S : Type) : Type := mkWorld {
  w_db : S;
  w_files : list (string * FileContent);
  w_unwritable : list string;
  w_undeletable : list string;
  w_clock : nat -> DateTime;
  w_tick : nat;
  w_trace : list Event;
  w_log : list LogEntry;
  w_logging : LogService.LogConfig;
  w_answers : list (string * SelectResult) }.
Arguments mkWorld {S}.
Arguments w_db {S}.
Arguments w_files {S}.
Arguments w_unwritable {S}.
Arguments w_undeletable {S}.
Arguments w_clock {S}.
Arguments w_tick {S}.
Arguments w_trace {S}.
Arguments w_log {S}.
Arguments w_logging {S}.
Arguments w_answers {S}.

Definition set_db {S} (db : S) (w : World S) : World S :=
  mkWorld db (w_files w) (w_unwritable w) (w_undeletable w) (w_clock w)
    (w_tick w) (w_trace w) (w_log w) (w_logging w) (w_answers w).
Definition set_files {S} (fs : list (string * FileContent)) (w : World S) : World S :=
  mkWorld (w_db w) fs (w_unwritable w) (w_undeletable w) (w_clock w)
    (w_tick w) (w_trace w) (w_log w) (w_logging w) (w_answers w).
Definition set_tick {S} (n : nat) (w : World S) : World S :=
  mkWorld (w_db w) (w_files w) (w_unwritable w) (w_undeletable w) (w_clock w)
    n (w_trace w) (w_log w) (w_logging w) (w_answers w).
Definition set_logging {S} (config : LogService.LogConfig) (w : World S) : World S :=
  mkWorld (w_db w) (w_files w) (w_unwritable w) (w_undeletable w) (w_clock w)
    (w_tick w) (w_trace w) (w_log w) config (w_answers w).
Definition emit {S} (e : Event) (w : World S) : World S :=
  mkWorld (w_db w) (w_files w) (w_unwritable w) (w_undeletable w) (w_clock w)
    (w_tick w) (w_trace w ++ [e]) (w_log w) (w_logging w) (w_answers w).
Definition add_log {S} (l : LogEntry) (w : World S) : World S :=
  mkWorld (w_db w) (w_files w) (w_unwritable w) (w_undeletable w) (w_clock w)
    (w_tick w) (w_trace w) (w_log w ++ [l]) (w_logging w) (w_answers w).
Definition add_answer {S} (table : string) (r : SelectResult) (w : World S)
  : World S :=
  mkWorld (w_db w) (w_files w) (w_unwritable w) (w_undeletable w) (w_clock w)
    (w_tick w) (w_trace w) (w_log w) (w_logging w) (w_answers w ++ [(table, r)]).

(** ** The monad of the service: state and exceptions *)

Definition M (S A : Type) : Type := World S -> Result A * World S.

Definition ret {S A} (a : A) : M S A := fun w => (Ok a, w).
Definition throw {S A} (e : Exn) : M S A := fun w => (Throw e, w).
Definition lift {S A} (r : Result A) : M S A := fun w => (r, w).

Definition bind {S A B} (m : M S A) (k : A -> M S B) : M S B :=
  fun w =>
    match m w with
    | (Ok a, w') => k a w'
    | (Throw e, w') => (Throw e, w')
    end.

(** [try { m } catch (e) { handler e }] *)
Definition try_catch {S A} (m : M S A) (handler : Exn -> M S A) : M S A :=
  fun w =>
    match m w with
    | (Ok a, w') => (Ok a, w')
    | (Throw e, w') => handler e w'
    end.

Notation "'let!' x := m 'in' k" := (bind m (fun x => k))
  (at level 10, x name, m at level 200, k at level 200).
Notation "'let!' '_' := m 'in' k" := (bind m (fun _ => k))
  (at level 10, m at level 200, k at level 200).

(** [for (const x of xs) { acc = body acc x }] *)
Fixpoint for_of {S A B} (xs : list A) (body : B -> A -> M S B) (acc : B) : M S B :=
  match xs with
  | [] => ret acc
  | x :: rest => let! acc' := body acc x in for_of rest body acc'
  end.

(** ** The file system (fs/promises, path) *)

Definition path_join (dir name : string) : string := dir +:+ "/" +:+ name.

Fixpoint strip_prefix (pre s : string) : option string :=
  match pre, s with
  | EmptyString, _ => Some s
  | String a pre', String b s' => if Ascii.eqb a b then strip_prefix pre' s' else None
  | String _ _, EmptyString => None
  end.

Fixpoint has_slash (s : string) : bool :=
  match s with
  | EmptyString => false
  | String c rest => Ascii.eqb c "/" || has_slash rest
  end.

(** [file.endsWith(suffix)] *)
Definition ends_with (suffix s : string) : bool :=
  String.prefix (String.rev suffix) (String.rev s).

(** The name under which [dir] holds the file at [path], if it does. *)
Definition entry_name (dir path : string) : option string :=
  match strip_prefix (dir +:+ "/") path with
  | Some name => if has_slash name then None else Some name
  | None => None
  end.

Definition readdir {S} (dir : string) : M S (list string) :=
  fun w => (Ok (omap (fun f => entry_name dir (fst f)) (w_files w)), w).

Definition readFile {S} (path : string) : M S FileContent :=
  fun w =>
    match obj_get path (w_files w) with
    | Some c => (Ok c, w)
    | None => (Throw (SystemError "ENOENT" path), w)
    end.

Definition writeFile {S} (path : string) (c : FileContent) : M S unit :=
  fun w =>
    if decide (path ∈ w_unwritable w) then (Throw (SystemError "EACCES" path), w)
    else (Ok tt, emit (EvWriteFile path c) (set_files (obj_set path c (w_files w)) w)).

Definition unlink {S} (path : string) : M S unit :=
  fun w =>
    match obj_get path (w_files w) with
    | None => (Throw (SystemError "ENOENT" path), w)
    | Some _ =>
        if decide (path ∈ w_undeletable w) then (Throw (SystemError "EPERM" path), w)
        else (Ok tt, emit (EvUnlink path) (set_files (obj_remove path (w_files w)) w))
    end.

(** [JSON.parse(content)] *)
Definition JSON_parse (c : FileContent) : Result json :=
  match c with
  | Doc j => Ok j
  | Garbage _ => Throw (SyntaxError "Unexpected token in JSON")
  end.

(** [new Date()], printed by [toISOString]. *)
Definition now_iso {S} : M S DateTime :=
  fun w => (Ok (w_clock w (w_tick w)), set_tick (Datatypes.S (w_tick w)) w).

(** ** The service *)

Definition BACKUP_TABLES : list string :=
  ["conversation_histories"; "api_usage"; "bot_settings"; "api_logs";
   "system_logs"; "env_variables"; "bot_status"].

Definition CRITICAL_TABLES : list string :=
  ["conversation_histories"; "bot_settings"; "env_variables"].

Record BackupMetadata : Type := {
  timestamp : string;
  version : string;
  tables : list string;
  recordCount : list (string * nat);
  checksums : list (string * string);
  description : option string }.

Record BackupData : Type := {
  metadata : BackupMetadata;
  data : list (string * json) }.

(** [BackupService.config] *)
Record Config : Type := {
  backupDirectory : string;
  maxBackupCount : Z;
  autoBackupInterval : Z;
  cfg_version : string }.

Definition default_config : Config :=
  {| backupDirectory := "backups";
     maxBackupCount := 10;
     autoBackupInterval := 24 * 60 * 60 * 1000;
     cfg_version := "1.0" |}.

(** The document [JSON.stringify(backupData, null, 2)] writes: a property
    whose value is [undefined] is left out. *)
Definition metadata_to_json (m : BackupMetadata) : json :=
  JObj ([("timestamp", JStr (timestamp m));
         ("version", JStr (version m));
         ("tables", JArr (JStr <$> tables m));
         ("recordCount", JObj (prod_map id (fun n => JNum (Z.of_nat n)) <$> recordCount m));
         ("checksums", JObj (prod_map id JStr <$> checksums m))]
        ++ match description m with
           | Some d => [("description", JStr d)]
           | None => []
           end).

Definition backup_to_json (b : BackupData) : json :=
  JObj [("metadata", metadata_to_json (metadata b)); ("data", JObj (data b))].

(** What the validator reports; [issue_text] is the string pushed. *)
Inductive Issue : Type :=
| IssueJsonParse
| IssueNoMetadata
| IssueNoData
| IssueNoTimestamp
| IssueNoVersion
| IssueBadTables
| IssueTableMissing (table : string)
| IssueTableNotArray (table : string)
| IssueRecordCount (table : string) (recorded : string) (actual : nat)
| IssueChecksum (table : string)
| IssueException (msg : string).

Definition issue_text (i : Issue) : string :=
  match i with
  | IssueJsonParse => "バックアップファイルのJSON解析に失敗しました"
  | IssueNoMetadata => "バックアップファイルにメタデータがありません"
  | IssueNoData => "バックアップファイルにデータがありません"
  | IssueNoTimestamp => "タイムスタンプが見つかりません"
  | IssueNoVersion => "バージョン情報が見つかりません"
  | IssueBadTables => "テーブル情報が見つからないか無効です"
  | IssueTableMissing t => "テーブル " +:+ t +:+ " のデータがありません"
  | IssueTableNotArray t => "テーブル " +:+ t +:+ " のデータが配列ではありません"
  | IssueRecordCount t recorded actual =>
      "テーブル " +:+ t +:+ " のレコード数が一致しません（メタデータ: " +:+ recorded
      +:+ ", 実際: " +:+ pretty actual +:+ "）"
  | IssueChecksum t => "テーブル " +:+ t +:+ " のチェックサムが一致しません"
  | IssueException msg => "バックアップの検証中にエラーが発生しました: " +:+ msg
  end.

(** The answer of [validateBackup]. The issues are kept as values of
    [Issue]; the strings of the source are their [issue_text]. *)
Record Validation : Type := {
  valid : bool;
  issues : list Issue }.

Definition issues_text (v : Validation) : list string := issue_text <$> issues v.

Record RestoreOptions : Type := {
  clearBeforeRestore : bool;
  onlyTables : option (list string);
  skipTables : option (list string) }.

(** [restoreDetails]. [recordsRestored] is [None] once something that is not
    a number has been added to it. *)
Record RestoreDetails : Type := {
  rd_timestamp : string;
  tablesRestored : nat;
  recordsRestored : option Z;
  errors : list (string * string) }.

(** What [restoreFromBackup] returns: [{ success, details: { ...restoreDetails,
    preRestoreBackupPath } }] from the end of its body, and
    [{ success: false, details: { error, timestamp } }] from its handler. *)
Inductive RestoreOutcome : Type :=
| RestoreReport (success : bool) (details : RestoreDetails) (preRestoreBackupPath : string)
| RestoreFailure (error : string) (failure_timestamp : string).

Record BackupEntry : Type := {
  entry_path : string;
  entry_metadata : jsval }.

Definition rbind {A B} (r : Result A) (k : A -> Result B) : Result B :=
  match r with
  | Ok a => k a
  | Throw e => Throw e
  end.

Notation "'try!' x := r 'in' k" := (rbind r (fun x => k))
  (at level 10, x name, r at level 200, k at level 200).

(** [Array.prototype.sort(comparator)] as a stable insertion sort; a
    comparator result of NaN ([None]) counts as 0. When the comparator is an
    ordering this is the one stable sorted arrangement; when it is not,
    ECMAScript leaves the arrangement to the engine. A one-element array is
    returned without a call of the comparator. *)
Fixpoint insert_by {A} (cmp : A -> A -> Result (option Z)) (x : A) (sorted : list A)
  : Result (list A) :=
  match sorted with
  | [] => Ok [x]
  | y :: rest =>
      try! v := cmp x y in
      match v with
      | Some d =>
          if (0 <? d)%Z then try! l := insert_by cmp x rest in Ok (y :: l)
          else Ok (x :: sorted)
      | None => Ok (x :: sorted)
      end
  end.

Fixpoint array_sort {A} (cmp : A -> A -> Result (option Z)) (l : list A)
  : Result (list A) :=
  match l with
  | [] => Ok []
  | x :: rest => try! sorted := array_sort cmp rest in insert_by cmp x sorted
  end.

(** [array.slice(start)] *)
Definition array_slice {A} (start : Z) (l : list A) : list A :=
  if (start <? 0)%Z
  then drop (Z.to_nat (Z.of_nat (length l) + start)) l
  else drop (Z.to_nat start) l.

(** [array.filter(keep)] on whatever value the document holds. *)
Definition array_filter (v : jsval) (keep : json -> bool) : Result jsval :=
  match v with
  | Some (JArr items) => Ok (Some (JArr (List.filter keep items)))
  | None => Throw (TypeError "Cannot read properties of undefined (reading 'filter')")
  | Some JNull => Throw (TypeError "Cannot read properties of null (reading 'filter')")
  | Some _ => Throw (TypeError "tablesToRestore.filter is not a function")
  end.

(** [names.includes(v)] for an array of strings. *)
Definition includes (names : list string) (v : json) : bool :=
  match v with
  | JStr s => bool_decide (s ∈ names)
  | _ => false
  end.

(** The elements [for (const x of v)] visits. *)
Definition iterate (v : jsval) : Result (list json) :=
  match v with
  | Some (JArr items) => Ok items
  | Some (JStr s) => Ok (JStr <$> string_chars s)
  | _ => Throw (TypeError "tablesToRestore is not iterable")
  end.

(** [total += v] for a running total and the value of a [length] property. *)
Definition add_length (total : option Z) (v : jsval) : option Z :=
  match total, v with
  | Some a, Some (JNum n) => Some (a + n)%Z
  | _, _ => None
  end.

Definition nonempty_list (o : option (list string)) : bool :=
  match o with
  | Some (_ :: _) => true
  | _ => false
  end.

Section Service.
Context {S : Type} `{!Store S} `{!Runtime}.

(** The row [logToDatabase] inserts for an entry. Its [timestamp],
    [details] and [context] columns are left out: the first is a reading of
    the clock by the log service, the others are arguments of the call that
    the service never reads back. *)
Definition log_row (entry : LogEntry) : json :=
  JObj [("level", JStr (log_level entry));
        ("category", JStr (log_category entry));
        ("message", JStr (log_message entry))].

(** The store once [LogService.log] has handled an entry: an entry that
    passes the filter is inserted into [system_logs] when the database sink
    is on, and an error of the insert goes to the console. *)
Definition logged (config : LogService.LogConfig) (db : S) (entry : LogEntry) : S :=
  if LogService.shouldLog config (log_level entry) (log_category entry)
     && LogService.enableDatabase config
  then (store_insert db "system_logs" (log_row entry)).1
  else db.

(** [LogService.debug], [info], [warn], [error]: every sink catches its own
    failures, so a call never throws. *)
Definition log (level category message : string) : M S unit :=
  fun w =>
    let entry := {| log_level := level; log_category := category;
                    log_message := message |} in
    (Ok tt, add_log entry (set_db (logged (w_logging w) (w_db w) entry) w)).

Definition select (table : string) : M S SelectResult :=
  fun w =>
    let r := store_select (w_db w) table in
    (Ok r, add_answer table r w).

Definition delete_neq (table column : string) (value : json) : M S (option string) :=
  fun w =>
    let '(db, err) := store_delete_neq (w_db w) table column value in
    (Ok err, emit (EvDeleteRows table) (set_db db w)).

Definition upsert (table : string) (values : json) (onConflict : string)
  : M S (option string) :=
  fun w =>
    let '(db, err) := store_upsert (w_db w) table values onConflict in
    (Ok err, emit (EvUpsert table values) (set_db db w)).

(** [createHash('sha256').update(JSON.stringify(v)).digest('hex')] *)
Definition checksum_of (v : json) : string := sha256_hex (JSON_stringify v).

(** The three assignments that record the rows of a table in the snapshot:
    [data[table] = data || []], [recordCount[table] = (data || []).length]
    and [checksums[table]], the digest of [JSON.stringify(data)]. *)
Definition record_export (backupData : BackupData) (table : string)
    (rows : option (list json)) : BackupData :=
  let m := metadata backupData in
  {| metadata :=
       {| timestamp := timestamp m;
          version := version m;
          tables := tables m;
          recordCount := obj_set table (length (default [] rows)) (recordCount m);
          checksums :=
            obj_set table (sha256_hex (JSON_stringify (from_option JArr JNull rows)))
              (checksums m);
          description := description m |};
     data := obj_set table (JArr (default [] rows)) (data backupData) |}.

(** The body of the export loop of [createFullBackup] and
    [createCriticalBackup] (the two loops are the same text). *)
Definition export_table (backupData : BackupData) (table : string) : M S BackupData :=
  let! _ := log "debug" "database" ("テーブル " +:+ table +:+ " のバックアップを作成中") in
  let! r := select table in
  match sel_error r with
  | Some _ =>
      let! _ := log "error" "database"
                  ("テーブル " +:+ table +:+ " のエクスポート中にエラーが発生") in
      ret backupData
  | None =>
      let backupData' := record_export backupData table (sel_data r) in
      let! _ := log "debug" "database"
                  ("テーブル " +:+ table +:+ " をバックアップしました ("
                   +:+ pretty (length (default [] (sel_data r))) +:+ " レコード)") in
      ret backupData'
  end.

(** [fs.access] succeeds: the backup directory exists. *)
Definition ensureBackupDirectoryExists (cfg : Config) : M S unit := ret tt.

Definition read_entry (cfg : Config) (result : list BackupEntry) (file : string)
  : M S (list BackupEntry) :=
  try_catch
    (let filePath := path_join (backupDirectory cfg) file in
     let! content := readFile filePath in
     let! backupData := lift (JSON_parse content) in
     let! md := lift (prop (Some backupData) "metadata") in
     ret (result ++ [{| entry_path := filePath; entry_metadata := md |}]))
    (fun fileError =>
       let! _ := log "warn" "database"
                   ("バックアップファイル " +:+ file +:+ " の読み込み中にエラーが発生") in
       ret result).

(** [new Date(e.metadata.timestamp).getTime()] *)
Definition entry_time (e : BackupEntry) : Result (option Z) :=
  try! ts := prop (entry_metadata e) "timestamp" in Ok (Date_getTime ts).

(** The comparator of [listAvailableBackups]: time of [b] minus time of [a]. *)
Definition newest_first (a b : BackupEntry) : Result (option Z) :=
  try! tb := entry_time b in
  try! ta := entry_time a in
  Ok (match tb, ta with
      | Some x, Some y => Some (x - y)%Z
      | _, _ => None
      end).

Definition listAvailableBackups (cfg : Config) : M S (list BackupEntry) :=
  try_catch
    (let! _ := ensureBackupDirectoryExists cfg in
     let! files := readdir (backupDirectory cfg) in
     let backupFiles := List.filter (ends_with ".json") files in
     let! result := for_of backupFiles (read_entry cfg) [] in
     lift (array_sort newest_first result))
    (fun error =>
       let! _ := log "error" "database"
                   "使用可能なバックアップリストの取得中にエラーが発生しました" in
       ret []).

Definition delete_backup (_ : unit) (backup : BackupEntry) : M S unit :=
  try_catch
    (let! _ := unlink (entry_path backup) in
     log "info" "database" ("古いバックアップを削除しました: " +:+ entry_path backup))
    (fun unlinkError =>
       log "error" "database"
         ("バックアップファイルの削除中にエラーが発生: " +:+ entry_path backup)).

Definition cleanupOldBackups (cfg : Config) : M S unit :=
  try_catch
    (let! backups := listAvailableBackups cfg in
     if (maxBackupCount cfg <? Z.of_nat (length backups))%Z then
       let backupsToDelete := array_slice (maxBackupCount cfg) backups in
       for_of backupsToDelete delete_backup tt
     else ret tt)
    (fun error =>
       log "error" "database" "古いバックアップのクリーンアップ中にエラーが発生しました").

(** The common text of [createFullBackup] and [createCriticalBackup]: the
    two differ in the table list, the file prefix, the label of their log
    lines, and in that only the full backup prunes afterwards. The table
    list is one of the two constants, whose names are plain property
    names. *)
Definition createBackupOf (tableSet : list string) (prefix label : string)
    (prune : bool) (cfg : Config) (description : option string) : M S string :=
  try_catch
    (let! _ := log "info" "database" (label +:+ "を開始します") in
     let! d := now_iso in
     let timestamp := backup_timestamp d in
     let backupData :=
       {| metadata :=
            {| timestamp := timestamp;
               version := cfg_version cfg;
               tables := tableSet;
               recordCount := [];
               checksums := [];
               description := description |};
          data := [] |} in
     let! backupData := for_of tableSet export_table backupData in
     let fileName := prefix +:+ timestamp +:+ ".json" in
     let filePath := path_join (backupDirectory cfg) fileName in
     let! _ := writeFile filePath (Doc (backup_to_json backupData)) in
     let! _ := (if prune then cleanupOldBackups cfg else ret tt) in
     let! _ := log "info" "database" (label +:+ "が完了しました") in
     ret filePath)
    (fun error =>
       let! _ := log "error" "database" (label +:+ "の作成中にエラーが発生しました") in
       throw error).

Definition createFullBackup (cfg : Config) (description : option string) : M S string :=
  createBackupOf BACKUP_TABLES "backup_" "完全バックアップ" true cfg description.

(** [description || 'クリティカルテーブルのみのバックアップ'] *)
Definition createCriticalBackup (cfg : Config) (description : option string)
  : M S string :=
  createBackupOf CRITICAL_TABLES "critical_backup_" "クリティカルバックアップ" false cfg
    (Some (match description with
           | Some d => if String.eqb d EmptyString
                       then "クリティカルテーブルのみのバックアップ" else d
           | None => "クリティカルテーブルのみのバックアップ"
           end)).

(** One round of the table loop of [validateBackup]; [metadata] is neither
    [undefined] nor [null] when the loop is reached. *)
Definition check_table (backupData : json) (metadata : jsval)
    (issues : list Issue) (table : json) : Result (list Issue) :=
  let name := js_to_string table in
  try! dataSection := prop (Some backupData) "data" in
  try! tableData := prop dataSection name in
  if negb (truthy tableData) then Ok (issues ++ [IssueTableMissing name])
  else
    match tableData with
    | Some (JArr rows) =>
        try! recordCount := prop metadata "recordCount" in
        try! issues :=
          (if truthy recordCount then
             try! recorded := prop recordCount name in
             if strict_eq_num recorded (Z.of_nat (length rows)) then Ok issues
             else Ok (issues ++ [IssueRecordCount name (jsval_to_string recorded)
                                   (length rows)])
           else Ok issues) in
        try! checksums := prop metadata "checksums" in
        if truthy checksums then
          try! recorded := prop checksums name in
          if truthy recorded then
            let currentChecksum := checksum_of (JArr rows) in
            if strict_eq_str recorded currentChecksum then Ok issues
            else Ok (issues ++ [IssueChecksum name])
          else Ok issues
        else Ok issues
    | _ => Ok (issues ++ [IssueTableNotArray name])
    end.

Fixpoint check_tables (backupData : json) (metadata : jsval)
    (issues : list Issue) (tables : list json) : Result (list Issue) :=
  match tables with
  | [] => Ok issues
  | table :: rest =>
      try! issues := check_table backupData metadata issues table in
      check_tables backupData metadata issues rest
  end.

(** The body of [validateBackup] once the file has been parsed. *)
Definition validate_document (backupData : json) : Result (list Issue) :=
  let issues := [] in
  try! md := prop (Some backupData) "metadata" in
  let issues := if truthy md then issues else issues ++ [IssueNoMetadata] in
  try! dataSection := prop (Some backupData) "data" in
  let issues := if truthy dataSection then issues else issues ++ [IssueNoData] in
  let metadata := md in
  try! ts := prop metadata "timestamp" in
  let issues := if truthy ts then issues else issues ++ [IssueNoTimestamp] in
  try! ver := prop metadata "version" in
  let issues := if truthy ver then issues else issues ++ [IssueNoVersion] in
  try! tables := prop metadata "tables" in
  let issues :=
    if negb (truthy tables) || negb (is_array tables)
       || strict_eq_num (length_of tables) 0
    then issues ++ [IssueBadTables] else issues in
  match tables with
  | Some (JArr items) => check_tables backupData metadata issues items
  | _ => Ok issues
  end.

Definition validateBackup (backupPath : string) : M S Validation :=
  try_catch
    (let! content := readFile backupPath in
     match JSON_parse content with
     | Throw parseError => ret {| valid := false; issues := [IssueJsonParse] |}
     | Ok backupData =>
         let! issues := lift (validate_document backupData) in
         ret {| valid := (length issues =? 0); issues := issues |}
     end)
    (fun error =>
       ret {| valid := false; issues := [IssueException (exn_message error)] |}).

(** [restoreDetails.errors[name] = message]: the assignment adds or
    replaces the property [name], except for [__proto__], which is an
    accessor of [Object.prototype]: its setter takes objects and [null]
    only and lets the assignment of a string pass without an effect. *)
Definition record_error (name message : string) (details : RestoreDetails)
  : RestoreDetails :=
  {| rd_timestamp := rd_timestamp details;
     tablesRestored := tablesRestored details;
     recordsRestored := recordsRestored details;
     errors := if decide (name = "__proto__") then errors details
               else obj_set name message (errors details) |}.

(** One round of the table loop of [restoreFromBackup]. *)
Definition restore_table (backupData : json) (options : RestoreOptions)
    (details : RestoreDetails) (table : json) : M S RestoreDetails :=
  let name := js_to_string table in
  try_catch
    (let! _ := log "debug" "database" ("テーブル " +:+ name +:+ " のリストアを開始します") in
     let! dataSection := lift (prop (Some backupData) "data") in
     let! tableData := lift (prop dataSection name) in
     if negb (truthy tableData) || strict_eq_num (length_of tableData) 0 then
       let! _ := log "warn" "database" ("テーブル " +:+ name +:+ " にはデータがありません") in
       ret (record_error name "データがありません" details)
     else
       let values := default JNull tableData in
       let! cleared :=
         (if clearBeforeRestore options then
            let! clearError := delete_neq name "id" (JNum 0) in
            match clearError with
            | Some msg =>
                let! _ := log "error" "database"
                            ("テーブル " +:+ name +:+ " のクリア中にエラーが発生") in
                ret (Some (record_error name ("クリアエラー: " +:+ msg) details))
            | None => ret None
            end
          else ret None) in
       match cleared with
       | Some details' => ret details'
       | None =>
           let! insertError := upsert name values "id" in
           match insertError with
           | Some msg =>
               let! _ := log "error" "database"
                           ("テーブル " +:+ name +:+ " のデータ挿入中にエラーが発生") in
               ret (record_error name ("挿入エラー: " +:+ msg) details)
           | None =>
               let details' :=
                 {| rd_timestamp := rd_timestamp details;
                    tablesRestored := Datatypes.S (tablesRestored details);
                    recordsRestored :=
                      add_length (recordsRestored details) (length_of tableData);
                    errors := errors details |} in
               let! _ := log "info" "database"
                           ("テーブル " +:+ name +:+ " のリストアが完了しました ("
                            +:+ jsval_to_string (length_of tableData) +:+ " レコード)") in
               ret details'
           end
       end)
    (fun tableError =>
       let! _ := log "error" "database"
                   ("テーブル " +:+ name +:+ " のリストア中にエラーが発生") in
       ret (record_error name ("例外: " +:+ exn_message tableError) details)).

(** The worklist: [metadata.tables], filtered by [onlyTables] and
    [skipTables] when they are given and not empty. *)
Definition tables_to_restore (metadata : jsval) (options : RestoreOptions)
  : Result (list json) :=
  try! tablesToRestore := prop metadata "tables" in
  try! tablesToRestore :=
    (if nonempty_list (onlyTables options)
     then array_filter tablesToRestore
            (fun table => includes (default [] (onlyTables options)) table)
     else Ok tablesToRestore) in
  try! tablesToRestore :=
    (if nonempty_list (skipTables options)
     then array_filter tablesToRestore
            (fun table => negb (includes (default [] (skipTables options)) table))
     else Ok tablesToRestore) in
  iterate tablesToRestore.

Definition restoreFromBackup (cfg : Config) (backupPath : string)
    (options : RestoreOptions) : M S RestoreOutcome :=
  try_catch
    (let! _ := log "info" "database" "バックアップからのリストアを開始します" in
     let! content := readFile backupPath in
     let! backupData := lift (JSON_parse content) in
     let! metadata := lift (prop (Some backupData) "metadata") in
     let! backupVersion := lift (prop metadata "version") in
     let! _ := (if strict_eq_str backupVersion (cfg_version cfg) then ret tt
                else log "warn" "database" "バージョンの不一致があります") in
     let! preRestoreBackupPath :=
       createFullBackup cfg (Some "リストア前の自動バックアップ") in
     let! d := now_iso in
     let restoreDetails :=
       {| rd_timestamp := toISOString d;
          tablesRestored := 0;
          recordsRestored := Some 0%Z;
          errors := [] |} in
     let! worklist := lift (tables_to_restore metadata options) in
     let! restoreDetails :=
       for_of worklist (restore_table backupData options) restoreDetails in
     let success :=
       (0 <? tablesRestored restoreDetails)
       && (length (obj_keys (errors restoreDetails)) =? 0) in
     let! _ := (if success
                then log "info" "database" "バックアップからのリストアが完了しました"
                else log "warn" "database" "バックアップからのリストアが一部失敗しました") in
     ret (RestoreReport success restoreDetails preRestoreBackupPath))
    (fun error =>
       let! _ := log "error" "database"
                   "バックアップからのリストア中にエラーが発生しました" in
       let! d := now_iso in
       ret (RestoreFailure (exn_message error) (toISOString d))).
End Service.

(** ** A store in memory *)

Definition is_digit (c : Ascii.ascii) : bool :=
  (48 <=? Ascii.nat_of_ascii c) && (Ascii.nat_of_ascii c <=? 57).

Fixpoint digits_value (acc : Z) (s : string) : option Z :=
  match s with
  | EmptyString => Some acc
  | String c rest =>
      if is_digit c
      then digits_value (10 * acc + Z.of_nat (Ascii.nat_of_ascii c - 48)) rest
      else None
  end.

(** A value sent for the integer column [id], read at the type of the
    column: a number that is an integer, or a string that is the decimal
    text of one. *)
Definition id_value (v : json) : option Z :=
  match v with
  | JNum z => Some z
  | JStr (String c rest as s) =>
      if Ascii.eqb c "-" then
        match rest with
        | EmptyString => None
        | _ => Z.opp <$> digits_value 0 rest
        end
      else digits_value 0 s
  | _ => None
  end.

(** Every table has an integer primary key [id]; a table is its rows by
    [id], and a row is kept as its other columns. The three lists name the
    tables on which the store refuses to read, to delete and to write (a
    policy, an outage). Constraints other than the primary key are not
    modelled, and of the column defaults only the one of [id] on insert
    is. *)
Record MemDb : Type := {
  db_tables : gmap string (gmap Z (list (string * json)));
  db_no_select : list string;
  db_no_delete : list string;
  db_no_upsert : list string }.

Definition row_json (r : Z * list (string * json)) : json :=
  JObj (("id", JNum (fst r)) :: snd r).

(** The key and the other columns of a row handed to [upsert]. *)
Definition row_key (row : json) : option (Z * list (string * json)) :=
  match row with
  | JObj fields =>
      match obj_get "id" fields ≫= id_value with
      | Some z => Some (z, obj_remove "id" fields)
      | None => None
      end
  | _ => None
  end.

Definition mem_select (db : MemDb) (table : string) : SelectResult :=
  match db_tables db !! table with
  | None => {| sel_data := None; sel_error := Some "relation does not exist" |}
  | Some rows =>
      if decide (table ∈ db_no_select db)
      then {| sel_data := None; sel_error := Some "permission denied" |}
      else {| sel_data := Some (row_json <$> map_to_list rows); sel_error := None |}
  end.

Definition with_table (db : MemDb) (table : string)
    (rows : gmap Z (list (string * json))) : MemDb :=
  {| db_tables := <[table := rows]> (db_tables db);
     db_no_select := db_no_select db;
     db_no_delete := db_no_delete db;
     db_no_upsert := db_no_upsert db |}.

(** [DELETE FROM table WHERE column <> value]: the rows whose [id] is
    [value] stay. *)
Definition mem_delete_neq (db : MemDb) (table column : string) (value : json)
  : MemDb * option string :=
  match db_tables db !! table with
  | None => (db, Some "relation does not exist")
  | Some rows =>
      if decide (table ∈ db_no_delete db) then (db, Some "permission denied")
      else if decide (column = "id") then
        match id_value value with
        | Some z => (with_table db table (filter (fun r => fst r = z) rows), None)
        | None => (db, Some "invalid input syntax for type integer")
        end
      else (db, Some "column does not exist")
  end.

Definition rows_of_values (values : json) : option (list json) :=
  match values with
  | JArr rows => Some rows
  | JObj _ => Some [values]
  | _ => None
  end.

Definition put_row (rows : gmap Z (list (string * json)))
    (r : Z * list (string * json)) : gmap Z (list (string * json)) :=
  <[fst r := snd r]> rows.

(** [INSERT ... ON CONFLICT (id) DO UPDATE], one statement: either every row
    is written or none. Each row brings its [id]. *)
Definition mem_upsert (db : MemDb) (table : string) (values : json)
    (onConflict : string) : MemDb * option string :=
  match db_tables db !! table with
  | None => (db, Some "relation does not exist")
  | Some rows =>
      if decide (table ∈ db_no_upsert db) then (db, Some "permission denied")
      else if decide (onConflict = "id") then
        match rows_of_values values ≫= mapM row_key with
        | None => (db, Some "null value in column id violates not-null constraint")
        | Some keyed =>
            if decide (NoDup keyed.*1)
            then (with_table db table (foldl put_row rows keyed), None)
            else (db, Some "ON CONFLICT DO UPDATE command cannot affect row a second time")
        end
      else (db, Some "no unique constraint matching the ON CONFLICT specification")
  end.

(** The next value of the sequence of [id]: above every [id] in use, and
    at least 1. *)
Definition next_id (rows : gmap Z (list (string * json))) : Z :=
  (1 + map_fold (fun k _ top => Z.max k top) 0 rows)%Z.

(** [INSERT INTO table] of one row: a row without an [id] gets the next
    value of the sequence, an [id] in use is refused. *)
Definition mem_insert (db : MemDb) (table : string) (row : json)
  : MemDb * option string :=
  match db_tables db !! table with
  | None => (db, Some "relation does not exist")
  | Some rows =>
      if decide (table ∈ db_no_upsert db) then (db, Some "permission denied")
      else
        match row with
        | JObj fields =>
            match obj_get "id" fields with
            | None => (with_table db table (<[next_id rows := fields]> rows), None)
            | Some v =>
                match id_value v with
                | Some z =>
                    if decide (is_Some (rows !! z))
                    then (db, Some "duplicate key value violates unique constraint")
                    else (with_table db table (<[z := obj_remove "id" fields]> rows),
                          None)
                | None => (db, Some "invalid input syntax for type integer")
                end
            end
        | _ => (db, Some "cannot insert a value that is not an object")
        end
  end.

#[global] Instance MemDb_store : Store MemDb := {
  store_select := mem_select;
  store_delete_neq := mem_delete_neq;
  store_upsert := mem_upsert;
  store_insert := mem_insert }.

(** Number of rows of a table. *)
Definition row_count (db : MemDb) (table : string) : nat :=
  match db_tables db !! table with
  | Some rows => size rows
  | None => 0
  end.

(** ** A runtime for the worked examples *)

Definition quote : string := String (Ascii.ascii_of_nat 34) EmptyString.

(** The text of a string between its quotes: a quote or a backslash gets a
    backslash before it (control characters do not occur in the examples). *)
Fixpoint escape (s : string) : string :=
  match s with
  | EmptyString => EmptyString
  | String c rest =>
      if Ascii.eqb c (Ascii.ascii_of_nat 34) || Ascii.eqb c (Ascii.ascii_of_nat 92)
      then String (Ascii.ascii_of_nat 92) (String c (escape rest))
      else String c (escape rest)
  end.

(** [JSON.stringify(v)] without indentation, for data (a function is
    rendered as in an array, by [null]). *)
Fixpoint stringify (v : json) : string :=
  match v with
  | JNull => "null"
  | JBool true => "true"
  | JBool false => "false"
  | JNum z => pretty z
  | JReal lit => lit
  | JStr s => quote +:+ escape s +:+ quote
  | JArr items =>
      "[" +:+ String.concat ","
                ((fix elems (l : list json) : list string :=
                    match l with
                    | [] => []
                    | x :: rest => stringify x :: elems rest
                    end) items) +:+ "]"
  | JObj fields =>
      "{" +:+ String.concat ","
                ((fix members (l : list (string * json)) : list string :=
                    match l with
                    | [] => []
                    | (k, x) :: rest =>
                        (quote +:+ escape k +:+ quote +:+ ":" +:+ stringify x)
                        :: members rest
                    end) fields) +:+ "}"
  | JNative _ _ => "null"
  end.

(** Exactly [n] decimal digits at the head of [s]: their value and the rest. *)
Fixpoint fixed_number (n : nat) (acc : Z) (s : string) : option (Z * string) :=
  match n with
  | O => Some (acc, s)
  | Datatypes.S n' =>
      match s with
      | String c rest =>
          if is_digit c
          then fixed_number n' (10 * acc + Z.of_nat (Ascii.nat_of_ascii c - 48)) rest
          else None
      | EmptyString => None
      end
  end.

Definition expect (c : Ascii.ascii) (s : string) : option string :=
  match s with
  | String c' rest => if Ascii.eqb c c' then Some rest else None
  | EmptyString => None
  end.

(** Days from 1970-01-01 to the given civil date (proleptic Gregorian). *)
Definition days_from_civil (y m d : Z) : Z :=
  let y' := (if m <=? 2 then y - 1 else y)%Z in
  let era := (y' / 400)%Z in
  let yoe := (y' - era * 400)%Z in
  let mp := (if m <=? 2 then m + 9 else m - 3)%Z in
  let doy := ((153 * mp + 2) / 5 + d - 1)%Z in
  let doe := (yoe * 365 + yoe / 4 - yoe / 100 + doy)%Z in
  (era * 146097 + doe - 719468)%Z.

Definition time_value (y mo d h mi s ms : Z) : Z :=
  ((((days_from_civil y mo d * 24 + h) * 60 + mi) * 60 + s) * 1000 + ms)%Z.

(** The zone at the end of a date-time string: nothing or [Z] (the process
    runs in UTC), or a signed [HH:mm]; the result is the offset in minutes. *)
Definition parse_zone (s : string) : option Z :=
  match s with
  | EmptyString => Some 0%Z
  | String c rest =>
      if Ascii.eqb c "Z" then (if String.eqb rest EmptyString then Some 0%Z else None)
      else if Ascii.eqb c "+" || Ascii.eqb c "-" then
        '(h, r) ← fixed_number 2 0 rest;
        r ← expect ":" r;
        '(m, r) ← fixed_number 2 0 r;
        if String.eqb r EmptyString && (h <? 24)%Z && (m <? 60)%Z
        then Some (if Ascii.eqb c "+" then h * 60 + m else - (h * 60 + m))%Z
        else None
      else None
  end.

(** Seconds and milliseconds after [HH:mm], then the zone. *)
Definition parse_seconds (s : string) : option (Z * Z * Z) :=
  match expect ":" s with
  | Some r =>
      '(sec, r) ← fixed_number 2 0 r;
      match expect "." r with
      | Some r' =>
          '(ms, r') ← fixed_number 3 0 r';
          zone ← parse_zone r';
          Some (sec, ms, zone)
      | None => zone ← parse_zone r; Some (sec, 0%Z, zone)
      end
  | None => zone ← parse_zone s; Some (0%Z, 0%Z, zone)
  end.

(** [Date.parse] on the date-time string format of ECMAScript,
    YYYY-MM-DDTHH:mm:ss.sssZ and its shorter forms. A string outside the
    format is NaN: the engine (V8) falls back to its own formats only while
    it has not read a date followed by T, so a time that is not written
    HH:mm after the T is rejected. *)
Definition Date_parse (s : string) : option Z :=
  '(y, r) ← fixed_number 4 0 s;
  if String.eqb r EmptyString then Some (time_value y 1 1 0 0 0 0) else
  r ← expect "-" r;
  '(mo, r) ← fixed_number 2 0 r;
  if negb ((1 <=? mo)%Z && (mo <=? 12)%Z) then None else
  if String.eqb r EmptyString then Some (time_value y mo 1 0 0 0 0) else
  r ← expect "-" r;
  '(d, r) ← fixed_number 2 0 r;
  if negb ((1 <=? d)%Z && (d <=? 31)%Z) then None else
  if String.eqb r EmptyString then Some (time_value y mo d 0 0 0 0) else
  r ← expect "T" r;
  '(h, r) ← fixed_number 2 0 r;
  r ← expect ":" r;
  '(mi, r) ← fixed_number 2 0 r;
  '(sec, ms, zone) ← parse_seconds r;
  if (h <? 24)%Z && (mi <? 60)%Z && (sec <? 60)%Z
  then Some (time_value y mo d h mi sec ms - zone * 60000)%Z
  else None.

(** [new Date(v).getTime()]: a string is parsed, an integer is the time
    value itself; other values do not occur as timestamps in the examples
    and are taken as NaN. *)
Definition example_getTime (v : jsval) : option Z :=
  match v with
  | Some (JStr s) => Date_parse s
  | Some (JNum z) =>
      if (Z.abs z <=? 8640000000000000)%Z then Some z else None
  | _ => None
  end.

Definition native (name : string) (arity : Z) : jsval :=
  Some (JNative ("function " +:+ name +:+ "() { [native code] }") (Some arity)).

(** The members of [Object.prototype] in V8; [__proto__] reads the
    prototype itself, an object without enumerable properties. *)
Definition object_member (constructor : string) (key : string) : jsval :=
  if decide (key = "constructor") then native constructor 1
  else if decide (key = "__proto__") then Some (JObj [])
  else if decide (key = "toString") then native "toString" 0
  else if decide (key = "toLocaleString") then native "toLocaleString" 0
  else if decide (key = "valueOf") then native "valueOf" 0
  else if decide (key = "hasOwnProperty") then native "hasOwnProperty" 1
  else if decide (key = "isPrototypeOf") then native "isPrototypeOf" 1
  else if decide (key = "propertyIsEnumerable") then native "propertyIsEnumerable" 1
  else if decide (key = "__defineGetter__") then native "__defineGetter__" 2
  else if decide (key = "__defineSetter__") then native "__defineSetter__" 2
  else if decide (key = "__lookupGetter__") then native "__lookupGetter__" 1
  else if decide (key = "__lookupSetter__") then native "__lookupSetter__" 1
  else None.

(** What the prototype chain gives in the examples: for an object the
    members of [Object.prototype]; for the other values their constructor
    and the members every prototype has (the further methods of arrays,
    strings and numbers do not occur as table names in the examples). *)
Definition example_inherited (v : json) (key : string) : jsval :=
  match v with
  | JObj _ => object_member "Object" key
  | JArr _ =>
      if decide (key = "__proto__") then Some (JArr []) else object_member "Array" key
  | JStr _ => object_member "String" key
  | JNum _ | JReal _ => object_member "Number" key
  | JBool _ => object_member "Boolean" key
  | JNative _ _ => object_member "Function" key
  | JNull => None
  end.

(** The runtime of the examples. Its digest is a stand-in, the serialized
    text itself: no theorem depends on what the digest of a text is. *)
Definition example_runtime : Runtime := {|
  JSON_stringify := stringify;
  sha256_hex := fun text => text;
  Date_getTime := example_getTime;
  inherited := example_inherited |}.

(** ** Worlds of the worked examples *)

(** A clock that reads 2025-01-01, 12:30 and [n] seconds at its [n]-th
    reading. *)
Definition at_second (n : nat) : DateTime :=
  {| dt_year := 2025; dt_month := 1; dt_day := 1;
     dt_hour := 12; dt_minute := 30; dt_second := n; dt_millis := 0 |}.

(** A world in which the log service has the configuration of the module:
    the database sink is on. *)
Definition world_of (db : MemDb) (files : list (string * FileContent)) : World MemDb :=
  mkWorld db files [] [] at_second 0 [] [] LogService.config [].

(** [{ ...this.config, ...config }] for the configuration the scripts hand
    to [LogService.initialize]: the database sink is off, the level is
    [info], the categories stay. *)
Definition script_logging (current : LogService.LogConfig) : LogService.LogConfig :=
  {| LogService.enableDatabase := false;
     LogService.logLevel := "info";
     LogService.includeCategories := LogService.includeCategories current |}.

(** A world in which the log service has the configuration of the
    scripts. *)
Definition script_world_of (db : MemDb) (files : list (string * FileContent))
  : World MemDb :=
  mkWorld db files [] [] at_second 0 [] [] (script_logging LogService.config) [].

Definition no_tables : MemDb :=
  {| db_tables := ∅; db_no_select := []; db_no_delete := []; db_no_upsert := [] |}.

(** What [metadata.checksums[name]] reads in a document: [undefined] when
    the mapping is missing, or when it has no entry of that name and its
    prototype chain has no member of that name either. *)
Definition recorded_checksum `{!Runtime} (doc : json) (name : string) : jsval :=
  match prop (Some doc) "metadata" with
  | Ok md =>
      match prop md "checksums" with
      | Ok cs =>
          if truthy cs then
            match prop cs name with
            | Ok v => v
            | Throw _ => None
            end
          else None
      | Throw _ => None
      end
  | Throw _ => None
  end.

(** The metadata of a snapshot of one table with two rows, without
    checksums. *)
Definition metadata_without_checksums : json :=
  JObj [("timestamp", JStr "2025-01-01T12-30-00");
        ("version", JStr "1.0");
        ("tables", JArr [JStr "bot_settings"]);
        ("recordCount", JObj [("bot_settings", JNum 2)])].

(** A snapshot of one table with two rows and no checksums at all. *)
Definition snapshot_without_checksums : json :=
  JObj [("metadata", metadata_without_checksums);
        ("data",
         JObj [("bot_settings",
                JArr [JObj [("id", JNum 1); ("key", JStr "model")];
                      JObj [("id", JNum 2); ("key", JStr "temperature")]])])].

(** A file that parses but has no metadata. *)
Definition snapshot_without_metadata : json :=
  JObj [("data", JObj [("bot_settings", JArr [])])].

(** ** The service read as functions of the store and of the files

    What the builder puts in a snapshot depends on what the store answered
    to its selects, and what the listing returns on the files alone; the
    statements below are written with these readings. *)

Section Readings.
Context {S : Type} `{!Store S} `{!Runtime}.

(** The snapshot before the export loop. *)
Definition empty_snapshot (tableSet : list string) (cfg : Config)
    (description : option string) (now : DateTime) : BackupData :=
  {| metadata :=
       {| timestamp := backup_timestamp now;
          version := cfg_version cfg;
          tables := tableSet;
          recordCount := [];
          checksums := [];
          description := description |};
     data := [] |}.

(** One round of the export loop, on the snapshot: what the answer of the
    store to the select of a table adds. *)
Definition export_answer (backupData : BackupData) (answer : string * SelectResult)
  : BackupData :=
  match sel_error answer.2 with
  | Some _ => backupData
  | None => record_export backupData answer.1 (sel_data answer.2)
  end.

(** The snapshot the builder assembles at clock reading [now] from the
    answers of the store, in the order of the selects. *)
Definition snapshot_from (answers : list (string * SelectResult))
    (tableSet : list string) (cfg : Config) (description : option string)
    (now : DateTime) : BackupData :=
  foldl export_answer (empty_snapshot tableSet cfg description now) answers.



(** The store once the log service has handled the entries in turn. *)
Definition logged_all (config : LogService.LogConfig) (db : S)
    (entries : list LogEntry) : S :=
  foldl (logged config) db entries.

(** An answer the store gave to a select while the log service was the
    only one to write to it: the answer of a state reached from [db] by the
    inserts of log entries. *)
Definition answered_between_logs (config : LogService.LogConfig) (db : S)
    (answer : string * SelectResult) : Prop :=
  exists entries : list LogEntry,
    answer.2 = store_select (logged_all config db entries) answer.1.

(** The path the builder writes at clock reading [now]. *)
Definition backup_path (cfg : Config) (prefix : string) (now : DateTime) : string :=
  path_join (backupDirectory cfg) (prefix +:+ backup_timestamp now +:+ ".json").

(** The entry [listAvailableBackups] makes of a directory entry: the file
    must be named [*.json], parse, and not be the document [null]. *)
Definition entry_of (cfg : Config) (files : list (string * FileContent))
    (name : string) : option BackupEntry :=
  if ends_with ".json" name then
    match obj_get (path_join (backupDirectory cfg) name) files with
    | Some (Doc doc) =>
        match prop (Some doc) "metadata" with
        | Ok md => Some {| entry_path := path_join (backupDirectory cfg) name;
                           entry_metadata := md |}
        | Throw _ => None
        end
    | _ => None
    end
  else None.

Definition entries_of (cfg : Config) (files : list (string * FileContent))
  : list BackupEntry :=
  omap (entry_of cfg files)
    (omap (fun f => entry_name (backupDirectory cfg) (fst f)) files).

(** The result of [listAvailableBackups]. *)
Definition listing (cfg : Config) (files : list (string * FileContent))
  : list BackupEntry :=
  match array_sort newest_first (entries_of cfg files) with
  | Ok sorted => sorted
  | Throw _ => []
  end.

(** The entries [cleanupOldBackups] sets out to delete. *)
Definition to_delete (cfg : Config) (files : list (string * FileContent))
  : list BackupEntry :=
  if (maxBackupCount cfg <? Z.of_nat (length (listing cfg files)))%Z
  then array_slice (maxBackupCount cfg) (listing cfg files)
  else [].
End Readings.
#[global] Arguments logged_all : simpl never.

(** A successful [unlink] of each path in turn. *)
Definition remove_all (paths : list string) (files : list (string * FileContent))
  : list (string * FileContent) :=
  foldl (fun fs p => obj_remove p fs) files paths.

(** The answers the store gave between two worlds. *)
Definition answers_since {S} (w w' : World S) : list (string * SelectResult) :=
  drop (length (w_answers w)) (w_answers w').

Section Worlds.
Context {S : Type} `{!Store S}.

(** The world once [entries] have been logged. *)
Definition append_logs (entries : list LogEntry) (w : World S) : World S :=
  mkWorld (logged_all (w_logging w) (w_db w) entries) (w_files w) (w_unwritable w)
    (w_undeletable w) (w_clock w) (w_tick w) (w_trace w) (w_log w ++ entries)
    (w_logging w) (w_answers w).

(** The world once the store has given [answers] and [entries] have been
    logged. *)
Definition after_exports (answers : list (string * SelectResult))
    (entries : list LogEntry) (w : World S) : World S :=
  mkWorld (logged_all (w_logging w) (w_db w) entries) (w_files w) (w_unwritable w)
    (w_undeletable w) (w_clock w) (w_tick w) (w_trace w) (w_log w ++ entries)
    (w_logging w) (w_answers w ++ answers).

(** The world once [deleted] have been unlinked one after the other and
    [entries] logged. *)
Definition after_unlinks (deleted : list string) (entries : list LogEntry)
    (w : World S) : World S :=
  mkWorld (logged_all (w_logging w) (w_db w) entries)
    (remove_all deleted (w_files w)) (w_unwritable w)
    (w_undeletable w) (w_clock w) (w_tick w)
    (w_trace w ++ (EvUnlink <$> deleted)) (w_log w ++ entries)
    (w_logging w) (w_answers w).

(** The world once the builder has read the clock, got [answers] from the
    store, written [content] at [path], unlinked [deleted] and logged
    [entries]. *)
Definition after_backup (path : string) (content : FileContent)
    (answers : list (string * SelectResult)) (deleted : list string)
    (entries : list LogEntry) (w : World S) : World S :=
  mkWorld (logged_all (w_logging w) (w_db w) entries)
    (remove_all deleted (obj_set path content (w_files w)))
    (w_unwritable w) (w_undeletable w) (w_clock w) (Datatypes.S (w_tick w))
    (w_trace w ++ EvWriteFile path content :: (EvUnlink <$> deleted))
    (w_log w ++ entries) (w_logging w) (w_answers w ++ answers).

(** The world once the clock has been read, the store has given [answers]
    and [entries] have been logged. *)
Definition after_clock (answers : list (string * SelectResult))
    (entries : list LogEntry) (w : World S) : World S :=
  mkWorld (logged_all (w_logging w) (w_db w) entries) (w_files w) (w_unwritable w)
    (w_undeletable w) (w_clock w) (Datatypes.S (w_tick w)) (w_trace w)
    (w_log w ++ entries) (w_logging w) (w_answers w ++ answers).
End Worlds.

(** A computation keeps a property of the store when the property holds
    after it, however it ends, provided it held before. *)
Definition keeps {S A} (P : S -> Prop) (m : M S A) : Prop :=
  forall (w : World S) (r : Result A) (w' : World S),
    m w = (r, w') -> P (w_db w) -> P (w_db w').

(** The tables a document lists in [metadata.tables]. *)
Definition listed_tables `{!Runtime} (doc : json) : list json :=
  match prop (Some doc) "metadata" with
  | Ok md =>
      match prop md "tables" with
      | Ok (Some (JArr items)) => items
      | _ => []
      end
  | Throw _ => []
  end.

Definition open_store (tables : gmap string (gmap Z (list (string * json)))) : MemDb :=
  {| db_tables := tables; db_no_select := []; db_no_delete := []; db_no_upsert := [] |}.


(** A store that holds the seven tables. *)
Definition store_with_all_tables : MemDb :=
  open_store
    {[ "conversation_histories" :=
         {[ 1%Z := [("user_id", JStr "u1"); ("content", JStr "hello")] ]};
       "api_usage" := ∅;
       "bot_settings" := {[ 1%Z := [("key", JStr "model"); ("value", JStr "gemini")] ]};
       "api_logs" := ∅;
       "system_logs" := ∅;
       "env_variables" := {[ 1%Z := [("key", JStr "PREFIX"); ("value", JStr "!")] ]};
       "bot_status" := {[ 1%Z := [("status", JStr "online")] ]} ]}.

(** A store that holds the three critical tables. *)
Definition store_with_critical_tables : MemDb :=
  open_store
    {[ "conversation_histories" :=
         {[ 1%Z := [("user_id", JStr "u1"); ("content", JStr "hello")];
            2%Z := [("user_id", JStr "u2"); ("content", JStr "bye")] ]};
       "bot_settings" := {[ 1%Z := [("key", JStr "model"); ("value", JStr "gemini")] ]};
       "env_variables" := ∅ ]}.

(** ** Readings used by the further properties *)

Section MoreReadings.
Context {S : Type} `{!Store S} `{!Runtime}.

(** The time of an entry when its timestamp reads as one, 0 otherwise. *)
Definition time_key (e : BackupEntry) : Z :=
  match entry_time e with
  | Ok (Some t) => t
  | _ => 0%Z
  end.
End MoreReadings.

(** What [data[name]] reads in a document, [undefined] when the data
    section or the entry is missing. *)
Definition table_data `{!Runtime} (doc : json) (name : string) : jsval :=
  match prop (Some doc) "data" with
  | Ok ds =>
      match prop ds name with
      | Ok v => v
      | Throw _ => None
      end
  | Throw _ => None
  end.


(** The table a store event is about. *)
Definition event_table (e : Event) : option string :=
  match e with
  | EvDeleteRows table => Some table
  | EvUpsert table _ => Some table
  | _ => None
  end.

Definition is_upsert (e : Event) : bool :=
  match e with
  | EvUpsert _ _ => true
  | _ => false
  end.

(** The world once the store has become [db], [events] have happened and
    [entries] have been logged. *)
Definition after_store {S} (db : S) (events : list Event) (entries : list LogEntry)
    (w : World S) : World S :=
  mkWorld db (w_files w) (w_unwritable w) (w_undeletable w) (w_clock w)
    (w_tick w) (w_trace w ++ events) (w_log w ++ entries) (w_logging w)
    (w_answers w).

(** Whether the snapshot has rows to restore for a table: [tableData] is
    truthy and its [length] is not 0. *)
Definition has_rows `{!Runtime} (doc : json) (name : string) : bool :=
  truthy (table_data doc name)
  && negb (strict_eq_num (length_of (table_data doc name)) 0).

Definition is_string (v : json) : bool :=
  match v with
  | JStr _ => true
  | _ => false
  end.

(** Whether [restoreFromBackup] can read the version of the snapshot at
    [path]: the file exists, parses, and [backupData.metadata.version] can be
    evaluated, that is, the document is not [null] and its [metadata] is
    neither [undefined] nor [null]. *)
Definition readable_snapshot `{!Runtime} (files : list (string * FileContent))
    (path : string) : bool :=
  match obj_get path files with
  | Some (Doc doc) =>
      match prop (Some doc) "metadata" with
      | Ok md =>
          match prop md "version" with
          | Ok _ => true
          | Throw _ => false
          end
      | Throw _ => false
      end
  | _ => false
  end.

(** ** Worlds of the further examples *)

(** The metadata of a snapshot of [bot_settings] with one row, stamped
    [ts]. *)
Definition metadata_at (ts : string) : json :=
  JObj [("timestamp", JStr ts);
        ("version", JStr "1.0");
        ("tables", JArr [JStr "bot_settings"]);
        ("recordCount", JObj [("bot_settings", JNum 1)])].

Definition snapshot_at (ts : string) : json :=
  JObj [("metadata", metadata_at ts);
        ("data",
         JObj [("bot_settings", JArr [JObj [("id", JNum 1); ("key", JStr "model")]])])].

(** The entry the listing makes of [snapshot_at ts] in the file [name]. *)
Definition entry_at (name ts : string) : BackupEntry :=
  {| entry_path := "backups/" +:+ name; entry_metadata := Some (metadata_at ts) |}.

(** Three backups named and stamped as the service does, and a file that is
    not a backup. *)
Definition three_backups : list (string * FileContent) :=
  [("backups/backup_2025-01-01T10-00-00.json", Doc (snapshot_at "2025-01-01T10-00-00"));
   ("backups/backup_2025-01-02T10-00-00.json", Doc (snapshot_at "2025-01-02T10-00-00"));
   ("backups/notes.txt", Garbage "retention: keep one");
   ("backups/backup_2025-01-03T10-00-00.json", Doc (snapshot_at "2025-01-03T10-00-00"))].

(** Two backups stamped in the format of [toISOString], the older first. *)
Definition dated_backups : list (string * FileContent) :=
  [("backups/old.json", Doc (snapshot_at "2025-01-01T10:00:00.000Z"));
   ("backups/new.json", Doc (snapshot_at "2025-01-02T10:00:00.000Z"))].

(** A backup beside a file that parses but has no metadata. *)
Definition broken_backups : list (string * FileContent) :=
  [("backups/broken.json", Doc snapshot_without_metadata);
   ("backups/backup_2025-01-01T10-00-00.json", Doc (snapshot_at "2025-01-01T10-00-00"))].


(** A backup named and stamped as the service does. *)
Definition backup_file (ts : string) : string * FileContent :=
  ("backups/backup_" +:+ ts +:+ ".json", Doc (snapshot_at ts)).

(** Ten daily backups, as many as the default configuration keeps. *)
Definition ten_backups : list (string * FileContent) :=
  backup_file <$>
    ["2024-12-22T03-00-00"; "2024-12-23T03-00-00"; "2024-12-24T03-00-00";
     "2024-12-25T03-00-00"; "2024-12-26T03-00-00"; "2024-12-27T03-00-00";
     "2024-12-28T03-00-00"; "2024-12-29T03-00-00"; "2024-12-30T03-00-00";
     "2024-12-31T03-00-00"].

(** A snapshot of a table named [constructor], with a checksum mapping that
    has no entry. *)
Definition snapshot_named_constructor : json :=
  JObj [("metadata",
         JObj [("timestamp", JStr "2025-01-01T10-00-00");
               ("version", JStr "1.0");
               ("tables", JArr [JStr "constructor"]);
               ("checksums", JObj [])]);
        ("data", JObj [("constructor", JArr [])])].

(** The default configuration with room for one backup. *)
Definition keep_one : Config :=
  {| backupDirectory := "backups";
     maxBackupCount := 1;
     autoBackupInterval := 24 * 60 * 60 * 1000;
     cfg_version := "1.0" |}.

(** A world whose file system refuses to write [unwritable] and to unlink
    [undeletable]. *)
Definition locked_world (db : MemDb) (files : list (string * FileContent))
    (unwritable undeletable : list string) : World MemDb :=
  mkWorld db files unwritable undeletable at_second 0 [] [] LogService.config [].

(** A store that holds [bot_settings] with the row of id 0 and one more. *)
Definition store_with_settings : MemDb :=
  open_store
    {[ "bot_settings" :=
         {[ 0%Z := [("key", JStr "defaults")];
            7%Z := [("key", JStr "prefix")] ]} ]}.

(** The row of key [key] in a table of the store. *)
Definition row_of (db : MemDb) (table : string) (key : Z)
  : option (list (string * json)) :=
  rows ← db_tables db !! table; rows !! key.

(** Whether every row the snapshot holds for a table brings a number
    other than 0 as its [id]; a table without an entry in the data section
    has no row. *)
Definition row_not_zero (row : json) : bool :=
  match row with
  | JObj fields =>
      match obj_get "id" fields with
      | Some (JNum z) => negb (z =? 0)%Z
      | _ => false
      end
  | _ => false
  end.

Definition ids_not_zero `{!Runtime} (doc : json) (table : string) : bool :=
  match table_data doc table with
  | None => true
  | Some (JArr rows) => forallb row_not_zero rows
  | Some _ => false
  end.

(** A client that answers every request with neither rows nor an error. *)
Definition silent_client : Store unit := {|
  store_select := fun _ _ => {| sel_data := None; sel_error := None |};
  store_delete_neq := fun db _ _ _ => (db, None);
  store_upsert := fun db _ _ _ => (db, None);
  store_insert := fun db _ _ => (db, None) |}.

Definition restore_everything : RestoreOptions :=
  {| clearBeforeRestore := false; onlyTables := None; skipTables := None |}.

Definition restore_only (names : list string) : RestoreOptions :=
  {| clearBeforeRestore := true; onlyTables := Some names; skipTables := None |}.

Definition restore_but (names : list string) : RestoreOptions :=
  {| clearBeforeRestore := true; onlyTables := None; skipTables := Some names |}.

(** ** The command lines of the scripts

    [scripts/backup.ts] and [scripts/restore.ts] read their options from
    [process.argv] and hand them to the service. The strings of a command
    line are taken in UTF-8, in which the prefixes and the comma the scripts
    look for are single bytes. *)

(** [s.split(',')] *)
Fixpoint split_commas (s : string) : list string :=
  match s with
  | EmptyString => [EmptyString]
  | String c rest =>
      if Ascii.eqb c ","
      then EmptyString :: split_commas rest
      else match split_commas rest with
           | [] => [String c EmptyString]
           | piece :: pieces => String c piece :: pieces
           end
  end.

Definition bytes (codes : list nat) : string :=
  String.string_of_list_ascii (Ascii.ascii_of_nat <$> codes).

(** The white space and the line terminators of ECMAScript: TAB, LF, VT, FF,
    CR, SP, U+00A0, U+1680, U+2000 to U+200A, U+2028, U+2029, U+202F, U+205F,
    U+3000 and U+FEFF. *)
Definition white_space : list string :=
  bytes <$> [[9]; [10]; [11]; [12]; [13]; [32]; [194; 160]; [225; 154; 128];
             [226; 128; 128]; [226; 128; 129]; [226; 128; 130]; [226; 128; 131];
             [226; 128; 132]; [226; 128; 133]; [226; 128; 134]; [226; 128; 135];
             [226; 128; 136]; [226; 128; 137]; [226; 128; 138]; [226; 128; 168];
             [226; 128; 169]; [226; 128; 175]; [226; 129; 159]; [227; 128; 128];
             [239; 187; 191]].

Fixpoint strip_one (marks : list string) (s : string) : option string :=
  match marks with
  | [] => None
  | mark :: rest =>
      match strip_prefix mark s with
      | Some r => Some r
      | None => strip_one rest s
      end
  end.

Fixpoint strip_leading (marks : list string) (fuel : nat) (s : string) : string :=
  match fuel with
  | 0 => s
  | Datatypes.S fuel' =>
      match strip_one marks s with
      | Some r => strip_leading marks fuel' r
      | None => s
      end
  end.

(** [s.trim()] *)
Definition trim (s : string) : string :=
  let s := strip_leading white_space (String.length s) s in
  String.rev
    (strip_leading (String.rev <$> white_space) (String.length s) (String.rev s)).

Module RestoreScript.

Record Options : Type := {
  file : option string;
  clear : bool;
  tables : option (list string);
  skipTables : option (list string) }.

(** One round of the loop of [parseArguments]. *)
Definition parse_argument (options : Options) (arg : string) : Options :=
  match strip_prefix "--file=" arg with
  | Some value =>
      {| file := Some value; clear := clear options;
         tables := tables options; skipTables := skipTables options |}
  | None =>
      if String.eqb arg "--clear" then
        {| file := file options; clear := true;
           tables := tables options; skipTables := skipTables options |}
      else
        match strip_prefix "--tables=" arg with
        | Some tablesStr =>
            {| file := file options; clear := clear options;
               tables := Some (trim <$> split_commas tablesStr);
               skipTables := skipTables options |}
        | None =>
            match strip_prefix "--skip=" arg with
            | Some skipStr =>
                {| file := file options; clear := clear options;
                   tables := tables options;
                   skipTables := Some (trim <$> split_commas skipStr) |}
            | None => options
            end
        end
  end.

Definition parseArguments (argv : list string) : Options :=
  foldl parse_argument
    {| file := None; clear := false; tables := None; skipTables := None |}
    (drop 2 argv).

(** The options [main] passes to [restoreFromBackup]. *)
Definition restoreOptions (options : Options) : RestoreOptions :=
  Build_RestoreOptions (clear options) (tables options) (skipTables options).

End RestoreScript.

Module BackupScript.

Record Options : Type := {
  critical : bool;
  description : string }.

(** One round of the loop of [parseArguments]. *)
Definition parse_argument (options : Options) (arg : string) : Options :=
  if String.eqb arg "--critical" then
    {| critical := true; description := description options |}
  else
    match strip_prefix "--description=" arg with
    | Some text => {| critical := critical options; description := text |}
    | None => options
    end.

Definition parseArguments (argv : list string) : Options :=
  foldl parse_argument
    {| critical := false; description := "コマンドラインからの手動バックアップ" |}
    (drop 2 argv).

Section Main.
Context {S : Type} `{!Store S} `{!Runtime}.

(** [LogService.initialize] as [main] calls it: the configuration of the
    script replaces the fields it names, and the service logs that it is
    ready. (The directory and the old files of the log are outside the
    world; should one of them fail, the handler switches the database sink
    off as well.) *)
Definition initialize_logging : M S unit :=
  fun w =>
    log "info" "system" "ログサービスが初期化されました"
      (set_logging (script_logging (w_logging w)) w).

(** The backup [main] makes for a command line, once it has set up the
    log service. *)
Definition backup (cfg : Config) (argv : list string) : M S string :=
  let! _ := initialize_logging in
  let options := parseArguments argv in
  if critical options
  then createCriticalBackup cfg (Some (description options))
  else createFullBackup cfg (Some (description options)).
End Main.

End BackupScript.

(** The command lines of the examples. *)
Definition restore_command : list string :=
  ["node"; "restore.ts"; "--file=backup_2025-01-03T10-00-00.json";
   "--tables=env_variables, bot_settings"].


(** * Properties *)

(** ** Objects as association lists *)

Lemma obj_get_set_eq {A} (key : string) (v : A) (fields : list (string * A)) :
  obj_get key (obj_set key v fields) = Some v.
Proof.
  induction fields as [|[k x] rest IH]; simpl.
  - by rewrite decide_True.
  - destruct (decide (k = key)) as [->|Hne]; simpl.
    + by rewrite decide_True.
    + by rewrite decide_False.
Qed.

Lemma obj_get_set_ne {A} (key key' : string) (v : A) (fields : list (string * A)) :
  key ≠ key' -> obj_get key' (obj_set key v fields) = obj_get key' fields.
Proof.
  intros Hne. induction fields as [|[k x] rest IH]; simpl.
  - by rewrite decide_False.
  - destruct (decide (k = key)) as [->|Hk]; simpl.
    + by rewrite !decide_False.
    + destruct (decide (k = key')); [done | apply IH].
Qed.

Lemma obj_get_remove_eq {A} (key : string) (fields : list (string * A)) :
  obj_get key (obj_remove key fields) = None.
Proof.
  induction fields as [|[k x] rest IH]; simpl; [done|].
  destruct (decide (k = key)) as [->|Hk]; simpl; [done|].
  by rewrite decide_False.
Qed.

Lemma obj_get_remove_ne {A} (key key' : string) (fields : list (string * A)) :
  key ≠ key' -> obj_get key' (obj_remove key fields) = obj_get key' fields.
Proof.
  intros Hne. induction fields as [|[k x] rest IH]; simpl; [done|].
  destruct (decide (k = key)) as [->|Hk]; simpl.
  - by rewrite decide_False.
  - destruct (decide (k = key')); [done | apply IH].
Qed.

Lemma obj_get_fmap {A B} (f : A -> B) (key : string) (fields : list (string * A)) :
  obj_get key (prod_map id f <$> fields) = f <$> obj_get key fields.
Proof.
  induction fields as [|[k x] rest IH]; simpl; [done|].
  destruct (decide (k = key)); [done | apply IH].
Qed.

Lemma obj_get_Some_elem {A} (key : string) (v : A) (fields : list (string * A)) :
  obj_get key fields = Some v -> (key, v) ∈ fields.
Proof.
  induction fields as [|[k x] rest IH]; simpl; [done|].
  destruct (decide (k = key)) as [->|Hk].
  - intros [= ->]. apply list_elem_of_here.
  - intros H. apply list_elem_of_further, IH, H.
Qed.

(** ** The validator *)

Section Validator.
Context {S : Type} `{!Store S} `{!Runtime}.

(** [validateBackup] answers whatever the file is, and leaves the world
    as it found it. *)
Lemma validateBackup_answers (path : string) (w : World S) :
  exists v, validateBackup path w = (Ok v, w).
Proof.
  unfold validateBackup, try_catch, bind, readFile, lift, ret.
  destruct (obj_get path (w_files w)) as [[doc|text]|]; simpl; eauto.
  destruct (validate_document doc); simpl; eauto.
Qed.

(** The flag says that nothing was found. *)
Lemma validateBackup_valid_iff (path : string) (w w' : World S) (v : Validation) :
  validateBackup path w = (Ok v, w') -> valid v = true <-> issues v = [].
Proof.
  unfold validateBackup, try_catch, bind, readFile, lift, ret.
  destruct (obj_get path (w_files w)) as [[doc|text]|]; simpl.
  - destruct (validate_document doc) as [found|e]; simpl; intros [= <- <-]; simpl.
    + destruct found; simpl; split; done.
    + split; done.
  - intros [= <- <-]; simpl. split; done.
  - intros [= <- <-]; simpl. split; done.
Qed.

Lemma validateBackup_document (path : string) (doc : json) (w : World S) :
  obj_get path (w_files w) = Some (Doc doc) ->
  validateBackup path w =
    (Ok match validate_document doc with
        | Ok found => {| valid := (length found =? 0); issues := found |}
        | Throw e => {| valid := false; issues := [IssueException (exn_message e)] |}
        end, w).
Proof.
  intros Hfile. unfold validateBackup, try_catch, bind, readFile, lift, ret.
  rewrite Hfile; simpl. by destruct (validate_document doc).
Qed.

Lemma prop_Ok_other (v r : jsval) (key key' : string) :
  prop v key = Ok r -> prop v key' = Ok (property (default JNull v) key').
Proof. unfold prop. destruct v as [[]|]; simpl; done. Qed.

Lemma prop_truthy (v : jsval) (key : string) :
  truthy v = true -> prop v key = Ok (property (default JNull v) key).
Proof. unfold prop. destruct v as [[]|]; simpl; done. Qed.

Lemma check_table_keeps_no_checksum (doc : json) (md : jsval) (name : string)
    (found found' : list Issue) (table : json) :
  prop (Some doc) "metadata" = Ok md ->
  recorded_checksum doc name = None ->
  check_table doc md found table = Ok found' ->
  IssueChecksum name ∉ found -> IssueChecksum name ∉ found'.
Proof.
  intros Hmd Hrec Hstep Hnot. unfold recorded_checksum in Hrec. rewrite Hmd in Hrec.
  unfold check_table, rbind in Hstep.
  repeat match goal with
         | H : context [match ?x with _ => _ end] |- _ => destruct x eqn:?; simplify_eq
         end;
    rewrite ?not_elem_of_app, ?list_elem_of_singleton; repeat split; try done.
  all: intros [= Heq]; rewrite <- Heq in *.
  all: repeat match goal with
              | H1 : prop ?c ?k = _, H2 : prop ?c ?k = _ |- _ =>
                  rewrite H1 in H2; simplify_eq
              end; done.
Qed.

Lemma check_tables_keep_no_checksum (doc : json) (md : jsval) (name : string)
    (tables : list json) (found found' : list Issue) :
  prop (Some doc) "metadata" = Ok md ->
  recorded_checksum doc name = None ->
  check_tables doc md found tables = Ok found' ->
  IssueChecksum name ∉ found -> IssueChecksum name ∉ found'.
Proof.
  intros Hmd Hrec. revert found.
  induction tables as [|table rest IH]; simpl; intros found Hloop Hnot.
  - by simplify_eq.
  - unfold rbind in Hloop.
    destruct (check_table doc md found table) as [found1|e] eqn:Hstep; [|done].
    eapply IH; [done|]. by eapply check_table_keeps_no_checksum.
Qed.

Lemma validate_document_no_checksum (doc : json) (name : string) (found : list Issue) :
  recorded_checksum doc name = None ->
  validate_document doc = Ok found -> IssueChecksum name ∉ found.
Proof.
  intros Hrec. unfold validate_document, rbind.
  destruct (prop (Some doc) "metadata") as [md|] eqn:Hmd; [|done].
  destruct (prop (Some doc) "data") as [ds|]; [|done].
  destruct (prop md "timestamp") as [ts|]; [|done].
  destruct (prop md "version") as [ver|]; [|done].
  destruct (prop md "tables") as [tbls|]; [|done].
  destruct tbls as [[| | | | |items| |]|];
    [intros [= <-]..|intros Hloop; eapply check_tables_keep_no_checksum;
                     [exact Hmd|exact Hrec|exact Hloop|]
    |intros [= <-]|intros [= <-]|intros [= <-]].
  all: repeat case_match;
    rewrite ?not_elem_of_app, ?list_elem_of_singleton, ?elem_of_nil; naive_solver.
Qed.

Lemma validate_document_clean (doc : json) (md ds ts ver : jsval) (items : list json) :
  prop (Some doc) "metadata" = Ok md -> truthy md = true ->
  prop (Some doc) "data" = Ok ds -> truthy ds = true ->
  prop md "timestamp" = Ok ts -> truthy ts = true ->
  prop md "version" = Ok ver -> truthy ver = true ->
  prop md "tables" = Ok (Some (JArr items)) -> items <> [] ->
  check_tables doc md [] items = Ok [] ->
  validate_document doc = Ok [].
Proof.
  intros Hmd Tmd Hds Tds Hts Tts Hver Tver Htb Hne Hloop.
  unfold validate_document, rbind.
  rewrite Hmd; cbv beta iota. rewrite Hds; cbv beta iota zeta.
  rewrite Hts, Hver, Htb, Tmd, Tds, Tts, Tver; cbv beta iota.
  assert (strict_eq_num (length_of (Some (JArr items))) 0 = false) as ->.
  { destruct items; [done|reflexivity]. }
  exact Hloop.
Qed.

(** A snapshot whose [metadata.checksums] reads as [undefined] has no
    recorded checksum, whatever the table. *)
Lemma recorded_checksum_without_mapping (doc : json) (md : jsval) (name : string) :
  prop (Some doc) "metadata" = Ok md ->
  prop md "checksums" = Ok None ->
  recorded_checksum doc name = None.
Proof. intros Hmd Hcs. unfold recorded_checksum. by rewrite Hmd, Hcs. Qed.

(** C10 (amended). The checksum of a table is compared only when
    [metadata.checksums] is truthy and what [metadata.checksums[table]]
    reads, an entry of the mapping or a member its prototype chain has under
    that name, is truthy: for a snapshot that parses and for which that read
    gives [undefined], the validator reports no checksum issue for the
    table; that is the case of every table when [metadata.checksums] itself
    reads [undefined]; and a snapshot without any checksum can validate with
    [valid = true] and no issue. *)
Theorem validateBackup_checksum_only_when_recorded :
  (forall (path : string) (doc : json) (name : string) (w : World S),
      obj_get path (w_files w) = Some (Doc doc) ->
      recorded_checksum doc name = None ->
      exists v, validateBackup path w = (Ok v, w) /\ IssueChecksum name ∉ issues v)
  /\ (forall (doc : json) (md : jsval) (name : string),
         prop (Some doc) "metadata" = Ok md ->
         prop md "checksums" = Ok None ->
         recorded_checksum doc name = None)
  /\ (forall (path : string) (w : World S),
         obj_get path (w_files w) = Some (Doc snapshot_without_checksums) ->
         recorded_checksum snapshot_without_checksums "bot_settings" = None ->
         validateBackup path w = (Ok {| valid := true; issues := [] |}, w)).
Proof.
  split; [|split].
  - intros path doc name w Hfile Hrec.
    rewrite (validateBackup_document _ _ _ Hfile). eexists; split; [done|].
    destruct (validate_document doc) as [found|e] eqn:Hdoc; simpl.
    + by eapply validate_document_no_checksum.
    + rewrite list_elem_of_singleton. done.
  - intros doc md name. apply recorded_checksum_without_mapping.
  - intros path w Hfile Hrec. rewrite (validateBackup_document _ _ _ Hfile).
    assert (validate_document snapshot_without_checksums = Ok []) as ->; [|done].
    pose (cs := inherited metadata_without_checksums "checksums").
    assert (prop (Some metadata_without_checksums) "checksums" = Ok cs) as Hcs
        by reflexivity.
    assert (truthy cs = true -> prop cs "bot_settings" = Ok None) as Hnone.
    { intros Tcs. revert Hrec. unfold recorded_checksum.
      change (prop (Some snapshot_without_checksums) "metadata")
        with (Ok (Some metadata_without_checksums)).
      cbv beta iota. rewrite Hcs, Tcs, (prop_truthy cs "bot_settings" Tcs).
      by intros ->. }
    clearbody cs.
    apply (validate_document_clean snapshot_without_checksums
             (Some metadata_without_checksums)
             (Some (JObj [("bot_settings",
                           JArr [JObj [("id", JNum 1); ("key", JStr "model")];
                                 JObj [("id", JNum 2); ("key", JStr "temperature")]])]))
             (Some (JStr "2025-01-01T12-30-00")) (Some (JStr "1.0"))
             [JStr "bot_settings"]); try reflexivity; [done|].
    cbn [check_tables]. unfold check_table, rbind. cbn [js_to_string]. rewrite Hcs.
    destruct (truthy cs) eqn:Tcs.
    + rewrite (Hnone eq_refl). reflexivity.
    + reflexivity.
Qed.

(** C9. A file that parses but whose [metadata] is [undefined] or [null]
    makes the validator throw at [metadata.timestamp]: the answer holds the
    message of that exception alone, and the issues collected up to there
    (the missing metadata, a missing data section) are not in it. *)
Theorem validateBackup_without_metadata (path : string) (doc : json) (md : jsval)
    (w : World S) :
  obj_get path (w_files w) = Some (Doc doc) ->
  prop (Some doc) "metadata" = Ok md ->
  md = None \/ md = Some JNull ->
  exists msg,
    validateBackup path w
    = (Ok {| valid := false; issues := [IssueException msg] |}, w)
    /\ IssueNoMetadata ∉ [IssueException msg].
Proof.
  intros Hfile Hmd Hcase.
  rewrite (validateBackup_document _ _ _ Hfile).
  assert (exists e, validate_document doc = Throw e) as [e ->].
  { unfold validate_document, rbind. rewrite Hmd.
    destruct doc; try done; destruct Hcase as [-> | ->]; simpl; eauto. }
  eexists; split; [done|]. rewrite list_elem_of_singleton. done.
Qed.
End Validator.

(** ** The builder and the retention cleanup, step by step *)

Lemma log_run {S} `{!Store S} (level category message : string) (w : World S) :
  log level category message w
  = (Ok tt, append_logs [{| log_level := level; log_category := category;
                            log_message := message |}] w).
Proof. done. Qed.

(** Reads a world written by a call of the log service as [append_logs]. *)
Ltac fold_logs :=
  rewrite ?log_run;
  repeat match goal with
         | |- context [add_log ?l (set_db ?db ?w)] =>
             change (add_log l (set_db db w)) with (append_logs [l] w)
         end.

Section Runs.
Context {S : Type} `{!Store S} `{!Runtime}.
Implicit Types (w : World S) (cfg : Config).

(** *** The log and the store *)

Lemma logged_all_app (config : LogService.LogConfig) (db : S)
    (ls ls' : list LogEntry) :
  logged_all config (logged_all config db ls) ls' = logged_all config db (ls ++ ls').
Proof. unfold logged_all. by rewrite foldl_app. Qed.


(** A property of the store that the inserts of the log service keep
    holds on after any number of log lines. *)
Lemma logged_all_invariant (P : S -> Prop) (config : LogService.LogConfig) (db : S)
    (ls : list LogEntry) :
  (forall db row, P db -> P (store_insert db "system_logs" row).1) ->
  P db -> P (logged_all config db ls).
Proof.
  intros Hins. revert db. induction ls as [|l ls IH]; intros db Hdb; [done|].
  apply IH. unfold logged. destruct (_ && _); [by apply Hins | done].
Qed.

Lemma answered_between_logs_later (config : LogService.LogConfig) (db : S)
    (ls : list LogEntry) (answer : string * SelectResult) :
  answered_between_logs config (logged_all config db ls) answer ->
  answered_between_logs config db answer.
Proof. intros [entries Hr]. exists (ls ++ entries). by rewrite <- logged_all_app. Qed.


(** Two worlds written with the forms above are the same when their fields
    are, up to the grouping of what was appended. *)
Lemma world_eta w :
  w = mkWorld (w_db w) (w_files w) (w_unwritable w) (w_undeletable w) (w_clock w)
        (w_tick w) (w_trace w) (w_log w) (w_logging w) (w_answers w).
Proof. by destruct w. Qed.

Ltac same_world :=
  unfold ret, throw; cbv beta iota;
  match goal with
  | |- (_, ?X) = _ => rewrite (world_eta X)
  end;
  etransitivity;
  [simpl; rewrite ?logged_all_app; rewrite <- ?app_assoc; simpl; reflexivity
  |reflexivity].

Lemma append_logs_nil w : append_logs [] w = w.
Proof. destruct w. unfold append_logs; simpl. by rewrite app_nil_r. Qed.

Lemma append_logs_app (ls ls' : list LogEntry) w :
  append_logs ls' (append_logs ls w) = append_logs (ls ++ ls') w.
Proof. unfold append_logs; simpl. by rewrite logged_all_app, app_assoc. Qed.

Lemma add_log_is_append (l : LogEntry) w :
  add_log l (set_db (logged (w_logging w) (w_db w) l) w) = append_logs [l] w.
Proof. done. Qed.

Lemma after_exports_nil (ls : list LogEntry) w :
  after_exports [] ls w = append_logs ls w.
Proof. unfold after_exports, append_logs. by rewrite app_nil_r. Qed.

Lemma after_exports_app (answers answers' : list (string * SelectResult))
    (ls ls' : list LogEntry) w :
  after_exports answers' ls' (after_exports answers ls w)
  = after_exports (answers ++ answers') (ls ++ ls') w.
Proof. unfold after_exports; simpl. by rewrite logged_all_app, !app_assoc. Qed.

Lemma export_table_run (bd : BackupData) (table : string) w :
  exists (r : SelectResult) (ls : list LogEntry),
    export_table bd table w
    = (Ok (export_answer bd (table, r)), after_exports [(table, r)] ls w)
    /\ answered_between_logs (w_logging w) (w_db w) (table, r).
Proof.
  unfold export_table, bind. rewrite log_run. unfold select. cbn [w_db append_logs].
  match goal with
  | |- context [store_select ?db table] => exists (store_select db table)
  end.
  unfold export_answer, ret. cbn [fst snd].
  destruct (sel_error _); rewrite log_run; eexists [_; _];
    (split; [f_equal; unfold add_answer, append_logs, after_exports; cbn;
             rewrite <- app_assoc; reflexivity
            |eexists [_]; reflexivity]).
Qed.

Lemma export_loop_run (tableSet : list string) (bd : BackupData) w :
  exists (answers : list (string * SelectResult)) (ls : list LogEntry),
    for_of tableSet export_table bd w
    = (Ok (foldl export_answer bd answers), after_exports answers ls w)
    /\ answers.*1 = tableSet
    /\ Forall (answered_between_logs (w_logging w) (w_db w)) answers.
Proof.
  revert bd w. induction tableSet as [|table rest IH]; intros bd w; simpl.
  - exists [], []. rewrite after_exports_nil, append_logs_nil. done.
  - unfold bind. destruct (export_table_run bd table w) as (r & ls & -> & Hr).
    destruct (IH (export_answer bd (table, r)) (after_exports [(table, r)] ls w))
      as (answers & ls' & -> & Hnames & Hall).
    rewrite after_exports_app. exists ((table, r) :: answers), (ls ++ ls').
    split; [done|]. split; [by rewrite <- Hnames|].
    constructor; [done|].
    eapply Forall_impl; [exact Hall|]. intros a. apply answered_between_logs_later.
Qed.

(** *** What the export loop leaves in the snapshot *)

Lemma export_answer_fixed (bd : BackupData) (answer : string * SelectResult) :
  let bd' := export_answer bd answer in
  timestamp (metadata bd') = timestamp (metadata bd)
  /\ version (metadata bd') = version (metadata bd)
  /\ tables (metadata bd') = tables (metadata bd)
  /\ description (metadata bd') = description (metadata bd).
Proof. unfold export_answer. by destruct (sel_error _). Qed.

Lemma export_fold_fixed (answers : list (string * SelectResult)) (bd : BackupData) :
  let bd' := foldl export_answer bd answers in
  timestamp (metadata bd') = timestamp (metadata bd)
  /\ version (metadata bd') = version (metadata bd)
  /\ tables (metadata bd') = tables (metadata bd)
  /\ description (metadata bd') = description (metadata bd).
Proof.
  revert bd. induction answers as [|a rest IH]; intros bd; simpl; [done|].
  destruct (IH (export_answer bd a)) as (-> & -> & -> & ->).
  apply export_answer_fixed.
Qed.

(** The entries of a table are changed by the answers to its own selects
    only, and by those only that carry no error. *)
Lemma export_fold_skipped (answers : list (string * SelectResult)) (bd : BackupData)
    (table : string) :
  (forall r, (table, r) ∈ answers -> sel_error r ≠ None) ->
  let bd' := foldl export_answer bd answers in
  obj_get table (data bd') = obj_get table (data bd)
  /\ obj_get table (recordCount (metadata bd')) = obj_get table (recordCount (metadata bd))
  /\ obj_get table (checksums (metadata bd')) = obj_get table (checksums (metadata bd)).
Proof.
  revert bd.
  induction answers as [|[t r] rest IH]; intros bd Herr; simpl; [done|].
  destruct (IH (export_answer bd (t, r))) as (-> & -> & ->).
  { intros r' Hin. apply Herr. by apply list_elem_of_further. }
  unfold export_answer. cbn [fst snd].
  destruct (sel_error r) eqn:Hr; [done|].
  assert (t ≠ table).
  { intros ->. by apply (Herr r); [apply list_elem_of_here|]. }
  simpl. by rewrite !obj_get_set_ne.
Qed.

Lemma answers_unique (answers : list (string * SelectResult)) (table : string)
    (r r' : SelectResult) :
  NoDup answers.*1 -> (table, r) ∈ answers -> (table, r') ∈ answers -> r = r'.
Proof.
  induction answers as [|[t x] rest IH]; simpl; intros Hnodup Hr Hr'.
  - by apply elem_of_nil in Hr.
  - apply NoDup_cons in Hnodup as [Hfresh Hnodup].
    apply elem_of_cons in Hr as [Heq|Hr];
      apply elem_of_cons in Hr' as [Heq'|Hr']; simplify_eq; try done.
    + destruct Hfresh. apply list_elem_of_fmap. by exists (t, r').
    + destruct Hfresh. apply list_elem_of_fmap. by exists (t, r).
    + by apply IH.
Qed.

Lemma export_fold_exported (answers : list (string * SelectResult)) (bd : BackupData)
    (table : string) (r : SelectResult) :
  NoDup answers.*1 ->
  (table, r) ∈ answers ->
  sel_error r = None ->
  let rows := sel_data r in
  let bd' := foldl export_answer bd answers in
  obj_get table (data bd') = Some (JArr (default [] rows))
  /\ obj_get table (recordCount (metadata bd')) = Some (length (default [] rows))
  /\ obj_get table (checksums (metadata bd'))
     = Some (sha256_hex (JSON_stringify (from_option JArr JNull rows))).
Proof.
  intros Hnodup Hin Hok. revert bd.
  induction answers as [|[t x] rest IH]; intros bd; simpl;
    [by apply elem_of_nil in Hin|].
  simpl in Hnodup. apply NoDup_cons in Hnodup as [Hfresh Hnodup].
  apply elem_of_cons in Hin as [Heq|Hin]; [injection Heq as <- <-|by apply IH].
  destruct (export_fold_skipped rest (export_answer bd (table, r)) table)
    as (-> & -> & ->).
  { intros r' Hr'. destruct Hfresh. apply list_elem_of_fmap. by exists (table, r'). }
  unfold export_answer. cbn [fst snd]. rewrite Hok. simpl.
  by rewrite !obj_get_set_eq.
Qed.

(** *** The listing *)

Lemma strip_prefix_app (pre s rest : string) :
  strip_prefix pre s = Some rest -> s = pre +:+ rest.
Proof.
  revert s. induction pre as [|a pre IH]; intros s; simpl.
  - by intros [= ->].
  - destruct s as [|b s]; [done|].
    destruct (Ascii.eqb a b) eqn:Hab; [|done].
    apply Ascii.eqb_eq in Hab as ->. intros Hrest. by rewrite (IH _ Hrest).
Qed.

Lemma string_app_assoc (a b c : string) : (a +:+ b) +:+ c = a +:+ b +:+ c.
Proof.
  induction a as [|x a IH]; [done|].
  change (String x ((a +:+ b) +:+ c) = String x (a +:+ b +:+ c)). by rewrite IH.
Qed.

Lemma entry_name_path (dir path name : string) :
  entry_name dir path = Some name -> path = path_join dir name.
Proof.
  unfold entry_name, path_join.
  destruct (strip_prefix (dir +:+ "/") path) as [n|] eqn:Hpre; [|done].
  destruct (has_slash n); [done|]. intros [= <-].
  apply strip_prefix_app in Hpre as ->. apply string_app_assoc.
Qed.

Lemma read_entry_run cfg (result : list BackupEntry) (name : string) w :
  ends_with ".json" name = true ->
  exists ls, read_entry cfg result name w
             = (Ok (result ++ option_list (entry_of cfg (w_files w) name)),
                append_logs ls w).
Proof.
  intros Hjson. unfold read_entry, entry_of, try_catch, bind, readFile, lift, ret.
  rewrite Hjson.
  destruct (obj_get (path_join (backupDirectory cfg) name) (w_files w))
    as [[doc|text]|]; simpl; [destruct (prop (Some doc) "metadata")|..]; simpl.
  - exists []. by rewrite append_logs_nil.
  - rewrite add_log_is_append, app_nil_r. eauto.
  - rewrite add_log_is_append, app_nil_r. eauto.
  - rewrite add_log_is_append, app_nil_r. eauto.
Qed.

Lemma read_loop_run cfg (names : list string) (result : list BackupEntry) w :
  Forall (fun name => ends_with ".json" name = true) names ->
  exists ls, for_of names (read_entry cfg) result w
             = (Ok (result ++ omap (entry_of cfg (w_files w)) names), append_logs ls w).
Proof.
  intros Hall. revert result w.
  induction Hall as [|name rest Hname Hrest IH]; intros result w; simpl.
  - exists []. by rewrite append_logs_nil, app_nil_r.
  - unfold bind. destruct (read_entry_run cfg result name w Hname) as [ls ->].
    destruct (IH (result ++ option_list (entry_of cfg (w_files w) name))
                (append_logs ls w)) as [ls' ->].
    rewrite append_logs_app. simpl. exists (ls ++ ls'). f_equal. f_equal.
    rewrite <- app_assoc. f_equal.
    by destruct (entry_of cfg (w_files w) name).
Qed.

Lemma omap_entry_of_filter cfg (files : list (string * FileContent))
    (names : list string) :
  omap (entry_of cfg files) (List.filter (ends_with ".json") names)
  = omap (entry_of cfg files) names.
Proof.
  induction names as [|name rest IH]; [done|].
  cbn [List.filter]. destruct (ends_with ".json" name) eqn:Hjson.
  - cbn [omap list_omap]. by rewrite IH.
  - cbn [omap list_omap]. rewrite IH.
    unfold entry_of at 2. by rewrite Hjson.
Qed.

Lemma filter_Forall {A} (p : A -> bool) (l : list A) :
  Forall (fun x => p x = true) (List.filter p l).
Proof.
  induction l as [|x l IH]; simpl; [constructor|].
  destruct (p x) eqn:Hp; [by constructor | done].
Qed.

(** [listAvailableBackups] never throws, changes nothing but the log (and
    the store by what the log inserts), and returns the [listing] of the
    files. *)
Lemma listAvailableBackups_run cfg w :
  exists ls, listAvailableBackups cfg w
             = (Ok (listing cfg (w_files w)), append_logs ls w).
Proof.
  unfold listAvailableBackups, try_catch, bind, ensureBackupDirectoryExists,
    readdir, ret, lift, listing, entries_of. simpl.
  destruct (read_loop_run cfg
              (List.filter (ends_with ".json")
                 (omap (fun f => entry_name (backupDirectory cfg) f.1) (w_files w)))
              [] w (filter_Forall _ _)) as [ls ->].
  simpl. rewrite omap_entry_of_filter.
  destruct (array_sort newest_first _); simpl.
  - eauto.
  - fold_logs. rewrite append_logs_app. eauto.
Qed.

(** *** The cleanup *)

Lemma after_unlinks_nil (ls : list LogEntry) w :
  after_unlinks [] ls w = append_logs ls w.
Proof. unfold after_unlinks, append_logs; simpl. by rewrite app_nil_r. Qed.

Lemma after_unlinks_app (d d' : list string) (ls ls' : list LogEntry) w :
  after_unlinks d' ls' (after_unlinks d ls w) = after_unlinks (d ++ d') (ls ++ ls') w.
Proof.
  unfold after_unlinks, remove_all; simpl.
  by rewrite logged_all_app, foldl_app, fmap_app, !app_assoc.
Qed.

Lemma obj_get_remove_all_None (paths : list string) (path : string)
    (files : list (string * FileContent)) :
  obj_get path files = None -> obj_get path (remove_all paths files) = None.
Proof.
  revert files. induction paths as [|p rest IH]; intros files Hnone; simpl; [done|].
  apply IH. destruct (decide (p = path)) as [->|Hne].
  - apply obj_get_remove_eq.
  - by rewrite obj_get_remove_ne.
Qed.

Lemma obj_get_remove_all_Some (paths : list string) (path : string)
    (files : list (string * FileContent)) (c : FileContent) :
  obj_get path (remove_all paths files) = Some c ->
  obj_get path files = Some c /\ path ∉ paths.
Proof.
  revert files. induction paths as [|p rest IH]; intros files Hsome; simpl in *.
  - split; [done | apply not_elem_of_nil].
  - apply IH in Hsome as [Hsome Hnot].
    destruct (decide (p = path)) as [->|Hne].
    + by rewrite obj_get_remove_eq in Hsome.
    + rewrite obj_get_remove_ne in Hsome by done.
      split; [done|]. rewrite not_elem_of_cons. split; [congruence | done].
Qed.

Lemma obj_get_remove_all_notin (paths : list string) (path : string)
    (files : list (string * FileContent)) :
  path ∉ paths -> obj_get path (remove_all paths files) = obj_get path files.
Proof.
  revert files. induction paths as [|p rest IH]; intros files Hnot; simpl; [done|].
  apply not_elem_of_cons in Hnot as [Hne Hnot].
  rewrite IH by done. by rewrite obj_get_remove_ne.
Qed.

Lemma delete_backup_run (b : BackupEntry) w :
  exists deleted ls,
    delete_backup tt b w = (Ok tt, after_unlinks deleted ls w)
    /\ (deleted = [entry_path b] /\ is_Some (obj_get (entry_path b) (w_files w))
          /\ entry_path b ∉ w_undeletable w
        \/ deleted = [] /\ (obj_get (entry_path b) (w_files w) = None
                             \/ entry_path b ∈ w_undeletable w)).
Proof.
  unfold delete_backup, try_catch, bind, unlink.
  destruct (obj_get (entry_path b) (w_files w)) as [c|] eqn:Hfile; simpl.
  - destruct (decide (entry_path b ∈ w_undeletable w)); simpl.
    + fold_logs. exists []. eexists. rewrite after_unlinks_nil.
      split; [reflexivity|]. right. eauto.
    + fold_logs. exists [entry_path b]. eexists. split; [reflexivity|].
      left. eauto.
  - fold_logs. exists []. eexists. rewrite after_unlinks_nil.
    split; [reflexivity|]. right. eauto.
Qed.

Lemma delete_loop_run (bs : list BackupEntry) w :
  exists deleted ls,
    for_of bs delete_backup tt w = (Ok tt, after_unlinks deleted ls w)
    /\ deleted ⊆ entry_path <$> bs
    /\ (forall p, p ∈ deleted -> is_Some (obj_get p (w_files w)) /\ p ∉ w_undeletable w)
    /\ (forall b, b ∈ bs ->
          entry_path b ∈ deleted \/ entry_path b ∈ w_undeletable w
          \/ obj_get (entry_path b) (w_files w) = None).
Proof.
  revert w. induction bs as [|b rest IH]; intros w; simpl.
  - exists [], []. rewrite after_unlinks_nil, append_logs_nil.
    split; [done|]. split; [done|]. split; intros ? Hin; by apply elem_of_nil in Hin.
  - unfold bind. destruct (delete_backup_run b w) as (d & ls & -> & Hd).
    destruct (IH (after_unlinks d ls w)) as (d' & ls' & -> & Hsub & Hok & Hall).
    rewrite after_unlinks_app. exists (d ++ d'), (ls ++ ls').
    split; [done|]. simpl in Hok, Hall. split; [|split].
    + intros p [Hp|Hp]%elem_of_app.
      * destruct Hd as [(-> & _)|(-> & _)]; [|by apply elem_of_nil in Hp].
        apply list_elem_of_singleton in Hp as ->. apply list_elem_of_here.
      * apply list_elem_of_further. by apply Hsub.
    + intros p [Hp|Hp]%elem_of_app.
      * destruct Hd as [(-> & Hsome & Hnot)|(-> & _)]; [|by apply elem_of_nil in Hp].
        by apply list_elem_of_singleton in Hp as ->.
      * destruct (Hok p Hp) as [[c Hc] Hnot]. split; [|done].
        apply obj_get_remove_all_Some in Hc as [Hc _]. eauto.
    + intros b' [->|Hb']%elem_of_cons.
      * destruct Hd as [(-> & _)|(-> & Hwhy)].
        -- left. apply elem_of_app. left. apply list_elem_of_here.
        -- right. destruct Hwhy; eauto.
      * destruct (Hall b' Hb') as [Hin|[Hund|Hgone]].
        -- left. apply elem_of_app. by right.
        -- right. by left.
        -- destruct (decide (entry_path b' ∈ d)) as [Hd'|Hd'].
           ++ left. apply elem_of_app. by left.
           ++ right. right. by rewrite obj_get_remove_all_notin in Hgone.
Qed.

(** [cleanupOldBackups] never throws; it unlinks entries it set out to
    delete, and each of them unless the file system refuses or the file is
    no longer there. *)
Lemma cleanupOldBackups_run cfg w :
  exists deleted ls,
    cleanupOldBackups cfg w = (Ok tt, after_unlinks deleted ls w)
    /\ deleted ⊆ entry_path <$> to_delete cfg (w_files w)
    /\ (forall p, p ∈ deleted -> is_Some (obj_get p (w_files w)) /\ p ∉ w_undeletable w)
    /\ (forall b, b ∈ to_delete cfg (w_files w) ->
          entry_path b ∈ deleted \/ entry_path b ∈ w_undeletable w
          \/ obj_get (entry_path b) (w_files w) = None).
Proof.
  unfold cleanupOldBackups, try_catch, bind, to_delete.
  destruct (listAvailableBackups_run cfg w) as [ls ->].
  destruct (_ <? _)%Z.
  - destruct (delete_loop_run (array_slice (maxBackupCount cfg) (listing cfg (w_files w)))
                (append_logs ls w)) as (d & ls' & -> & Hsub & Hok & Hall).
    exists d, (ls ++ ls'). split; [|done].
    by rewrite <- after_unlinks_nil, after_unlinks_app.
  - exists [], ls. unfold ret. rewrite after_unlinks_nil.
    split; [done|]. split; [done|]. split; intros ? Hin; by apply elem_of_nil in Hin.
Qed.

(** *** The builder *)

Lemma createBackupOf_run (tableSet : list string) (prefix label : string)
    (prune : bool) cfg (description : option string) w :
  let now := w_clock w (w_tick w) in
  let path := backup_path cfg prefix now in
  path ∉ w_unwritable w ->
  exists (answers : list (string * SelectResult)) (deleted : list string)
         (ls : list LogEntry),
    let content :=
      Doc (backup_to_json (snapshot_from answers tableSet cfg description now)) in
    createBackupOf tableSet prefix label prune cfg description w
    = (Ok path, after_backup path content answers deleted ls w)
    /\ answers.*1 = tableSet
    /\ Forall (answered_between_logs (w_logging w) (w_db w)) answers
    /\ (prune = false -> deleted = [])
    /\ deleted ⊆ entry_path <$> to_delete cfg (obj_set path content (w_files w))
    /\ (forall p, p ∈ deleted ->
          is_Some (obj_get p (obj_set path content (w_files w)))
          /\ p ∉ w_undeletable w)
    /\ (prune = true ->
        forall b, b ∈ to_delete cfg (obj_set path content (w_files w)) ->
          entry_path b ∈ deleted \/ entry_path b ∈ w_undeletable w
          \/ obj_get (entry_path b) (obj_set path content (w_files w)) = None).
Proof.
  intros now path Hwritable.
  unfold createBackupOf, try_catch, bind. rewrite log_run. unfold now_iso.
  cbn [w_clock w_tick append_logs].
  fold now. fold (empty_snapshot tableSet cfg description now).
  match goal with
  | |- context [for_of tableSet export_table ?bd ?w0] =>
      destruct (export_loop_run tableSet bd w0) as (answers & ls & -> & Hnames & Hall)
  end.
  fold (snapshot_from answers tableSet cfg description now).
  exists answers.
  unfold writeFile. cbn [w_unwritable after_exports set_tick append_logs].
  fold (backup_path cfg prefix now). fold path.
  rewrite decide_False by done.
  assert (Forall (answered_between_logs (w_logging w) (w_db w)) answers) as Hall'.
  { eapply Forall_impl; [exact Hall|]. intros a Ha.
    eapply answered_between_logs_later. exact Ha. }
  destruct prune.
  - match goal with
    | |- context [cleanupOldBackups cfg ?w0] =>
        destruct (cleanupOldBackups_run cfg w0) as (d & ls' & -> & Hsub & Hok & Hdone)
    end.
    cbn [w_files w_undeletable after_exports set_tick append_logs emit set_files]
      in Hsub, Hok, Hdone.
    rewrite log_run. exists d. eexists.
    split; [|split; [exact Hnames|split; [exact Hall'|split; [done|
             split; [exact Hsub|split; [exact Hok|intros _; exact Hdone]]]]]].
    same_world.
  - cbn [ret]. rewrite log_run. exists []. eexists. split.
    + same_world.
    + split; [exact Hnames|]. split; [exact Hall'|]. split; [done|].
      split; [intros ? Hin; by apply elem_of_nil in Hin|].
      split; [intros ? Hin; by apply elem_of_nil in Hin|done].
Qed.

Lemma createBackupOf_refused (tableSet : list string) (prefix label : string)
    (prune : bool) cfg (description : option string) w :
  let path := backup_path cfg prefix (w_clock w (w_tick w)) in
  path ∈ w_unwritable w ->
  exists (answers : list (string * SelectResult)) (ls : list LogEntry),
    createBackupOf tableSet prefix label prune cfg description w
    = (Throw (SystemError "EACCES" path), after_clock answers ls w)
    /\ answers.*1 = tableSet.
Proof.
  intros path Hrefused.
  unfold createBackupOf, try_catch, bind. rewrite log_run. unfold now_iso.
  cbn [w_clock w_tick append_logs].
  match goal with
  | |- context [for_of tableSet export_table ?bd ?w0] =>
      destruct (export_loop_run tableSet bd w0) as (answers & ls & -> & Hnames & _)
  end.
  unfold writeFile. cbn [w_unwritable after_exports set_tick append_logs].
  fold (backup_path cfg prefix (w_clock w (w_tick w))).
  fold path. rewrite decide_True by done. rewrite log_run.
  exists answers. eexists. split; [|done]. same_world.
Qed.
End Runs.

(** ** The timestamp of a snapshot *)

Lemma digit_kept (n : nat) :
  Ascii.eqb (digit n) "." = false
  /\ Ascii.eqb (digit n) ":" = false
  /\ line_terminator (digit n) = false.
Proof.
  unfold digit. assert (n mod 10 < 10) as Hlt by (apply Nat.mod_upper_bound; lia).
  destruct (n mod 10) as [|[|[|[|[|[|[|[|[|[|k]]]]]]]]]];
    try (repeat split; reflexivity).
  lia.
Qed.

(** The timestamp is the clock reading to the second, with dashes for the
    colons. *)
Lemma backup_timestamp_spelled (d : DateTime) :
  backup_timestamp d
  = pad4 (dt_year d) +:+ "-" +:+ pad2 (dt_month d) +:+ "-" +:+ pad2 (dt_day d)
    +:+ "T" +:+ pad2 (dt_hour d) +:+ "-" +:+ pad2 (dt_minute d) +:+ "-"
    +:+ pad2 (dt_second d).
Proof.
  unfold backup_timestamp, toISOString, pad4, pad3, pad2.
  repeat match goal with
         | |- context [digit ?n] =>
             let H := fresh "H" in
             pose proof (digit_kept n) as H;
             generalize dependent (digit n); intros ? (? & ? & ?)
         end.
  cbv [String.append replace_colons].
  repeat match goal with
         | H : Ascii.eqb ?c ":" = false |- _ => rewrite !H; clear H
         end.
  change (Ascii.eqb "-" ":") with false. change (Ascii.eqb "T" ":") with false.
  change (Ascii.eqb ":" ":") with true. change (Ascii.eqb "." ":") with false.
  change (Ascii.eqb "Z" ":") with false. cbv iota.
  cbv [strip_fraction].
  repeat match goal with
         | H : Ascii.eqb ?c "." = false |- _ => rewrite !H; clear H
         end.
  change (Ascii.eqb "-" ".") with false. change (Ascii.eqb "T" ".") with false.
  change (Ascii.eqb "." ".") with true. cbv [andb]; cbv iota.
  repeat match goal with
         | H : line_terminator ?c = false |- context [line_terminator ?c] => rewrite H
         end.
  cbv [negb after_line]; cbv iota.
  repeat match goal with
         | H : line_terminator ?c = false |- context [line_terminator ?c] => rewrite H
         end.
  reflexivity.
Qed.

Lemma digit_no_slash (n : nat) : Ascii.eqb (digit n) "/" = false.
Proof.
  unfold digit. assert (n mod 10 < 10) as Hlt by (apply Nat.mod_upper_bound; lia).
  destruct (n mod 10) as [|[|[|[|[|[|[|[|[|[|k]]]]]]]]]]; try reflexivity.
  lia.
Qed.

Lemma backup_timestamp_no_slash (d : DateTime) : has_slash (backup_timestamp d) = false.
Proof.
  rewrite backup_timestamp_spelled. unfold pad4, pad3, pad2.
  cbv [String.append has_slash]. rewrite !digit_no_slash. reflexivity.
Qed.

(** The timestamp of a snapshot is never the empty string. *)
Lemma backup_timestamp_truthy (d : DateTime) :
  truthy (Some (JStr (backup_timestamp d))) = true.
Proof. rewrite backup_timestamp_spelled. reflexivity. Qed.

(** ** The snapshot builder *)

Section Builder.
Context {S : Type} `{!Store S} `{!Runtime}.
Implicit Types (w : World S) (cfg : Config).


Lemma CRITICAL_TABLES_NoDup : NoDup CRITICAL_TABLES.
Proof. apply (bool_decide_unpack _). vm_compute. reflexivity. Qed.

(** What the snapshot holds for a table after the export loop, when every
    table is selected once. *)
Lemma snapshot_from_entries (answers : list (string * SelectResult))
    (tableSet : list string) cfg (description : option string) (now : DateTime)
    (table : string) (r : SelectResult) :
  NoDup answers.*1 ->
  (table, r) ∈ answers ->
  let snapshot := snapshot_from answers tableSet cfg description now in
  match sel_error r with
  | Some _ =>
      obj_get table (data snapshot) = None
      /\ obj_get table (recordCount (metadata snapshot)) = None
      /\ obj_get table (checksums (metadata snapshot)) = None
  | None =>
      let rows := sel_data r in
      obj_get table (data snapshot) = Some (JArr (default [] rows))
      /\ obj_get table (recordCount (metadata snapshot))
         = Some (length (default [] rows))
      /\ obj_get table (checksums (metadata snapshot))
         = Some (sha256_hex (JSON_stringify (from_option JArr JNull rows)))
  end.
Proof.
  intros Hnodup Hin snapshot. subst snapshot. unfold snapshot_from.
  destruct (sel_error r) eqn:Herr.
  - destruct (export_fold_skipped answers (empty_snapshot tableSet cfg description now)
                table) as (-> & -> & ->); [|done].
    intros r' Hr'. rewrite <- (answers_unique answers table r r' Hnodup Hin Hr').
    by rewrite Herr.
  - by apply export_fold_exported.
Qed.


(** *** Validating what the builder wrote *)

Lemma prop_snapshot_metadata (bd : BackupData) :
  prop (Some (backup_to_json bd)) "metadata"
  = Ok (Some (metadata_to_json (metadata bd))).
Proof. reflexivity. Qed.

Lemma prop_snapshot_data (bd : BackupData) :
  prop (Some (backup_to_json bd)) "data" = Ok (Some (JObj (data bd))).
Proof. reflexivity. Qed.

Lemma prop_metadata_fields (m : BackupMetadata) :
  prop (Some (metadata_to_json m)) "timestamp" = Ok (Some (JStr (timestamp m)))
  /\ prop (Some (metadata_to_json m)) "version" = Ok (Some (JStr (version m)))
  /\ prop (Some (metadata_to_json m)) "tables" = Ok (Some (JArr (JStr <$> tables m)))
  /\ prop (Some (metadata_to_json m)) "recordCount"
     = Ok (Some (JObj (prod_map id (fun n => JNum (Z.of_nat n)) <$> recordCount m)))
  /\ prop (Some (metadata_to_json m)) "checksums"
     = Ok (Some (JObj (prod_map id JStr <$> checksums m))).
Proof. repeat split; reflexivity. Qed.

Lemma check_table_snapshot (bd : BackupData) (table : string) (rows : list json)
    (found : list Issue) :
  obj_get table (data bd) = Some (JArr rows) ->
  obj_get table (recordCount (metadata bd)) = Some (length rows) ->
  obj_get table (checksums (metadata bd)) = Some (checksum_of (JArr rows)) ->
  check_table (backup_to_json bd) (Some (metadata_to_json (metadata bd))) found
    (JStr table) = Ok found.
Proof.
  intros Hdata Hcount Hsum. unfold check_table.
  destruct (prop_metadata_fields (metadata bd)) as (_ & _ & _ & Hrc & Hcs).
  rewrite prop_snapshot_data, Hrc, Hcs. simpl.
  unfold prop, property; simpl. rewrite Hdata. simpl.
  rewrite !obj_get_fmap, Hcount, Hsum. simpl.
  rewrite Z.eqb_refl.
  destruct (negb _); [|done]. by rewrite String.eqb_refl.
Qed.

Lemma check_tables_snapshot (bd : BackupData) (names : list string)
    (found : list Issue) :
  (forall table, table ∈ names ->
     exists rows,
       obj_get table (data bd) = Some (JArr rows)
       /\ obj_get table (recordCount (metadata bd)) = Some (length rows)
       /\ obj_get table (checksums (metadata bd)) = Some (checksum_of (JArr rows))) ->
  check_tables (backup_to_json bd) (Some (metadata_to_json (metadata bd))) found
    (JStr <$> names) = Ok found.
Proof.
  induction names as [|table rest IH]; intros Hall; simpl; [done|].
  destruct (Hall table) as (rows & Hd & Hc & Hs); [apply list_elem_of_here|].
  rewrite (check_table_snapshot bd table rows found Hd Hc Hs). simpl.
  apply IH. intros t Ht. apply Hall. by apply list_elem_of_further.
Qed.

(** A snapshot in which every table was selected once and every select
    gave rows passes the checks of the validator, provided there is a table
    and the configured version is not the empty string. *)
Lemma validate_document_snapshot (answers : list (string * SelectResult))
    (tableSet : list string) cfg (description : option string) (now : DateTime) :
  tableSet <> [] ->
  cfg_version cfg <> EmptyString ->
  answers.*1 = tableSet ->
  NoDup tableSet ->
  (forall table r, (table, r) ∈ answers ->
     sel_error r = None /\ is_Some (sel_data r)) ->
  validate_document (backup_to_json (snapshot_from answers tableSet cfg description now))
  = Ok [].
Proof.
  intros Hnonempty Hversion Hnames Hnodup Hexports.
  pose proof (export_fold_fixed answers (empty_snapshot tableSet cfg description now))
    as Hfixed.
  fold (snapshot_from answers tableSet cfg description now) in Hfixed.
  cbv zeta in Hfixed. cbn [empty_snapshot metadata timestamp version tables] in Hfixed.
  destruct Hfixed as (Hts & Hver & Htables & _).
  set (bd := snapshot_from answers tableSet cfg description now) in *.
  destruct (prop_metadata_fields (metadata bd)) as (Ht & Hv & Htb & _ & _).
  rewrite Hts in Ht. rewrite Hver in Hv. rewrite Htables in Htb.
  eapply validate_document_clean;
    [apply prop_snapshot_metadata | reflexivity
    |apply prop_snapshot_data | reflexivity
    |exact Ht | apply backup_timestamp_truthy
    |exact Hv | | exact Htb | | ].
  - cbn [truthy]. by apply negb_true_iff, String.eqb_neq.
  - by destruct tableSet.
  - apply check_tables_snapshot.
    intros table Hin. rewrite <- Hnames in Hin.
    apply list_elem_of_fmap in Hin as ([t r] & -> & Hin). cbn [fst].
    destruct (Hexports t r Hin) as [Hok [rows Hrows]].
    exists rows.
    pose proof (snapshot_from_entries answers tableSet cfg description now t r) as Hexp.
    cbv zeta in Hexp. rewrite Hok, Hrows in Hexp. apply Hexp; [|done].
    by rewrite Hnames.
Qed.
End Builder.

(** ** The full backup and its own retention cleanup *)

Lemma obj_set_new {A} (key : string) (v : A) (fields : list (string * A)) :
  obj_get key fields = None -> obj_set key v fields = fields ++ [(key, v)].
Proof.
  induction fields as [|[k x] rest IH]; simpl; [done|].
  destruct (decide (k = key)); [done|]. intros Hnone. by rewrite IH.
Qed.

Lemma obj_get_app_Some {A} (key : string) (v : A) (fields more : list (string * A)) :
  obj_get key fields = Some v -> obj_get key (fields ++ more) = Some v.
Proof.
  induction fields as [|[k x] rest IH]; simpl; [done|].
  destruct (decide (k = key)); [done | apply IH].
Qed.

Lemma obj_get_key {A} (key : string) (v : A) (fields : list (string * A)) :
  (key, v) ∈ fields -> is_Some (obj_get key fields).
Proof.
  induction fields as [|[k x] rest IH]; simpl; [by intros ?%elem_of_nil|].
  destruct (decide (k = key)); [eauto|].
  intros [Heq|Hin]%elem_of_cons; [congruence | by apply IH].
Qed.

Lemma strip_prefix_self (pre s : string) : strip_prefix pre (pre +:+ s) = Some s.
Proof.
  induction pre as [|a pre IH]; [by destruct s|].
  change (strip_prefix (String a pre) (String a (pre +:+ s)) = Some s).
  simpl. by rewrite Ascii.eqb_refl.
Qed.

Lemma has_slash_app (a b : string) : has_slash (a +:+ b) = has_slash a || has_slash b.
Proof.
  induction a as [|x a IH]; [done|].
  change (has_slash (String x (a +:+ b)) = has_slash (String x a) || has_slash b).
  simpl. by rewrite IH, orb_assoc.
Qed.

Lemma entry_name_join (dir name : string) :
  has_slash name = false -> entry_name dir (path_join dir name) = Some name.
Proof.
  intros Hname. unfold entry_name, path_join.
  rewrite <- string_app_assoc, strip_prefix_self. by rewrite Hname.
Qed.

Lemma rev_app_app (a b acc : string) :
  String.rev_app (a +:+ b) acc = String.rev_app b (String.rev_app a acc).
Proof.
  revert acc. induction a as [|x a IH]; intros acc; [done|].
  change (String.rev_app (String x (a +:+ b)) acc
          = String.rev_app b (String.rev_app (String x a) acc)).
  simpl. apply IH.
Qed.

Lemma ends_with_json (a : string) : ends_with ".json" (a +:+ ".json") = true.
Proof.
  unfold ends_with, String.rev. rewrite rev_app_app. simpl.
  by destruct (String.rev_app a EmptyString).
Qed.

(** The name under which the backup directory lists what the builder
    writes. *)
Lemma backup_path_listed cfg (prefix : string) (now : DateTime) :
  has_slash prefix = false ->
  let name := prefix +:+ backup_timestamp now +:+ ".json" in
  backup_path cfg prefix now = path_join (backupDirectory cfg) name
  /\ has_slash name = false
  /\ ends_with ".json" name = true.
Proof.
  intros Hprefix name. split; [done|]. split.
  - subst name. by rewrite !has_slash_app, Hprefix, backup_timestamp_no_slash.
  - subst name. rewrite <- string_app_assoc. apply ends_with_json.
Qed.

Lemma array_sort_unordered {A} (cmp : A -> A -> Result (option Z)) (l : list A) :
  (forall a b, a ∈ l -> b ∈ l -> cmp a b = Ok None) ->
  array_sort cmp l = Ok l.
Proof.
  induction l as [|x rest IH]; intros Hcmp; simpl; [done|].
  rewrite IH.
  - simpl. destruct rest as [|y rest']; simpl; [done|].
    rewrite Hcmp; [done|apply list_elem_of_here|].
    apply list_elem_of_further, list_elem_of_here.
  - intros a b Ha Hb. apply Hcmp; by apply list_elem_of_further.
Qed.


Lemma array_slice_last {A} (start : Z) (l : list A) (x : A) :
  (start <= Z.of_nat (length l))%Z -> x ∈ array_slice start (l ++ [x]).
Proof.
  intros Hstart. unfold array_slice. rewrite length_app. simpl.
  destruct (start <? 0)%Z eqn:Hneg.
  - apply Z.ltb_lt in Hneg. rewrite drop_app_le by lia.
    apply elem_of_app. right. apply list_elem_of_here.
  - apply Z.ltb_ge in Hneg. rewrite drop_app_le by lia.
    apply elem_of_app. right. apply list_elem_of_here.
Qed.

Lemma omap_ext_in {A B} (f g : A -> option B) (l : list A) :
  (forall x, x ∈ l -> f x = g x) -> omap f l = omap g l.
Proof.
  induction l as [|x l IH]; intros Hfg; [done|].
  cbn [omap list_omap]. rewrite (Hfg x) by apply list_elem_of_here.
  rewrite IH; [done|]. intros y Hy. apply Hfg. by apply list_elem_of_further.
Qed.

Section OwnSnapshot.
Context {S : Type} `{!Store S} `{!Runtime}.
Implicit Types (w : World S) (cfg : Config).

(** A file written under a new name of the backup directory is listed after
    the others. *)
Lemma entries_of_new_file cfg (files : list (string * FileContent)) (name : string)
    (doc : json) (md : jsval) :
  has_slash name = false ->
  ends_with ".json" name = true ->
  obj_get (path_join (backupDirectory cfg) name) files = None ->
  prop (Some doc) "metadata" = Ok md ->
  entries_of cfg (obj_set (path_join (backupDirectory cfg) name) (Doc doc) files)
  = entries_of cfg files
    ++ [{| entry_path := path_join (backupDirectory cfg) name; entry_metadata := md |}].
Proof.
  intros Hslash Hjson Hnew Hmd.
  pose proof (obj_get_set_eq (path_join (backupDirectory cfg) name) (Doc doc) files)
    as Hwritten.
  rewrite (obj_set_new _ _ _ Hnew) in *.
  unfold entries_of. rewrite omap_app. cbn [omap list_omap fst].
  rewrite (entry_name_join _ _ Hslash). cbn [app]. rewrite omap_app. f_equal.
  - apply omap_ext_in. intros n Hn.
    apply list_elem_of_omap in Hn as ([p c] & Hp & Hentry). cbn [fst] in Hentry.
    apply entry_name_path in Hentry as ->.
    destruct (obj_get_key _ _ _ Hp) as [c' Hc'].
    unfold entry_of. by rewrite (obj_get_app_Some _ _ _ _ Hc'), Hc'.
  - cbn [omap list_omap]. unfold entry_of. by rewrite Hjson, Hwritten, Hmd.
Qed.

Lemma validateBackup_missing (path : string) w :
  obj_get path (w_files w) = None ->
  validateBackup path w
  = (Ok {| valid := false;
           issues := [IssueException (exn_message (SystemError "ENOENT" path))] |}, w).
Proof.
  intros Hnone. unfold validateBackup, try_catch, bind, readFile. by rewrite Hnone.
Qed.

Lemma obj_get_remove_all_in (paths : list string) (path : string)
    (files : list (string * FileContent)) :
  path ∈ paths -> obj_get path (remove_all paths files) = None.
Proof.
  intros Hin. destruct (obj_get path (remove_all paths files)) as [c|] eqn:Hc; [|done].
  by apply obj_get_remove_all_Some in Hc as [_ Hnot].
Qed.

(** C2. The full backup can unlink the snapshot it has just written. The
    timestamps the service writes have dashes where a date has colons, and
    while the runtime reads none of the listed timestamps as a time the
    listing of [cleanupOldBackups] is the directory in its own order, with
    the new file last; once the directory holds [maxBackupCount] backups
    the new snapshot is therefore among those the cleanup takes for the
    oldest. The path [createFullBackup] returns then leads to no
    file, and validating it answers [valid = false] with the message of
    the failed read, even though every export succeeded. *)
Theorem createFullBackup_unlinks_own_snapshot cfg (description : option string) w :
  backup_path cfg "backup_" (w_clock w (w_tick w)) ∉ w_unwritable w ->
  backup_path cfg "backup_" (w_clock w (w_tick w)) ∉ w_undeletable w ->
  obj_get (backup_path cfg "backup_" (w_clock w (w_tick w))) (w_files w) = None ->
  (forall e, e ∈ entries_of cfg (w_files w) -> entry_time e = Ok None) ->
  Date_getTime (Some (JStr (backup_timestamp (w_clock w (w_tick w))))) = None ->
  (maxBackupCount cfg <= Z.of_nat (length (entries_of cfg (w_files w))))%Z ->
  exists (w' : World S),
    createFullBackup cfg description w
    = (Ok (backup_path cfg "backup_" (w_clock w (w_tick w))), w')
    /\ EvUnlink (backup_path cfg "backup_" (w_clock w (w_tick w))) ∈ w_trace w'
    /\ obj_get (backup_path cfg "backup_" (w_clock w (w_tick w))) (w_files w') = None
    /\ validateBackup (backup_path cfg "backup_" (w_clock w (w_tick w))) w'
       = (Ok {| valid := false;
                issues :=
                  [IssueException
                     (exn_message
                        (SystemError "ENOENT"
                           (backup_path cfg "backup_" (w_clock w (w_tick w)))))] |},
          w').
Proof.
  intros Hwritable Hdeletable Hnew Hnan Hself Hfull.
  set (now := w_clock w (w_tick w)) in *.
  set (path := backup_path cfg "backup_" now) in *.
  destruct (createBackupOf_run BACKUP_TABLES "backup_" "完全バックアップ" true cfg
              description w Hwritable)
    as (answers & deleted & ls & Hrun & _ & _ & _ & _ & _ & Hdone).
  fold now path in Hrun, Hdone. cbv zeta in Hrun, Hdone.
  set (bd := snapshot_from answers BACKUP_TABLES cfg description now) in *.
  destruct (backup_path_listed cfg "backup_" now eq_refl) as (Hpath & Hslash & Hjson).
  fold path in Hpath. cbv zeta in Hslash, Hjson.
  set (name := "backup_" +:+ backup_timestamp now +:+ ".json") in *.
  assert (path ∈ deleted) as Hgone.
  { set (new := {| entry_path := path;
                   entry_metadata := Some (metadata_to_json (metadata bd)) |}).
    assert (entries_of cfg (obj_set path (Doc (backup_to_json bd)) (w_files w))
            = entries_of cfg (w_files w) ++ [new]) as Hentries.
    { subst new. rewrite Hpath.
      apply entries_of_new_file; [done|done|by rewrite <- Hpath|].
      apply prop_snapshot_metadata. }
    assert (entry_time new = Ok None) as Hnewtime.
    { unfold entry_time, new. cbn [entry_metadata].
      destruct (prop_metadata_fields (metadata bd)) as (-> & _). cbn [rbind].
      destruct (export_fold_fixed answers
                  (empty_snapshot BACKUP_TABLES cfg description now)) as (Hts & _).
      fold (snapshot_from answers BACKUP_TABLES cfg description now) in Hts.
      fold bd in Hts. rewrite Hts. cbn [empty_snapshot metadata timestamp].
      by rewrite Hself. }
    assert (listing cfg (obj_set path (Doc (backup_to_json bd)) (w_files w))
            = entries_of cfg (w_files w) ++ [new]) as Hlisting.
    { unfold listing. rewrite Hentries, array_sort_unordered; [done|].
      intros a b Ha Hb. unfold newest_first.
      assert (forall e, e ∈ entries_of cfg (w_files w) ++ [new] ->
                entry_time e = Ok None) as Hall.
      { intros e [He|He]%elem_of_app; [by apply Hnan|].
        by apply list_elem_of_singleton in He as ->. }
      by rewrite (Hall a Ha), (Hall b Hb). }
    destruct (Hdone eq_refl new) as [Hin|[Hund|Hnone]]; [|done|done|].
    - unfold to_delete. rewrite Hlisting, length_app. cbn [length].
      assert ((maxBackupCount cfg
               <? Z.of_nat (length (entries_of cfg (w_files w)) + 1))%Z = true) as ->
        by (apply Z.ltb_lt; lia).
      by apply array_slice_last.
    - cbn [entry_path new] in Hnone. by rewrite obj_get_set_eq in Hnone. }
  eexists. split; [exact Hrun|].
  assert (obj_get path (w_files (after_backup path (Doc (backup_to_json bd)) answers
                                   deleted ls w)) = None) as Hmissing.
  { cbn [after_backup w_files]. by apply obj_get_remove_all_in. }
  split; [|split; [exact Hmissing | by apply validateBackup_missing]].
  cbn [after_backup w_trace]. apply elem_of_app. right.
  apply list_elem_of_further. apply list_elem_of_fmap. by exists path.
Qed.
End OwnSnapshot.
(** ** Worked examples *)

Section Examples.
#[local] Existing Instance example_runtime.



Lemma createFullBackup_unlinks_own_snapshot_witness :
  let w := world_of store_with_all_tables ten_backups in
  let path := backup_path default_config "backup_" (w_clock w (w_tick w)) in
  (path ∉ w_unwritable w)
  /\ (path ∉ w_undeletable w)
  /\ obj_get path (w_files w) = None
  /\ (forall e, e ∈ entries_of default_config (w_files w) -> entry_time e = Ok None)
  /\ Date_getTime (Some (JStr (backup_timestamp (w_clock w (w_tick w))))) = None
  /\ (maxBackupCount default_config
      <= Z.of_nat (length (entries_of default_config (w_files w))))%Z
  /\ exists (w' : World MemDb),
       createFullBackup default_config None w = (Ok path, w')
       /\ EvUnlink path ∈ w_trace w'
       /\ obj_get path (w_files w') = None
       /\ validateBackup path w'
          = (Ok {| valid := false;
                   issues := [IssueException (exn_message (SystemError "ENOENT" path))] |},
             w').
Proof.
  intros w path.
  assert (forall e, e ∈ entries_of default_config (w_files w) -> entry_time e = Ok None)
    as Hnan.
  { intros e He. vm_compute in He.
    repeat (apply elem_of_cons in He as [->|He]; [reflexivity|]).
    by apply elem_of_nil in He. }
  assert (maxBackupCount default_config
          <= Z.of_nat (length (entries_of default_config (w_files w))))%Z as Hfull
      by (vm_compute; discriminate).
  split; [apply not_elem_of_nil|]. split; [apply not_elem_of_nil|].
  split; [reflexivity|]. split; [exact Hnan|]. split; [reflexivity|].
  split; [exact Hfull|].
  exact (createFullBackup_unlinks_own_snapshot (S := MemDb) default_config None w
           ltac:(apply not_elem_of_nil) ltac:(apply not_elem_of_nil) eq_refl Hnan
           eq_refl Hfull).
Defined.

Lemma validateBackup_without_metadata_witness :
  let w := world_of no_tables [("backups/broken.json", Doc snapshot_without_metadata)] in
  obj_get "backups/broken.json" (w_files w) = Some (Doc snapshot_without_metadata)
  /\ prop (Some snapshot_without_metadata) "metadata" = Ok None
  /\ ((None : jsval) = None \/ (None : jsval) = Some JNull)
  /\ exists msg,
       validateBackup "backups/broken.json" w
       = (Ok {| valid := false; issues := [IssueException msg] |}, w)
       /\ IssueNoMetadata ∉ [IssueException msg].
Proof.
  intros w. split; [reflexivity|]. split; [reflexivity|]. split; [by left|].
  apply (validateBackup_without_metadata (S := MemDb) "backups/broken.json"
           snapshot_without_metadata None w); [reflexivity|reflexivity|by left].
Defined.

(** C10 (counterexample). A snapshot that lists a table named
    [constructor] and whose checksum mapping has no entry at all: the read
    [metadata.checksums[table]] finds the function every object inherits
    under that name, the comparison is made, and the validator reports a
    checksum issue for the table. *)
Lemma validateBackup_compares_inherited_member :
  let w := world_of no_tables
             [("backups/backup_2025-01-01T10-00-00.json", Doc snapshot_named_constructor)] in
  listed_tables snapshot_named_constructor = [JStr "constructor"]
  /\ (exists md, prop (Some snapshot_named_constructor) "metadata" = Ok md
                 /\ prop md "checksums" = Ok (Some (JObj [])))
  /\ own_property (JObj []) "constructor" = None
  /\ validateBackup "backups/backup_2025-01-01T10-00-00.json" w
     = (Ok {| valid := false; issues := [IssueChecksum "constructor"] |}, w).
Proof.
  intros w. split; [reflexivity|]. split; [eexists; split; reflexivity|].
  split; reflexivity.
Qed.

Lemma validateBackup_checksum_only_when_recorded_witness :
  let w := world_of no_tables
             [("backups/backup_old.json", Doc snapshot_without_checksums)] in
  obj_get "backups/backup_old.json" (w_files w) = Some (Doc snapshot_without_checksums)
  /\ recorded_checksum snapshot_without_checksums "bot_settings" = None
  /\ (exists v, validateBackup "backups/backup_old.json" w = (Ok v, w)
                /\ IssueChecksum "bot_settings" ∉ issues v)
  /\ validateBackup "backups/backup_old.json" w
     = (Ok {| valid := true; issues := [] |}, w).
Proof.
  intros w. split; [reflexivity|]. split; [reflexivity|]. split.
  - apply (proj1 (validateBackup_checksum_only_when_recorded (S := MemDb))
             "backups/backup_old.json" snapshot_without_checksums "bot_settings" w);
      reflexivity.
  - apply (proj2 (proj2 (validateBackup_checksum_only_when_recorded (S := MemDb)))
             "backups/backup_old.json" w); reflexivity.
Defined.
End Examples.

(** * Further properties of the service *)

(** ** The listing: what is listed, and in which order *)

Section Listing.
Context {S : Type} `{!Store S} `{!Runtime}.
Implicit Types (w : World S) (cfg : Config).

Lemma insert_by_perm {A} (cmp : A -> A -> Result (option Z)) (x : A)
    (sorted l : list A) :
  insert_by cmp x sorted = Ok l -> l ≡ₚ x :: sorted.
Proof.
  revert l. induction sorted as [|y rest IH]; intros l; simpl.
  - by intros [= <-].
  - unfold rbind. destruct (cmp x y) as [[d|]|e]; try done; try by intros [= <-].
    destruct (0 <? d)%Z; [|by intros [= <-]].
    destruct (insert_by cmp x rest) as [l'|] eqn:Hins; [|done].
    intros [= <-]. rewrite (IH l' eq_refl). apply perm_swap.
Qed.

Lemma array_sort_perm {A} (cmp : A -> A -> Result (option Z)) (l sorted : list A) :
  array_sort cmp l = Ok sorted -> sorted ≡ₚ l.
Proof.
  revert sorted. induction l as [|x rest IH]; intros sorted; simpl.
  - by intros [= <-].
  - unfold rbind. destruct (array_sort cmp rest) as [s|]; [|done].
    intros Hins. apply insert_by_perm in Hins. by rewrite Hins, (IH s eq_refl).
Qed.

(** Whatever the order, [listAvailableBackups] lists files of the backup
    directory only: each entry is a file named [*.json] that parses, under
    the path it has in the directory. *)
Lemma listing_entries cfg (files : list (string * FileContent)) (e : BackupEntry) :
  e ∈ listing cfg files ->
  exists (name : string) (doc : json),
    entry_path e = path_join (backupDirectory cfg) name
    /\ ends_with ".json" name = true
    /\ obj_get (entry_path e) files = Some (Doc doc)
    /\ prop (Some doc) "metadata" = Ok (entry_metadata e).
Proof.
  unfold listing.
  destruct (array_sort newest_first (entries_of cfg files)) as [sorted|] eqn:Hsort;
    [|by intros ?%elem_of_nil].
  intros Hin. apply array_sort_perm in Hsort. rewrite Hsort in Hin.
  unfold entries_of in Hin. apply list_elem_of_omap in Hin as (name & _ & Hentry).
  unfold entry_of in Hentry.
  destruct (ends_with ".json" name) eqn:Hjson; [|done].
  destruct (obj_get (path_join (backupDirectory cfg) name) files)
    as [[doc|]|] eqn:Hfile; try done.
  destruct (prop (Some doc) "metadata") as [md|] eqn:Hmd; [|done].
  injection Hentry as <-. simpl. exists name, doc. done.
Qed.

(** X1. When the runtime reads none of the listed timestamps as a time (every
    [getTime()] is NaN), the comparator answers NaN throughout and
    [listAvailableBackups] returns the entries in the order of the
    directory. *)
Theorem listAvailableBackups_directory_order cfg w :
  (forall e, e ∈ entries_of cfg (w_files w) -> entry_time e = Ok None) ->
  exists w', listAvailableBackups cfg w = (Ok (entries_of cfg (w_files w)), w').
Proof.
  intros Hnan. destruct (listAvailableBackups_run cfg w) as [ls ->].
  eexists. f_equal. f_equal. unfold listing.
  rewrite array_sort_unordered; [done|].
  intros a b Ha Hb. unfold newest_first. by rewrite (Hnan a Ha), (Hnan b Hb).
Qed.

Lemma newest_first_timed (a b : BackupEntry) (ta tb : Z) :
  entry_time a = Ok (Some ta) -> entry_time b = Ok (Some tb) ->
  newest_first a b = Ok (Some (time_key b - time_key a)%Z).
Proof.
  intros Ha Hb. unfold newest_first, time_key. by rewrite Ha, Hb.
Qed.

Lemma insert_by_newest_first (x : BackupEntry) (sorted : list BackupEntry) :
  (exists t, entry_time x = Ok (Some t)) ->
  Forall (fun e => exists t, entry_time e = Ok (Some t)) sorted ->
  StronglySorted (fun a b => (time_key b <= time_key a)%Z) sorted ->
  exists l, insert_by newest_first x sorted = Ok l
            /\ StronglySorted (fun a b => (time_key b <= time_key a)%Z) l.
Proof.
  intros [tx Hx] Htimed Hsorted.
  induction sorted as [|y rest IH]; simpl.
  - eexists; split; [done|]. repeat constructor.
  - apply Forall_cons in Htimed as [[ty Hy] Hrest].
    apply StronglySorted_inv in Hsorted as [Hsorted Hall].
    rewrite (newest_first_timed x y tx ty Hx Hy). simpl.
    destruct (0 <? time_key y - time_key x)%Z eqn:Hlt.
    + destruct (IH Hrest Hsorted) as (l & Hins & Hl). rewrite Hins. simpl.
      eexists; split; [done|]. constructor; [done|].
      apply insert_by_perm in Hins. rewrite Hins.
      constructor; [|done]. apply Z.ltb_lt in Hlt. lia.
    + eexists; split; [done|]. apply Z.ltb_ge in Hlt.
      constructor; [by constructor|].
      constructor; [lia|].
      eapply Forall_impl; [exact Hall|]. simpl. intros z Hz. lia.
Qed.

(** X2. When the runtime reads every listed timestamp as a time,
    [listAvailableBackups] returns the same entries, newest first. *)
Theorem listAvailableBackups_newest_first cfg w :
  Forall (fun e => exists t, entry_time e = Ok (Some t)) (entries_of cfg (w_files w)) ->
  exists (sorted : list BackupEntry) (w' : World S),
    listAvailableBackups cfg w = (Ok sorted, w')
    /\ sorted ≡ₚ entries_of cfg (w_files w)
    /\ StronglySorted (fun a b => (time_key b <= time_key a)%Z) sorted.
Proof.
  intros Htimed. destruct (listAvailableBackups_run cfg w) as [ls ->].
  unfold listing.
  assert (exists sorted,
             array_sort newest_first (entries_of cfg (w_files w)) = Ok sorted
             /\ StronglySorted (fun a b => (time_key b <= time_key a)%Z) sorted)
    as (sorted & Hsort & Hsorted).
  { induction Htimed as [|x rest Hx Hrest IH]; simpl.
    - eexists; split; [done|constructor].
    - destruct IH as (s & Hs & Hsorted). rewrite Hs. simpl.
      apply insert_by_newest_first; [done| |done].
      apply array_sort_perm in Hs. by rewrite Hs. }
  rewrite Hsort. eexists _, _. split; [done|]. split; [|done].
  by apply (array_sort_perm newest_first).
Qed.

Lemma entry_time_without_metadata (e : BackupEntry) :
  entry_metadata e = None \/ entry_metadata e = Some JNull ->
  exists err, entry_time e = Throw err.
Proof. unfold entry_time, prop. intros [-> | ->]; simpl; eauto. Qed.

Lemma newest_first_without_metadata (a b : BackupEntry) :
  (entry_metadata a = None \/ entry_metadata a = Some JNull)
  \/ (entry_metadata b = None \/ entry_metadata b = Some JNull) ->
  exists err, newest_first a b = Throw err.
Proof.
  unfold newest_first. intros [Ha|Hb].
  - destruct (entry_time_without_metadata a Ha) as [err ->].
    destruct (entry_time b); simpl; eauto.
  - destruct (entry_time_without_metadata b Hb) as [err ->]. simpl; eauto.
Qed.

Lemma array_sort_without_metadata (l : list BackupEntry) :
  2 <= length l ->
  Exists (fun e => entry_metadata e = None \/ entry_metadata e = Some JNull) l ->
  exists err, array_sort newest_first l = Throw err.
Proof.
  induction l as [|x rest IH]; simpl; [lia|]. intros Hlen Hbad.
  destruct (array_sort newest_first rest) as [s|err] eqn:Hsort; simpl; [|eauto].
  pose proof (array_sort_perm _ _ _ Hsort) as Hperm.
  destruct s as [|y s'].
  { apply Permutation_length in Hperm. simpl in Hperm. lia. }
  simpl.
  assert (exists err, newest_first x y = Throw err) as [err ->]; [|simpl; eauto].
  apply newest_first_without_metadata.
  apply Exists_cons in Hbad as [Hx|Hrest]; [by left|]. right.
  destruct rest as [|r1 [|r2 rest']].
  - simpl in Hlen. lia.
  - apply Permutation_singleton_r in Hperm. injection Hperm as -> ->.
    by apply Exists_cons in Hrest as [?|?%Exists_nil].
  - destruct IH as [err Herr]; [simpl; lia|done|]. congruence.
Qed.

(** X3. Two or more listed files of which one parses to a document without
    [metadata] make the comparator throw: [listAvailableBackups] then
    returns the empty list, whatever the other files are. *)
Theorem listAvailableBackups_empty_without_metadata cfg w :
  2 <= length (entries_of cfg (w_files w)) ->
  Exists (fun e => entry_metadata e = None \/ entry_metadata e = Some JNull)
    (entries_of cfg (w_files w)) ->
  exists w', listAvailableBackups cfg w = (Ok [], w').
Proof.
  intros Hlen Hbad. destruct (listAvailableBackups_run cfg w) as [ls ->].
  unfold listing.
  destruct (array_sort_without_metadata _ Hlen Hbad) as [err ->]. eauto.
Qed.
End Listing.

(** ** The retention cleanup *)

Section Cleanup.
Context {S : Type} `{!Store S} `{!Runtime}.
Implicit Types (w : World S) (cfg : Config).

Lemma array_slice_elem {A} (start : Z) (l : list A) (x : A) :
  x ∈ array_slice start l -> x ∈ l.
Proof.
  unfold array_slice. destruct (start <? 0)%Z; intros Hin;
    apply list_elem_of_lookup in Hin as [i Hi]; rewrite lookup_drop in Hi;
    by apply list_elem_of_lookup_2 in Hi.
Qed.

Lemma listAvailableBackups_result cfg w (entries : list BackupEntry) (w1 : World S) :
  listAvailableBackups cfg w = (Ok entries, w1) -> entries = listing cfg (w_files w).
Proof.
  destruct (listAvailableBackups_run cfg w) as [ls ->]. by intros [= <- _].
Qed.


(** X5. While the listing holds no more than [maxBackupCount] entries, the
    cleanup deletes nothing: files and trace are as before. *)
Theorem cleanupOldBackups_within_limit cfg w (entries : list BackupEntry)
    (w1 : World S) :
  listAvailableBackups cfg w = (Ok entries, w1) ->
  (Z.of_nat (length entries) <= maxBackupCount cfg)%Z ->
  exists w',
    cleanupOldBackups cfg w = (Ok tt, w')
    /\ w_files w' = w_files w /\ w_trace w' = w_trace w.
Proof.
  intros Hlist Hlimit. apply listAvailableBackups_result in Hlist as ->.
  destruct (cleanupOldBackups_run cfg w) as (deleted & ls & -> & Hsub & _).
  unfold to_delete in Hsub.
  destruct (maxBackupCount cfg <? _)%Z eqn:Hlt; [apply Z.ltb_lt in Hlt; lia|].
  assert (deleted = []) as ->.
  { destruct deleted as [|p ?]; [done|].
    specialize (Hsub p (list_elem_of_here _ _)). by apply elem_of_nil in Hsub. }
  eexists. split; [done|]. split; [done|]. simpl. by rewrite app_nil_r.
Qed.

(** X6. The cleanup unlinks listed files only: a file survives it unless it is
    a file of the backup directory named [*.json] that parses. *)
Theorem cleanupOldBackups_spares_other_files cfg w (w' : World S) (path : string)
    (c : FileContent) :
  cleanupOldBackups cfg w = (Ok tt, w') ->
  obj_get path (w_files w) = Some c ->
  obj_get path (w_files w') = Some c
  \/ exists (name : string) (doc : json),
       path = path_join (backupDirectory cfg) name
       /\ ends_with ".json" name = true
       /\ c = Doc doc.
Proof.
  intros Hrun Hfile.
  destruct (cleanupOldBackups_run cfg w) as (deleted & ls & Hrun' & Hsub & _).
  rewrite Hrun' in Hrun. injection Hrun as <-. simpl.
  destruct (decide (path ∈ deleted)) as [Hdel|Hkept].
  - right. apply Hsub in Hdel. apply list_elem_of_fmap in Hdel as (e & -> & He).
    assert (e ∈ listing cfg (w_files w)) as Hlisted.
    { unfold to_delete in He. destruct (_ <? _)%Z; [|by apply elem_of_nil in He].
      by apply array_slice_elem in He. }
    apply listing_entries in Hlisted as (name & doc & Hpath & Hjson & Hdoc & _).
    exists name, doc. split; [done|]. split; [done|]. congruence.
  - left. by rewrite obj_get_remove_all_notin.
Qed.

(** X7. A deletion that fails does not stop the cleanup: of the entries beyond
    [maxBackupCount], every one whose [unlink] the file system does not
    refuse is gone afterwards. *)
Theorem cleanupOldBackups_continues_after_failure cfg w (entries : list BackupEntry)
    (w1 : World S) (b : BackupEntry) :
  listAvailableBackups cfg w = (Ok entries, w1) ->
  (maxBackupCount cfg < Z.of_nat (length entries))%Z ->
  b ∈ array_slice (maxBackupCount cfg) entries ->
  entry_path b ∉ w_undeletable w ->
  exists w',
    cleanupOldBackups cfg w = (Ok tt, w')
    /\ obj_get (entry_path b) (w_files w') = None.
Proof.
  intros Hlist Hover Hb Hdeletable. apply listAvailableBackups_result in Hlist as ->.
  destruct (cleanupOldBackups_run cfg w) as (deleted & ls & -> & Hsub & Hok & Hall).
  eexists. split; [done|]. simpl.
  destruct (Hall b) as [Hin|[Hund|Hgone]]; [| |done|].
  - unfold to_delete. by apply Z.ltb_lt in Hover as ->.
  - destruct (obj_get (entry_path b) (remove_all deleted (w_files w))) as [c|] eqn:Hc;
      [|done].
    apply obj_get_remove_all_Some in Hc as [_ Hnot]. done.
  - by apply obj_get_remove_all_None.
Qed.
End Cleanup.

(** ** The validator: what it detects *)

Section Detection.
Context {S : Type} `{!Store S} `{!Runtime}.
Implicit Types (w : World S).

Lemma check_table_grows (doc : json) (md : jsval) (found found' : list Issue)
    (table : json) :
  check_table doc md found table = Ok found' -> exists extra, found' = found ++ extra.
Proof.
  unfold check_table, rbind. intros Hstep.
  repeat match goal with
         | H : context [match ?x with _ => _ end] |- _ => destruct x eqn:?; simplify_eq
         end;
    try (by exists []; rewrite app_nil_r); try (by eexists);
    try (by rewrite <- app_assoc; eexists).
Qed.

Lemma check_table_total (doc : json) (md ds r1 r2 : jsval) (k1 k2 : string)
    (found : list Issue) (table : json) :
  prop (Some doc) "data" = Ok ds -> prop ds k1 = Ok r1 -> prop md k2 = Ok r2 ->
  exists found', check_table doc md found table = Ok found'.
Proof.
  intros Hds Hk1 Hk2. unfold check_table, rbind. rewrite Hds.
  rewrite (prop_Ok_other _ _ _ (js_to_string table) Hk1).
  rewrite (prop_Ok_other _ _ _ "recordCount" Hk2).
  rewrite (prop_Ok_other _ _ _ "checksums" Hk2).
  repeat match goal with
         | |- context [if truthy ?v then _ else _] =>
             let T := fresh "T" in
             destruct (truthy v) eqn:T; [rewrite ?(prop_truthy v) by exact T|]
         | |- context [if ?b then _ else _] => destruct b
         | |- context [match ?x with _ => _ end] => destruct x
         end; eauto.
Qed.

Lemma check_tables_detect (doc : json) (md : jsval) (table : json) (i : Issue)
    (items : list json) (found : list Issue) :
  (forall t f, exists f', check_table doc md f t = Ok f') ->
  (forall f f', check_table doc md f table = Ok f' -> i ∈ f') ->
  i ∈ found \/ table ∈ items ->
  exists found', check_tables doc md found items = Ok found' /\ i ∈ found'.
Proof.
  intros Htotal Hdetect. revert found.
  induction items as [|t rest IH]; intros found Hin; simpl.
  - destruct Hin as [Hin|Hin]; [eauto|by apply elem_of_nil in Hin].
  - destruct (Htotal t found) as [f1 Hf1]. rewrite Hf1. simpl. apply IH.
    destruct Hin as [Hin|[->|Hin]%elem_of_cons].
    + left. apply check_table_grows in Hf1 as [extra ->]. apply elem_of_app. by left.
    + left. by eapply Hdetect.
    + by right.
Qed.

Lemma validate_document_detect (doc : json) (table : json) (i : Issue) :
  table ∈ listed_tables doc ->
  is_Some (table_data doc (js_to_string table)) ->
  (forall md f f',
      prop (Some doc) "metadata" = Ok md ->
      check_table doc md f table = Ok f' -> i ∈ f') ->
  exists found, validate_document doc = Ok found /\ i ∈ found.
Proof.
  unfold listed_tables, table_data. intros Hlisted Hdata Hdetect.
  destruct (prop (Some doc) "metadata") as [md|] eqn:Hmd; [|by apply elem_of_nil in Hlisted].
  destruct (prop md "tables") as [[[| | | | |items| |]|]|] eqn:Htb;
    try by apply elem_of_nil in Hlisted.
  destruct (prop (Some doc) "data") as [ds|] eqn:Hds; [|by destruct Hdata].
  destruct (prop ds (js_to_string table)) as [td|] eqn:Htd; [|by destruct Hdata].
  unfold validate_document, rbind. rewrite Hmd, Hds.
  rewrite (prop_Ok_other _ _ _ "timestamp" Htb), (prop_Ok_other _ _ _ "version" Htb), Htb.
  apply (check_tables_detect doc md table); [|by eauto|by right].
  intros t f. by eapply check_table_total.
Qed.

Lemma validate_document_checksum (doc table : json) (rows : list json)
    (recorded : json) :
  table ∈ listed_tables doc ->
  table_data doc (js_to_string table) = Some (JArr rows) ->
  recorded_checksum doc (js_to_string table) = Some recorded ->
  truthy (Some recorded) = true ->
  strict_eq_str (Some recorded) (checksum_of (JArr rows)) = false ->
  exists found,
    validate_document doc = Ok found /\ IssueChecksum (js_to_string table) ∈ found.
Proof.
  intros Hlisted Hdata Hrec Htruthy Hdiff.
  apply (validate_document_detect doc table); [done|by rewrite Hdata|].
  intros md f f' Hmd Hstep.
  unfold recorded_checksum in Hrec. rewrite Hmd in Hrec.
  unfold table_data in Hdata.
  destruct (prop (Some doc) "data") as [ds|] eqn:Hds; [|done].
  destruct (prop ds (js_to_string table)) as [td|] eqn:Htd; [|done]. subst td.
  destruct (prop md "checksums") as [cs|] eqn:Hcs; [|done].
  destruct (truthy cs) eqn:Tcs; [|done].
  destruct (prop cs (js_to_string table)) as [rc|] eqn:Hrc; [|done]. subst rc.
  unfold check_table, rbind in Hstep. rewrite Hds, Htd, Hcs, Tcs, Hrc in Hstep.
  rewrite Htruthy, Hdiff in Hstep.
  change (negb (truthy (Some (JArr rows)))) with false in Hstep. cbv iota in Hstep.
  repeat match goal with
         | H : context [match ?x with _ => _ end] |- _ => destruct x eqn:?; simplify_eq
         end; apply elem_of_app; right; apply list_elem_of_here.
Qed.


(** X10. The validator only reads: whatever the file holds, it returns an answer
    and leaves the store, the files, the trace and the log as they were; a
    file that is missing or does not parse gives one issue. *)
Theorem validateBackup_read_only (path : string) w :
  exists v,
    validateBackup path w = (Ok v, w)
    /\ (valid v = true <-> issues v = [])
    /\ ((forall doc, obj_get path (w_files w) <> Some (Doc doc)) ->
        valid v = false /\ length (issues v) = 1).
Proof.
  destruct (validateBackup_answers path w) as [v Hrun]. exists v.
  split; [done|]. split; [by eapply validateBackup_valid_iff|].
  intros Hnodoc. revert Hrun.
  unfold validateBackup, try_catch, bind, readFile, lift, ret. simpl.
  destruct (obj_get path (w_files w)) as [[doc|text]|] eqn:Hfile; simpl.
  - by destruct (Hnodoc doc).
  - by intros [= <-].
  - by intros [= <-].
Qed.
End Detection.


(** ** The builders: what they write and what they leave *)

Section Builders.
Context {S : Type} `{!Store S} `{!Runtime}.
Implicit Types (w : World S) (cfg : Config).



Lemma listed_tables_snapshot (bd : BackupData) :
  listed_tables (backup_to_json bd) = JStr <$> tables (metadata bd).
Proof.
  unfold listed_tables. rewrite prop_snapshot_metadata.
  destruct (prop_metadata_fields (metadata bd)) as (_ & _ & -> & _). done.
Qed.

Lemma table_data_snapshot (bd : BackupData) (table : string) (v : json) :
  obj_get table (data bd) = Some v ->
  table_data (backup_to_json bd) table = Some v.
Proof.
  intros Hv. unfold table_data. rewrite prop_snapshot_data.
  unfold prop, property; simpl. by rewrite Hv.
Qed.

Lemma recorded_checksum_snapshot (bd : BackupData) (table c : string) :
  obj_get table (checksums (metadata bd)) = Some c ->
  recorded_checksum (backup_to_json bd) table = Some (JStr c).
Proof.
  intros Hc. unfold recorded_checksum. rewrite prop_snapshot_metadata.
  destruct (prop_metadata_fields (metadata bd)) as (_ & _ & _ & _ & ->).
  cbn [truthy]. unfold prop, property; simpl. by rewrite obj_get_fmap, Hc.
Qed.

Lemma export_fold_null (answers : list (string * SelectResult)) (bd : BackupData)
    (table : string) :
  (forall r, (table, r) ∈ answers -> sel_error r = None /\ sel_data r = None) ->
  table ∈ answers.*1
  \/ (obj_get table (data bd) = Some (JArr [])
      /\ obj_get table (checksums (metadata bd)) = Some (checksum_of JNull)) ->
  let bd' := foldl export_answer bd answers in
  obj_get table (data bd') = Some (JArr [])
  /\ obj_get table (checksums (metadata bd')) = Some (checksum_of JNull).
Proof.
  revert bd. induction answers as [|[t r] rest IH]; intros bd Hnull Hcase; simpl.
  - destruct Hcase as [Hin|Hdone]; [by apply elem_of_nil in Hin | done].
  - apply IH.
    { intros r' Hr'. apply Hnull. by apply list_elem_of_further. }
    unfold export_answer. cbn [fst snd].
    destruct (decide (t = table)) as [->|Hne].
    + right. destruct (Hnull r) as [-> ->]; [apply list_elem_of_here|].
      simpl. by rewrite !obj_get_set_eq.
    + destruct Hcase as [Hin|Hdone].
      * left. simpl in Hin. apply elem_of_cons in Hin as [Heq|Hin]; [congruence|done].
      * right. destruct (sel_error r); [done|]. simpl.
        by rewrite !obj_get_set_ne.
Qed.

(** X13. The checksum is taken of the rows as the store answered them, the data
    section holds [data || []]: when the store answers the select of a table
    with neither an error nor rows, the snapshot records the digest of
    [null] beside an empty array, and the validator reports a checksum issue
    for that table on the file just written. *)
Theorem validateBackup_after_null_rows (tableSet : list string)
    (prefix label : string) (prune : bool) cfg (description : option string)
    w (path : string) (w' : World S) (table : string) :
  table ∈ tableSet ->
  (forall r, (table, r) ∈ answers_since w w' ->
     sel_error r = None /\ sel_data r = None) ->
  checksum_of JNull <> EmptyString ->
  checksum_of JNull <> checksum_of (JArr []) ->
  createBackupOf tableSet prefix label prune cfg description w = (Ok path, w') ->
  is_Some (obj_get path (w_files w')) ->
  exists v,
    validateBackup path w' = (Ok v, w')
    /\ valid v = false
    /\ IssueChecksum table ∈ issues v.
Proof.
  intros Hin Hnull Hdigest Hdiff Hrun [c Hfile].
  destruct (decide (backup_path cfg prefix (w_clock w (w_tick w)) ∈ w_unwritable w))
    as [Hrefused|Hwritable].
  { destruct (createBackupOf_refused tableSet prefix label prune cfg description w
                Hrefused) as (answers & ls & Hthrow & _).
    rewrite Hthrow in Hrun. done. }
  destruct (createBackupOf_run tableSet prefix label prune cfg description w Hwritable)
    as (answers & deleted & ls & Hrun' & Hnames & _).
  cbv zeta in Hrun'. rewrite Hrun' in Hrun. injection Hrun as <- <-.
  unfold answers_since in Hnull. cbn [after_backup w_answers] in Hnull.
  rewrite drop_app_length in Hnull.
  pose proof Hfile as Hwritten. cbn [after_backup w_files] in Hwritten.
  apply obj_get_remove_all_Some in Hwritten as [Hwritten Hkept].
  rewrite obj_get_set_eq in Hwritten. injection Hwritten as <-.
  rewrite (validateBackup_document _ _ _ Hfile).
  set (now := w_clock w (w_tick w)) in *.
  pose proof (export_fold_fixed answers (empty_snapshot tableSet cfg description now))
    as Hfixed.
  pose proof (export_fold_null answers (empty_snapshot tableSet cfg description now)
                table Hnull) as Hexp.
  fold (snapshot_from answers tableSet cfg description now) in Hfixed, Hexp.
  cbv zeta in Hfixed, Hexp. cbn [empty_snapshot metadata tables] in Hfixed.
  destruct Hfixed as (_ & _ & Htables & _).
  destruct Hexp as (Hdata & Hsum); [left; by rewrite Hnames|].
  set (bd := snapshot_from answers tableSet cfg description now) in *.
  destruct (validate_document_checksum (backup_to_json bd) (JStr table) []
              (JStr (checksum_of JNull)))
    as (found & -> & Hfound).
  - rewrite listed_tables_snapshot, Htables. apply list_elem_of_fmap. eauto.
  - by apply table_data_snapshot.
  - by apply recorded_checksum_snapshot.
  - cbn [truthy]. by apply negb_true_iff, String.eqb_neq.
  - cbn [strict_eq_str]. by apply String.eqb_neq.
  - eexists. split; [done|]. split; [|done]. simpl.
    by destruct found; [apply elem_of_nil in Hfound|].
Qed.
End Builders.

(** X14. The timestamp of a snapshot, and with it the name of its file, is the
    clock reading to the second, YYYY-MM-DDTHH-mm-ss: the two [replace]
    calls turn the colons into dashes and drop the milliseconds and the
    [Z], so that two snapshots of one prefix taken within the same second
    share one path. *)
Theorem backup_timestamp_format (d : DateTime) :
  backup_timestamp d
  = pad4 (dt_year d) +:+ "-" +:+ pad2 (dt_month d) +:+ "-" +:+ pad2 (dt_day d)
    +:+ "T" +:+ pad2 (dt_hour d) +:+ "-" +:+ pad2 (dt_minute d) +:+ "-"
    +:+ pad2 (dt_second d).
Proof. apply backup_timestamp_spelled. Qed.

(** ** The restore, step by step *)

Section RestoreRuns.
Context {S : Type} `{!Store S} `{!Runtime}.
Implicit Types (w : World S) (cfg : Config).

Lemma after_store_app (db1 db2 : S) (e1 e2 : list Event) (l1 l2 : list LogEntry) w :
  after_store db2 e2 l2 (after_store db1 e1 l1 w) = after_store db2 (e1 ++ e2) (l1 ++ l2) w.
Proof. unfold after_store; simpl. by rewrite !app_assoc. Qed.

Lemma after_store_nil w : after_store (w_db w) [] [] w = w.
Proof. destruct w. unfold after_store; simpl. by rewrite !app_nil_r. Qed.

Lemma world_eq_fields (db db' : S) (fs : list (string * FileContent))
    (un ud : list string) (ck : nat -> DateTime) (tk : nat)
    (t t' : list Event) (l l' : list LogEntry) (lg : LogService.LogConfig)
    (a : list (string * SelectResult)) :
  db = db' -> t = t' -> l = l' ->
  mkWorld db fs un ud ck tk t l lg a = mkWorld db' fs un ud ck tk t' l' lg a.
Proof. by intros -> -> ->. Qed.

Ltac world_eq :=
  unfold ret; cbv beta iota;
  match goal with
  | |- (_, ?X) = _ => rewrite (world_eta X)
  end;
  unfold after_store; simpl;
  refine (f_equal2 pair _ _); [reflexivity|];
  apply world_eq_fields;
  [reflexivity
  |by rewrite ?app_nil_r, <- ?app_assoc
  |by rewrite <- ?app_assoc].

Lemma obj_set_keeps {A} (key name : string) (v : A) (fields : list (string * A)) :
  is_Some (obj_get name fields) -> is_Some (obj_get name (obj_set key v fields)).
Proof.
  intros Hsome. destruct (decide (key = name)) as [->|Hne].
  - rewrite obj_get_set_eq. eauto.
  - by rewrite obj_get_set_ne.
Qed.

Lemma record_error_keeps (key message name : string) (details : RestoreDetails) :
  is_Some (obj_get name (errors details)) ->
  is_Some (obj_get name (errors (record_error key message details))).
Proof.
  unfold record_error; simpl. destruct (decide (key = "__proto__")); [done|].
  apply obj_set_keeps.
Qed.

(** An error is recorded under the name of the table, unless that name is
    [__proto__]. *)
Lemma record_error_recorded (name message : string) (details : RestoreDetails) :
  name <> "__proto__" ->
  is_Some (obj_get name (errors (record_error name message details))).
Proof.
  intros Hname. unfold record_error; simpl. rewrite decide_False by done.
  rewrite obj_get_set_eq. eauto.
Qed.

Ltac round_props :=
  split; [by repeat constructor|];
  split; [first [by intros; repeat constructor | intros; congruence]|];
  split; [first [done | intros [?|?]; congruence]|];
  split; [first [done | by intros ? ?; apply record_error_keeps]|].

(** One round of the restore loop never throws, touches nothing but the
    store and the log, and calls the store on its own table only: a delete
    only when [clearBeforeRestore] is set, and nothing at all when the
    snapshot has no rows for the table. It ends with an error recorded
    under the name of the table, unless that name is [__proto__], or with
    the rows sent to the store. *)
Lemma restore_table_run (doc : json) (options : RestoreOptions)
    (details : RestoreDetails) (table : json) w :
  exists (details' : RestoreDetails) (db : S) (evs : list Event) (ls : list LogEntry),
    restore_table doc options details table w = (Ok details', after_store db evs ls w)
    /\ Forall (fun e => event_table e = Some (js_to_string table)) evs
    /\ (clearBeforeRestore options = false -> Forall (fun e => is_upsert e = true) evs)
    /\ (truthy (table_data doc (js_to_string table)) = false
        \/ strict_eq_num (length_of (table_data doc (js_to_string table))) 0 = true ->
        evs = [])
    /\ (forall name, is_Some (obj_get name (errors details)) ->
                     is_Some (obj_get name (errors details')))
    /\ (js_to_string table <> "__proto__" ->
        is_Some (obj_get (js_to_string table) (errors details'))
        \/ exists v, EvUpsert (js_to_string table) v ∈ evs).
Proof.
  unfold restore_table, table_data, try_catch, bind, log, lift, ret.
  destruct (prop (Some doc) "data") as [ds|e] eqn:Hds; simpl.
  2:{ eexists _, _, [], _.
      split; [world_eq|].
      round_props.
      intros Hname. left. by apply record_error_recorded. }
  destruct (prop ds (js_to_string table)) as [td|e] eqn:Htd; simpl.
  2:{ eexists _, _, [], _.
      split; [world_eq|].
      round_props.
      intros Hname. left. by apply record_error_recorded. }
  destruct (negb (truthy td) || strict_eq_num (length_of td) 0) eqn:Hempty; simpl.
  { eexists _, _, [], _.
    split; [world_eq|].
    round_props.
    intros Hname. left. by apply record_error_recorded. }
  apply orb_false_iff in Hempty as [Htruthy Hlen]. apply negb_false_iff in Htruthy.
  destruct (clearBeforeRestore options) eqn:Hclear; simpl.
  - unfold delete_neq, upsert; simpl.
    match goal with
    | |- context [store_delete_neq ?db0 (js_to_string table) "id" (JNum 0)] =>
        destruct (store_delete_neq db0 (js_to_string table) "id" (JNum 0))
          as [db1 [msg|]] eqn:Hdel; simpl
    end.
    + eexists _, _, [EvDeleteRows (js_to_string table)], _.
      split; [world_eq|].
      round_props.
      intros Hname. left. by apply record_error_recorded.
    + destruct (store_upsert db1 (js_to_string table) (default JNull td) "id")
        as [db2 [msg|]] eqn:Hup; simpl.
      * eexists _, _, [EvDeleteRows (js_to_string table);
                       EvUpsert (js_to_string table) (default JNull td)], _.
        split; [world_eq|].
        round_props.
        intros Hname. left. by apply record_error_recorded.
      * eexists _, _, [EvDeleteRows (js_to_string table);
                       EvUpsert (js_to_string table) (default JNull td)], _.
        split; [world_eq|].
        round_props.
        intros _. right. eexists. apply list_elem_of_further, list_elem_of_here.
  - unfold upsert; simpl.
    match goal with
    | |- context [store_upsert ?db0 (js_to_string table) (default JNull td) "id"] =>
        destruct (store_upsert db0 (js_to_string table) (default JNull td) "id")
          as [db2 [msg|]] eqn:Hup; simpl
    end.
    + eexists _, _, [EvUpsert (js_to_string table) (default JNull td)], _.
      split; [world_eq|].
      round_props.
      intros Hname. left. by apply record_error_recorded.
    + eexists _, _, [EvUpsert (js_to_string table) (default JNull td)], _.
      split; [world_eq|].
      round_props.
      intros _. right. eexists. apply list_elem_of_here.
Qed.

Lemma restore_loop_run (doc : json) (options : RestoreOptions) (worklist : list json)
    (details : RestoreDetails) w :
  exists (details' : RestoreDetails) (db : S) (evs : list Event) (ls : list LogEntry),
    for_of worklist (restore_table doc options) details w
    = (Ok details', after_store db evs ls w)
    /\ Forall (fun e => exists t, t ∈ worklist
                                  /\ event_table e = Some (js_to_string t)
                                  /\ has_rows doc (js_to_string t) = true) evs
    /\ (clearBeforeRestore options = false -> Forall (fun e => is_upsert e = true) evs)
    /\ (forall name, is_Some (obj_get name (errors details)) ->
                     is_Some (obj_get name (errors details')))
    /\ (forall t, t ∈ worklist -> js_to_string t <> "__proto__" ->
          is_Some (obj_get (js_to_string t) (errors details'))
          \/ exists v, EvUpsert (js_to_string t) v ∈ evs).
Proof.
  revert details w. induction worklist as [|table rest IH]; intros details w; simpl.
  - exists details, (w_db w), [], []. rewrite after_store_nil.
    split; [done|]. split; [constructor|]. split; [by intros; constructor|].
    split; [done|]. intros t Ht. by apply elem_of_nil in Ht.
  - unfold bind.
    destruct (restore_table_run doc options details table w)
      as (d1 & db1 & e1 & l1 & -> & Hon & Hup & Hempty & Hkeep & Hdone).
    destruct (IH d1 (after_store db1 e1 l1 w))
      as (d2 & db2 & e2 & l2 & -> & Hon2 & Hup2 & Hkeep2 & Hdone2).
    rewrite after_store_app. exists d2, db2, (e1 ++ e2), (l1 ++ l2).
    split; [done|]. split; [|split; [|split]].
    + apply Forall_app. split.
      * destruct (has_rows doc (js_to_string table)) eqn:Hrows.
        -- eapply Forall_impl; [exact Hon|]. intros e He. exists table.
           split; [apply list_elem_of_here|done].
        -- rewrite Hempty; [constructor|].
           unfold has_rows in Hrows. apply andb_false_iff in Hrows as [Ht|Hl].
           ++ by left.
           ++ right. by apply negb_false_iff in Hl.
      * eapply Forall_impl; [exact Hon2|]. intros e (t & Ht & He). exists t.
        split; [by apply list_elem_of_further|done].
    + intros Hclear. apply Forall_app. split; [by apply Hup|by apply Hup2].
    + intros name Hname. by apply Hkeep2, Hkeep.
    + intros t [->|Ht]%elem_of_cons Hname.
      * destruct (Hdone Hname) as [Herr|[v Hv]].
        -- left. by apply Hkeep2.
        -- right. exists v. apply elem_of_app. by left.
      * destruct (Hdone2 t Ht Hname) as [Herr|[v Hv]]; [by left|].
        right. exists v. apply elem_of_app. by right.
Qed.

(** *** What every call keeps of the store *)

Lemma keeps_ret {A} (P : S -> Prop) (a : A) : keeps P (ret a).
Proof. by intros w r w' [= <- <-]. Qed.

Lemma keeps_throw {A} (P : S -> Prop) (e : Exn) : keeps P (throw (A := A) e).
Proof. by intros w r w' [= <- <-]. Qed.

Lemma keeps_lift {A} (P : S -> Prop) (x : Result A) : keeps P (lift x).
Proof. by intros w r w' [= <- <-]. Qed.

Lemma keeps_bind {A B} (P : S -> Prop) (m : M S A) (k : A -> M S B) :
  keeps P m -> (forall a, keeps P (k a)) -> keeps P (bind m k).
Proof.
  intros Hm Hk w r w'. unfold bind.
  destruct (m w) as [[a|e] w1] eqn:Hrun.
  - intros Hrest HP. eapply Hk; [exact Hrest|]. by eapply Hm.
  - intros [= <- <-] HP. by eapply Hm.
Qed.

Lemma keeps_try_catch {A} (P : S -> Prop) (m : M S A) (handler : Exn -> M S A) :
  keeps P m -> (forall e, keeps P (handler e)) -> keeps P (try_catch m handler).
Proof.
  intros Hm Hh w r w'. unfold try_catch.
  destruct (m w) as [[a|e] w1] eqn:Hrun.
  - intros [= <- <-] HP. by eapply Hm.
  - intros Hrest HP. eapply Hh; [exact Hrest|]. by eapply Hm.
Qed.

Lemma keeps_bind_lift {A B} (P : S -> Prop) (x : Result A) (k : A -> M S B) :
  (forall a, x = Ok a -> keeps P (k a)) -> keeps P (bind (lift x) k).
Proof.
  intros Hk w r w'. unfold bind, lift. destruct x as [a|e].
  - by apply Hk.
  - by intros [= <- <-].
Qed.

Lemma keeps_for_of {A B} (P : S -> Prop) (xs : list A) (body : B -> A -> M S B)
    (acc : B) :
  (forall b x, keeps P (body b x)) -> keeps P (for_of xs body acc).
Proof.
  intros Hbody. revert acc. induction xs as [|x rest IH]; intros acc; simpl.
  - apply keeps_ret.
  - apply keeps_bind; [apply Hbody | intros b; apply IH].
Qed.

Lemma keeps_log (P : S -> Prop) (level category message : string) :
  (forall db row, P db -> P (store_insert db "system_logs" row).1) ->
  keeps P (log level category message).
Proof.
  intros Hins w r w' [= <- <-] HP. simpl. unfold logged.
  destruct (_ && _); [by apply Hins | done].
Qed.

Lemma keeps_files {A} (P : S -> Prop) (m : M S A) :
  (forall w, w_db (m w).2 = w_db w) -> keeps P m.
Proof. intros Hsame w r w' Hrun HP. specialize (Hsame w). rewrite Hrun in Hsame.
       simpl in Hsame. by rewrite Hsame. Qed.

Lemma keeps_readFile (P : S -> Prop) (path : string) : keeps P (readFile path).
Proof. apply keeps_files. intros w. unfold readFile. by destruct (obj_get _ _). Qed.

Lemma keeps_writeFile (P : S -> Prop) (path : string) (c : FileContent) :
  keeps P (writeFile path c).
Proof. apply keeps_files. intros w. unfold writeFile. by destruct (decide _). Qed.

Lemma keeps_unlink (P : S -> Prop) (path : string) : keeps P (unlink path).
Proof.
  apply keeps_files. intros w. unfold unlink.
  destruct (obj_get _ _); [|done]. by destruct (decide _).
Qed.

Lemma keeps_readdir (P : S -> Prop) (dir : string) : keeps P (readdir dir).
Proof. by apply keeps_files. Qed.

Lemma keeps_now_iso (P : S -> Prop) : keeps P now_iso.
Proof. by apply keeps_files. Qed.

Lemma keeps_select (P : S -> Prop) (table : string) : keeps P (select table).
Proof. by apply keeps_files. Qed.

Lemma keeps_delete_neq (P : S -> Prop) (table column : string) (value : json) :
  (forall db, P db -> P (store_delete_neq db table column value).1) ->
  keeps P (delete_neq table column value).
Proof.
  intros Hdel w r w'. unfold delete_neq. specialize (Hdel (w_db w)).
  destruct (store_delete_neq _ _ _ _) as [db err]. intros [= <- <-] HP. by apply Hdel.
Qed.

Lemma keeps_upsert (P : S -> Prop) (table : string) (values : json)
    (onConflict : string) :
  (forall db, P db -> P (store_upsert db table values onConflict).1) ->
  keeps P (upsert table values onConflict).
Proof.
  intros Hup w r w'. unfold upsert. specialize (Hup (w_db w)).
  destruct (store_upsert _ _ _ _) as [db err]. intros [= <- <-] HP. by apply Hup.
Qed.

Section Kept.
Variable P : S -> Prop.
Hypothesis kept_by_log : forall db row, P db -> P (store_insert db "system_logs" row).1.

Lemma keeps_listAvailableBackups cfg : keeps P (listAvailableBackups cfg).
Proof using Type*.
  unfold listAvailableBackups, ensureBackupDirectoryExists.
  apply keeps_try_catch.
  - apply keeps_bind; [apply keeps_ret|]. intros _.
    apply keeps_bind; [apply keeps_readdir|]. intros files.
    apply keeps_bind; [|intros; apply keeps_lift].
    apply keeps_for_of. intros result file. unfold read_entry.
    apply keeps_try_catch.
    + apply keeps_bind; [apply keeps_readFile|]. intros content.
      apply keeps_bind; [apply keeps_lift|]. intros doc.
      apply keeps_bind; [apply keeps_lift|]. intros md. apply keeps_ret.
    + intros e. apply keeps_bind; [by apply keeps_log|]. intros _. apply keeps_ret.
  - intros e. apply keeps_bind; [by apply keeps_log|]. intros _. apply keeps_ret.
Qed.

Lemma keeps_cleanupOldBackups cfg : keeps P (cleanupOldBackups cfg).
Proof using Type*.
  unfold cleanupOldBackups. apply keeps_try_catch; [|intros; by apply keeps_log].
  apply keeps_bind; [apply keeps_listAvailableBackups|]. intros backups.
  destruct (_ <? _)%Z; [|apply keeps_ret].
  apply keeps_for_of. intros [] b. unfold delete_backup.
  apply keeps_try_catch; [|intros; by apply keeps_log].
  apply keeps_bind; [apply keeps_unlink|]. intros _. by apply keeps_log.
Qed.

Lemma keeps_createBackupOf (tableSet : list string) (prefix label : string)
    (prune : bool) cfg (description : option string) :
  keeps P (createBackupOf tableSet prefix label prune cfg description).
Proof using Type*.
  unfold createBackupOf. apply keeps_try_catch.
  - apply keeps_bind; [by apply keeps_log|]. intros _.
    apply keeps_bind; [apply keeps_now_iso|]. intros d.
    apply keeps_bind.
    { apply keeps_for_of. intros bd table. unfold export_table.
      apply keeps_bind; [by apply keeps_log|]. intros _.
      apply keeps_bind; [apply keeps_select|]. intros r.
      destruct (sel_error r);
        (apply keeps_bind; [by apply keeps_log|]); intros _; apply keeps_ret. }
    intros bd. apply keeps_bind; [apply keeps_writeFile|]. intros _.
    apply keeps_bind.
    { destruct prune; [apply keeps_cleanupOldBackups | apply keeps_ret]. }
    intros _. apply keeps_bind; [by apply keeps_log|]. intros _. apply keeps_ret.
  - intros e. apply keeps_bind; [by apply keeps_log|]. intros _. apply keeps_throw.
Qed.

(** The store changes in the table loop through [delete().neq('id', 0)],
    through the [upsert] of the rows the snapshot holds for a table, and
    through the log: what these keep, a round of the loop keeps. *)
Lemma keeps_restore_table (doc : json) (options : RestoreOptions)
    (details : RestoreDetails) (table : json) :
  (forall db name, P db -> P (store_delete_neq db name "id" (JNum 0)).1) ->
  (forall db name,
     P db -> P (store_upsert db name (default JNull (table_data doc name)) "id").1) ->
  keeps P (restore_table doc options details table).
Proof using Type*.
  intros Hdel Hup.
  pose proof (fun db => Hup db (js_to_string table)) as Hrows. clear Hup.
  unfold table_data in Hrows. unfold restore_table.
  apply keeps_try_catch;
    [|intros e; apply keeps_bind; [by apply keeps_log|]; intros _; apply keeps_ret].
  apply keeps_bind; [by apply keeps_log|]. intros _.
  apply keeps_bind_lift. intros ds Hds. rewrite Hds in Hrows.
  apply keeps_bind_lift. intros td Htd. rewrite Htd in Hrows.
  destruct (negb (truthy td) || strict_eq_num (length_of td) 0).
  { apply keeps_bind; [by apply keeps_log|]. intros _. apply keeps_ret. }
  apply keeps_bind.
  { destruct (clearBeforeRestore options); [|apply keeps_ret].
    apply keeps_bind; [apply keeps_delete_neq; intros db; apply Hdel|].
    intros [msg|]; [|apply keeps_ret].
    apply keeps_bind; [by apply keeps_log|]. intros _. apply keeps_ret. }
  intros [details'|]; [apply keeps_ret|].
  apply keeps_bind; [by apply keeps_upsert|].
  intros [msg|]; (apply keeps_bind; [by apply keeps_log|]); intros _; apply keeps_ret.
Qed.

(** Whatever the log, [delete().neq('id', 0)] and the [upsert] on [id] of
    the rows the snapshot holds for a table keep of the store, the restore
    keeps, with every option and every outcome. *)
Lemma keeps_restoreFromBackup cfg (path : string) (options : RestoreOptions) w
    (r : Result RestoreOutcome) (w' : World S) :
  (forall db name, P db -> P (store_delete_neq db name "id" (JNum 0)).1) ->
  (forall doc, obj_get path (w_files w) = Some (Doc doc) ->
     forall db name,
       P db -> P (store_upsert db name (default JNull (table_data doc name)) "id").1) ->
  restoreFromBackup cfg path options w = (r, w') ->
  P (w_db w) -> P (w_db w').
Proof using Type*.
  intros Hdel Hup. unfold restoreFromBackup, try_catch, bind.
  rewrite log_run. unfold readFile. cbn [w_files append_logs].
  assert (P (w_db w) ->
          P (w_db (append_logs
                     [{| log_level := "info"; log_category := "database";
                         log_message := "バックアップからのリストアを開始します" |}] w)))
    as Hfirst.
  { intros HP. cbn [w_db append_logs]. by apply logged_all_invariant. }
  assert (forall e, keeps P
            (let! _ := log "error" "database"
                         "バックアップからのリストア中にエラーが発生しました" in
             let! d := now_iso in
             ret (RestoreFailure (exn_message e) (toISOString d)))) as Hhandler.
  { intros e. apply keeps_bind; [by apply keeps_log|]. intros _.
    apply keeps_bind; [apply keeps_now_iso|]. intros d. apply keeps_ret. }
  destruct (obj_get path (w_files w)) as [[doc|text]|] eqn:Hfile.
  2,3: intros Hrun HP; eapply Hhandler; [exact Hrun | by apply Hfirst].
  specialize (Hup doc eq_refl). cbn [JSON_parse lift].
  match goal with
  | |- context [append_logs ?ls w] => generalize dependent (append_logs ls w)
  end.
  intros w0 Hw0.
  assert (keeps P
            (try_catch
               (let! metadata := lift (prop (Some doc) "metadata") in
                let! backupVersion := lift (prop metadata "version") in
                let! _ := (if strict_eq_str backupVersion (cfg_version cfg) then ret tt
                           else log "warn" "database" "バージョンの不一致があります") in
                let! preRestoreBackupPath :=
                  createFullBackup cfg (Some "リストア前の自動バックアップ") in
                let! d := now_iso in
                let restoreDetails :=
                  {| rd_timestamp := toISOString d;
                     tablesRestored := 0;
                     recordsRestored := Some 0%Z;
                     errors := [] |} in
                let! worklist := lift (tables_to_restore metadata options) in
                let! restoreDetails :=
                  for_of worklist (restore_table doc options) restoreDetails in
                let success :=
                  (0 <? tablesRestored restoreDetails)
                  && (length (obj_keys (errors restoreDetails)) =? 0) in
                let! _ := (if success
                           then log "info" "database"
                                  "バックアップからのリストアが完了しました"
                           else log "warn" "database"
                                  "バックアップからのリストアが一部失敗しました") in
                ret (RestoreReport success restoreDetails preRestoreBackupPath))
               (fun error =>
                  let! _ := log "error" "database"
                              "バックアップからのリストア中にエラーが発生しました" in
                  let! d := now_iso in
                  ret (RestoreFailure (exn_message error) (toISOString d)))))
    as Hrest.
  { apply keeps_try_catch; [|exact Hhandler].
    apply keeps_bind; [apply keeps_lift|]. intros md.
    apply keeps_bind; [apply keeps_lift|]. intros ver.
    apply keeps_bind.
    { destruct (strict_eq_str _ _); [apply keeps_ret | by apply keeps_log]. }
    intros _. apply keeps_bind; [apply keeps_createBackupOf|]. intros pre.
    apply keeps_bind; [apply keeps_now_iso|]. intros d.
    apply keeps_bind; [apply keeps_lift|]. intros worklist.
    apply keeps_bind.
    { apply keeps_for_of. intros details table. by apply keeps_restore_table. }
    intros details. apply keeps_bind; [|intros; apply keeps_ret].
    destruct (_ && _); by apply keeps_log. }
  intros Hrun HP. eapply Hrest; [exact Hrun | by apply Hw0].
Qed.
End Kept.

Lemma bind_Ok {A B} (m : M S A) (k : A -> M S B) w (a : A) (w1 : World S) :
  m w = (Ok a, w1) -> bind m k w = k a w1.
Proof. unfold bind. by intros ->. Qed.

Lemma bind_Throw {A B} (m : M S A) (k : A -> M S B) w (e : Exn) (w1 : World S) :
  m w = (Throw e, w1) -> bind m k w = (Throw e, w1).
Proof. unfold bind. by intros ->. Qed.

Lemma bind_log {A} (level category message : string) (k : unit -> M S A) w :
  bind (log level category message) k w
  = k tt (append_logs [{| log_level := level; log_category := category;
                          log_message := message |}] w).
Proof. done. Qed.

(** The worlds of a restore that gave up before the safety net was
    written: only the clock was read, the store answered selects and
    entries were logged. *)
Lemma logged_only (ls : list LogEntry) w (w' : World S) :
  w_log w' = w_log w ++ ls ->
  w_db w' = logged_all (w_logging w) (w_db w) ls ->
  exists entries : list LogEntry,
    w_log w' = w_log w ++ entries
    /\ w_db w' = logged_all (w_logging w) (w_db w) entries.
Proof. eauto. Qed.

(** The whole restore: it always returns; either it gave up before anything
    was written, or the first new event is the write of the safety-net
    snapshot, followed by the unlinks of its cleanup and then by the store
    calls of the table loop. *)
Lemma restoreFromBackup_run cfg (path : string) (options : RestoreOptions) w :
  exists (r : RestoreOutcome) (w' : World S),
    restoreFromBackup cfg path options w = (Ok r, w')
    /\ ((exists err ts, r = RestoreFailure err ts)
         /\ (readable_snapshot (w_files w) path = false
             \/ backup_path cfg "backup_" (w_clock w (w_tick w)) ∈ w_unwritable w)
         /\ (exists entries : list LogEntry,
               w_log w' = w_log w ++ entries
               /\ w_db w' = logged_all (w_logging w) (w_db w) entries)
         /\ w_files w' = w_files w /\ w_trace w' = w_trace w
        \/ exists (pre : string) (content : FileContent)
                  (answers : list (string * SelectResult)) (deleted : list string)
                  (evs : list Event),
             readable_snapshot (w_files w) path = true
             /\ (backup_path cfg "backup_" (w_clock w (w_tick w)) ∉ w_unwritable w)
             /\ pre = backup_path cfg "backup_" (w_clock w (w_tick w))
             /\ w_answers w' = w_answers w ++ answers
             /\ answers.*1 = BACKUP_TABLES
             /\ Forall (answered_between_logs (w_logging w) (w_db w)) answers
             /\ content
                = Doc (backup_to_json
                         (snapshot_from answers BACKUP_TABLES cfg
                            (Some "リストア前の自動バックアップ") (w_clock w (w_tick w))))
             /\ w_trace w'
                = w_trace w ++ EvWriteFile pre content :: (EvUnlink <$> deleted) ++ evs
             /\ ((exists err ts, r = RestoreFailure err ts) /\ evs = []
                 \/ exists (success : bool) (details : RestoreDetails)
                           (doc : json) (md : jsval) (worklist : list json),
                      r = RestoreReport success details pre
                      /\ success
                         = (0 <? tablesRestored details)
                           && (length (obj_keys (errors details)) =? 0)
                      /\ obj_get path (w_files w) = Some (Doc doc)
                      /\ prop (Some doc) "metadata" = Ok md
                      /\ tables_to_restore md options = Ok worklist
                      /\ Forall (fun e => exists t,
                                    t ∈ worklist
                                    /\ event_table e = Some (js_to_string t)
                                    /\ has_rows doc (js_to_string t) = true) evs
                      /\ (clearBeforeRestore options = false ->
                          Forall (fun e => is_upsert e = true) evs)
                      /\ (forall t, t ∈ worklist -> js_to_string t <> "__proto__" ->
                            is_Some (obj_get (js_to_string t) (errors details))
                            \/ exists v, EvUpsert (js_to_string t) v ∈ evs))).
Proof.
  unfold restoreFromBackup, try_catch. rewrite (bind_log _ _ _ _ w).
  unfold bind at 1. unfold readFile. cbn [w_files append_logs].
  set (w0 := append_logs _ w).
  assert (forall (w1 : World S) (ls : list LogEntry) (e : Exn),
            readable_snapshot (w_files w) path = false
            \/ backup_path cfg "backup_" (w_clock w (w_tick w)) ∈ w_unwritable w ->
            w_files w1 = w_files w -> w_trace w1 = w_trace w ->
            w_logging w1 = w_logging w -> w_log w1 = w_log w ++ ls ->
            w_db w1 = logged_all (w_logging w) (w_db w) ls ->
            exists (r : RestoreOutcome) (w' : World S),
              (let! _ := log "error" "database"
                           "バックアップからのリストア中にエラーが発生しました" in
               let! d := now_iso in
               ret (RestoreFailure (exn_message e) (toISOString d))) w1 = (Ok r, w')
              /\ (exists err ts, r = RestoreFailure err ts)
              /\ (readable_snapshot (w_files w) path = false
                  \/ backup_path cfg "backup_" (w_clock w (w_tick w)) ∈ w_unwritable w)
              /\ (exists entries : list LogEntry,
                    w_log w' = w_log w ++ entries
                    /\ w_db w' = logged_all (w_logging w) (w_db w) entries)
              /\ w_files w' = w_files w /\ w_trace w' = w_trace w) as Hgiveup.
  { intros w1 ls e Hwhy Hfiles Htrace Hlogging Hlog Hdb.
    unfold bind. rewrite log_run. unfold now_iso, ret.
    eexists _, _. split; [reflexivity|]. split; [by eexists _, _|].
    split; [exact Hwhy|]. split; [|done].
    eapply logged_only.
    - simpl. rewrite Hlog, <- !app_assoc. reflexivity.
    - simpl. rewrite Hlogging, Hdb, !logged_all_app. reflexivity. }
  assert (w_files w0 = w_files w /\ w_trace w0 = w_trace w
          /\ w_logging w0 = w_logging w) as (Hf0 & Ht0 & Hl0) by done.
  destruct (obj_get path (w_files w)) as [[doc|text]|] eqn:Hfile;
    cbn [JSON_parse lift bind]; cbv beta iota.
  2,3: match goal with
       | |- context [RestoreFailure (exn_message ?e)] =>
           destruct (Hgiveup w0 [_] e
                       ltac:(left; unfold readable_snapshot; by rewrite Hfile)
                       Hf0 Ht0 Hl0 eq_refl eq_refl) as (r & w' & Hrun & Hcase)
       end; exists r, w'; (split; [exact Hrun|]); left; exact Hcase.
  destruct (prop (Some doc) "metadata") as [md|e] eqn:Hmd.
  2: { destruct (Hgiveup w0 [_] e
                   ltac:(left; unfold readable_snapshot; by rewrite Hfile, Hmd)
                   Hf0 Ht0 Hl0 eq_refl eq_refl) as (r & w' & Hrun & Hcase).
       exists r, w'. split; [exact Hrun|]. left. exact Hcase. }
  destruct (prop md "version") as [ver|e] eqn:Hver.
  2: { destruct (Hgiveup w0 [_] e
                   ltac:(left; unfold readable_snapshot; by rewrite Hfile, Hmd, Hver)
                   Hf0 Ht0 Hl0 eq_refl eq_refl) as (r & w' & Hrun & Hcase).
       exists r, w'. split; [exact Hrun|]. left. exact Hcase. }
  assert (readable_snapshot (w_files w) path = true) as Hreadable
      by (unfold readable_snapshot; by rewrite Hfile, Hmd, Hver).
  assert (exists lsv : list LogEntry,
            (if strict_eq_str ver (cfg_version cfg) then ret tt
             else log "warn" "database" "バージョンの不一致があります") w0
            = (Ok tt, append_logs lsv w0)) as [lsv Hv].
  { destruct (strict_eq_str ver (cfg_version cfg)).
    - exists []. by rewrite append_logs_nil.
    - eexists [_]. apply log_run. }
  rewrite (bind_Ok _ _ _ _ _ Hv). clear Hv.
  assert (exists ls1 : list LogEntry, append_logs lsv w0 = append_logs ls1 w)
    as [ls1 Hw1] by (subst w0; rewrite append_logs_app; eauto).
  rewrite Hw1. clear Hw1 Hf0 Ht0 Hl0. clearbody w0. clear w0 lsv.
  set (w1 := append_logs ls1 w).
  unfold createFullBackup.
  destruct (decide (backup_path cfg "backup_" (w_clock w (w_tick w)) ∈ w_unwritable w))
    as [Hrefused|Hwritable].
  { destruct (createBackupOf_refused BACKUP_TABLES "backup_" "完全バックアップ" true cfg
                (Some "リストア前の自動バックアップ") w1 Hrefused)
      as (answers & ls & Hrun & _).
    rewrite (bind_Throw _ _ _ _ _ Hrun).
    destruct (Hgiveup (after_clock answers ls w1) (ls1 ++ ls)
                (SystemError "EACCES" (backup_path cfg "backup_" (w_clock w (w_tick w))))
                ltac:(by right) eq_refl eq_refl eq_refl)
      as (r & w' & Hrun' & Hcase).
    - simpl. by rewrite app_assoc.
    - simpl. by rewrite logged_all_app.
    - exists r, w'. split; [exact Hrun'|]. left. exact Hcase. }
  destruct (createBackupOf_run BACKUP_TABLES "backup_" "完全バックアップ" true cfg
              (Some "リストア前の自動バックアップ") w1 Hwritable)
    as (answers & deleted & ls & Hrun & Hnames & Hall & _).
  cbv zeta in Hrun. rewrite (bind_Ok _ _ _ _ _ Hrun). clear Hrun.
  assert (Forall (answered_between_logs (w_logging w) (w_db w)) answers) as Hall'.
  { eapply Forall_impl; [exact Hall|]. intros a Ha.
    eapply answered_between_logs_later. exact Ha. }
  clear Hall.
  set (pre := backup_path cfg "backup_" (w_clock w (w_tick w))) in *.
  change (backup_path cfg "backup_" (w_clock w1 (w_tick w1))) with pre.
  change (w_clock w1 (w_tick w1)) with (w_clock w (w_tick w)).
  set (content := Doc (backup_to_json
                         (snapshot_from answers BACKUP_TABLES cfg
                            (Some "リストア前の自動バックアップ") (w_clock w (w_tick w))))).
  unfold bind at 1. unfold now_iso at 1. cbv beta iota.
  destruct (tables_to_restore md options) as [worklist|e] eqn:Hwork.
  2: { rewrite (bind_Throw (lift (Throw e)) _ _ e _ eq_refl). unfold bind. rewrite log_run.
       unfold now_iso, ret. eexists _, _. split; [reflexivity|]. right.
       exists pre, content, answers, deleted, [].
       split; [done|]. split; [done|]. split; [done|]. split; [reflexivity|].
       split; [done|]. split; [done|]. split; [done|].
       split; [simpl; by rewrite app_nil_r|]. left. split; [by eexists _, _|done]. }
  rewrite (bind_Ok (lift (Ok worklist)) _ _ worklist _ eq_refl).
  match goal with
  | |- context [bind (for_of worklist ?body ?d0) _ ?w2] =>
      destruct (restore_loop_run doc options worklist d0 w2)
        as (d' & db & evs & ls' & Hloop & Hon & Hup & _ & Hdone);
      rewrite (bind_Ok _ _ _ _ _ Hloop); clear Hloop
  end.
  assert (forall (b : bool) (w2 : World S),
            exists l : LogEntry,
              (if b then log "info" "database" "バックアップからのリストアが完了しました"
               else log "warn" "database" "バックアップからのリストアが一部失敗しました") w2
              = (Ok tt, append_logs [l] w2)) as Hlast.
  { intros [] w2; eexists; apply log_run. }
  match goal with
  | |- context [bind (if ?b then _ else _) _ ?w2] =>
      destruct (Hlast b w2) as [l Hl]; rewrite (bind_Ok _ _ _ _ _ Hl); clear Hl
  end.
  unfold ret. eexists _, _. split; [reflexivity|]. right.
  exists pre, content, answers, deleted, evs.
  split; [done|]. split; [done|]. split; [done|]. split; [reflexivity|].
  split; [done|]. split; [done|]. split; [done|].
  split; [simpl; by rewrite <- !app_assoc|].
  right. eexists _, d', doc, md, worklist.
  split; [reflexivity|]. split; [reflexivity|]. split; [done|]. split; [done|].
  split; [done|]. split; [done|]. split; [done|]. exact Hdone.
Qed.
End RestoreRuns.

(** ** The restore: what it guarantees *)

Section Restore.
Context {S : Type} `{!Store S} `{!Runtime}.
Implicit Types (w : World S) (cfg : Config).

(** X15. [restoreFromBackup] never throws: whatever the file, the options, the
    store and the file system do, it returns a result. *)
Theorem restoreFromBackup_always_returns cfg (path : string)
    (options : RestoreOptions) w :
  exists (r : RestoreOutcome) (w' : World S),
    restoreFromBackup cfg path options w = (Ok r, w').
Proof.
  destruct (restoreFromBackup_run cfg path options w) as (r & w' & Hrun & _). eauto.
Qed.




Lemma filter_elem {A} (keep : A -> bool) (l : list A) (x : A) :
  x ∈ List.filter keep l <-> x ∈ l /\ keep x = true.
Proof. rewrite !list_elem_of_In. apply filter_In. Qed.

Lemma nonempty_list_Some (l : list string) :
  l <> [] -> nonempty_list (Some l) = true.
Proof. by destruct l. Qed.

Lemma array_filter_array (v : jsval) (keep : json -> bool) (v' : jsval) :
  array_filter v keep = Ok v' ->
  exists items, v = Some (JArr items) /\ v' = Some (JArr (List.filter keep items)).
Proof.
  unfold array_filter. destruct v as [[| | | | |items| |]|]; try done.
  intros [= <-]. eauto.
Qed.

Lemma filter_stage (o : option (list string)) (keep : json -> bool) (v : jsval) :
  (exists v',
      (if nonempty_list o then array_filter v keep else Ok v) = Ok v'
      /\ (nonempty_list o = true \/ v' = v)
      /\ (nonempty_list o = true ->
          exists items, v = Some (JArr items) /\ v' = Some (JArr (List.filter keep items))))
  \/ exists e, (if nonempty_list o then array_filter v keep else Ok v) = Throw e.
Proof.
  destruct (nonempty_list o).
  - destruct (array_filter v keep) as [v'|e] eqn:Hf; [|eauto].
    left. exists v'. split; [done|]. split; [by left|]. intros _.
    by apply array_filter_array.
  - left. exists v. split; [done|]. split; [by right|]. done.
Qed.

(** The worklist: every table on it passed the [onlyTables] filter when one
    is given, passed the [skipTables] filter when one is given, and is an
    element of [metadata.tables] or, when that is a string, one of its
    characters. *)
Lemma tables_to_restore_elem (md : jsval) (options : RestoreOptions)
    (worklist : list json) (t : json) :
  tables_to_restore md options = Ok worklist ->
  t ∈ worklist ->
  (forall only, onlyTables options = Some only -> only <> [] -> includes only t = true)
  /\ (forall skip, skipTables options = Some skip -> skip <> [] -> includes skip t = false)
  /\ ((exists items, prop md "tables" = Ok (Some (JArr items)) /\ t ∈ items)
      \/ exists c, t = JStr c).
Proof.
  unfold tables_to_restore, rbind.
  destruct (prop md "tables") as [tbls|] eqn:Htb; [|done].
  destruct (filter_stage (onlyTables options)
              (fun table => includes (default [] (onlyTables options)) table) tbls)
    as [(v1 & -> & Ho & Hv1)|(e & ->)]; [|done].
  destruct (filter_stage (skipTables options)
              (fun table => negb (includes (default [] (skipTables options)) table)) v1)
    as [(v2 & -> & Hs & Hv2)|(e & ->)]; [|done].
  intros Hit Hin.
  assert (forall items, v2 = Some (JArr items) -> worklist = items) as Harr.
  { intros items ->. simpl in Hit. congruence. }
  split; [|split].
  - intros only Honly Hne. pose proof (nonempty_list_Some _ Hne) as Hn.
    rewrite <- Honly in Hn. rewrite Honly in Hv1. simpl in Hv1.
    rewrite Honly in Hn. destruct (Hv1 Hn) as (items & -> & ->).
    destruct (nonempty_list (skipTables options)) eqn:Es.
    + destruct (Hv2 eq_refl) as (items' & [= <-] & ->).
      rewrite (Harr _ eq_refl) in Hin. rewrite !filter_elem in Hin. simpl in *; tauto.
    + destruct Hs as [Hs|Hs]; [done|]. rewrite Hs in Harr.
      rewrite (Harr _ eq_refl) in Hin. rewrite !filter_elem in Hin. simpl in *; tauto.
  - intros skip Hskip Hne. pose proof (nonempty_list_Some _ Hne) as Hn.
    rewrite Hskip in Hv2. simpl in Hv2.
    destruct (Hv2 Hn) as (items & -> & ->).
    rewrite (Harr _ eq_refl) in Hin. rewrite !filter_elem in Hin.
    destruct Hin as [_ Hk]. by apply negb_true_iff in Hk.
  - assert (forall items, v2 = Some (JArr items) ->
              exists items0, tbls = Some (JArr items0) /\ forall x, x ∈ items -> x ∈ items0)
      as Hsub.
    { intros items ->.
      destruct (nonempty_list (skipTables options)) eqn:Es.
      - destruct (Hv2 eq_refl) as (it1 & -> & [= ->]).
        destruct (nonempty_list (onlyTables options)) eqn:Eo.
        + destruct (Hv1 eq_refl) as (it0 & -> & [= ->]).
          exists it0. split; [done|]. intros x. rewrite !filter_elem. simpl in *; tauto.
        + destruct Ho as [Ho|Ho]; [done|]. subst tbls.
          exists it1. split; [done|]. intros x. rewrite !filter_elem. simpl in *; tauto.
      - destruct Hs as [Hs|Hs]; [done|]. subst v1.
        destruct (nonempty_list (onlyTables options)) eqn:Eo.
        + destruct (Hv1 eq_refl) as (it0 & -> & [= ->]).
          exists it0. split; [done|]. intros x. rewrite !filter_elem. simpl in *; tauto.
        + destruct Ho as [Ho|Ho]; [done|]. subst tbls. eauto. }
    unfold iterate in Hit. destruct v2 as [[| | | | |items| |]|] eqn:Ev2; try done.
    + injection Hit as <-. apply list_elem_of_fmap in Hin as (c & -> & _). right. eauto.
    + injection Hit as <-. destruct (Hsub _ eq_refl) as (items0 & -> & Hall).
      left. eauto.
Qed.
(** Every event a restore adds to the trace is a file event of the
    safety-net backup or a store call of the table loop, on a table of the
    worklist for which the snapshot has rows. *)
Lemma restoreFromBackup_events cfg (path : string) (options : RestoreOptions) w :
  exists (r : RestoreOutcome) (w' : World S),
    restoreFromBackup cfg path options w = (Ok r, w')
    /\ forall e, e ∈ w_trace w' ->
         e ∈ w_trace w \/ event_table e = None
         \/ exists (doc : json) (md : jsval) (worklist : list json) (t : json),
              obj_get path (w_files w) = Some (Doc doc)
              /\ prop (Some doc) "metadata" = Ok md
              /\ tables_to_restore md options = Ok worklist
              /\ t ∈ worklist
              /\ event_table e = Some (js_to_string t)
              /\ has_rows doc (js_to_string t) = true
              /\ (clearBeforeRestore options = false -> is_upsert e = true).
Proof.
  destruct (restoreFromBackup_run cfg path options w)
    as (r & w' & Hrun & [(_ & _ & _ & _ & Htrace)|Hnet]);
    exists r, w'; (split; [done|]); intros e He.
  - left. by rewrite <- Htrace.
  - destruct Hnet as (pre & content & answers & deleted & evs & _ & _ & _ & _ & _ & _
                      & _ & Htrace & Hcase).
    rewrite Htrace in He.
    apply elem_of_app in He as [He|He]; [by left|].
    apply elem_of_cons in He as [->|He]; [by right; left|].
    apply elem_of_app in He as [He|He].
    { apply list_elem_of_fmap in He as (p & -> & _). by right; left. }
    destruct Hcase as [(_ & ->)|Hreport]; [by apply elem_of_nil in He|].
    destruct Hreport
      as (success & details & doc & md & worklist & _ & _ & Hfile & Hmd & Hwork
          & Hon & Hup & _).
    right; right. rewrite Forall_forall in Hon.
    destruct (Hon e He) as (t & Ht & Htable & Hrows).
    exists doc, md, worklist, t. repeat (split; [done|]).
    intros Hclear. specialize (Hup Hclear). rewrite Forall_forall in Hup. by apply Hup.
Qed.

Lemma includes_true (names : list string) (t : json) :
  includes names t = true -> exists c, t = JStr c /\ c ∈ names.
Proof.
  destruct t; try done. simpl. intros Hin%bool_decide_eq_true. eauto.
Qed.

(** X19. With a non-empty [onlyTables], the restore touches no other table: every
    event it adds is a file event of the safety-net backup or a store call on
    a table named in [onlyTables]. *)
Theorem restoreFromBackup_only_tables cfg (path : string)
    (options : RestoreOptions) w (only : list string) :
  onlyTables options = Some only ->
  only <> [] ->
  exists (r : RestoreOutcome) (w' : World S),
    restoreFromBackup cfg path options w = (Ok r, w')
    /\ forall e, e ∈ w_trace w' ->
         e ∈ w_trace w \/ event_table e = None
         \/ exists c, c ∈ only /\ event_table e = Some c.
Proof.
  intros Honly Hne.
  destruct (restoreFromBackup_events cfg path options w) as (r & w' & Hrun & Hev).
  exists r, w'. split; [done|]. intros e He.
  destruct (Hev e He) as [Hold|[Hfile|Hcall]]; [by left|by right; left|].
  destruct Hcall as (doc & md & worklist & t & _ & _ & Hwork & Ht & Htable & _).
  destruct (tables_to_restore_elem md options worklist t Hwork Ht) as (Hin & _).
  destruct (includes_true _ _ (Hin only Honly Hne)) as (c & -> & Hc).
  right; right. eauto.
Qed.

(** X20. With a non-empty [skipTables] and a snapshot whose [metadata.tables]
    holds strings, the restore touches no skipped table: every event it adds
    is a file event of the safety-net backup or a store call on a table that
    is not named in [skipTables]. *)
Theorem restoreFromBackup_skip_tables cfg (path : string)
    (options : RestoreOptions) w (doc : json) (skip : list string) :
  obj_get path (w_files w) = Some (Doc doc) ->
  forallb is_string (listed_tables doc) = true ->
  skipTables options = Some skip ->
  skip <> [] ->
  exists (r : RestoreOutcome) (w' : World S),
    restoreFromBackup cfg path options w = (Ok r, w')
    /\ forall e, e ∈ w_trace w' ->
         e ∈ w_trace w \/ event_table e = None
         \/ exists c, (c ∉ skip) /\ event_table e = Some c.
Proof.
  intros Hdoc Hstrings Hskip Hne.
  destruct (restoreFromBackup_events cfg path options w) as (r & w' & Hrun & Hev).
  exists r, w'. split; [done|]. intros e He.
  destruct (Hev e He) as [Hold|[Hfile|Hcall]]; [by left|by right; left|].
  destruct Hcall as (doc' & md & worklist & t & Hdoc' & Hmd & Hwork & Ht & Htable & _).
  assert (doc' = doc) as -> by congruence.
  destruct (tables_to_restore_elem md options worklist t Hwork Ht) as (_ & Hout & Hfrom).
  specialize (Hout skip Hskip Hne).
  assert (exists c, t = JStr c) as (c & ->).
  { destruct Hfrom as [(items & Htables & Hitem)|Hstr]; [|done].
    unfold listed_tables in Hstrings. rewrite Hmd, Htables in Hstrings.
    rewrite forallb_forall in Hstrings.
    apply list_elem_of_In, Hstrings in Hitem. destruct t; try done. eauto. }
  right; right. exists c. split; [|done].
  simpl in Hout. by apply bool_decide_eq_false in Hout.
Qed.

(** X21. Without [clearBeforeRestore] the restore deletes no row: every event it
    adds is a file event of the safety-net backup or an upsert. *)
Theorem restoreFromBackup_deletes_only_when_asked cfg (path : string)
    (options : RestoreOptions) w :
  clearBeforeRestore options = false ->
  exists (r : RestoreOutcome) (w' : World S),
    restoreFromBackup cfg path options w = (Ok r, w')
    /\ forall table, EvDeleteRows table ∈ w_trace w' -> EvDeleteRows table ∈ w_trace w.
Proof.
  intros Hclear.
  destruct (restoreFromBackup_events cfg path options w) as (r & w' & Hrun & Hev).
  exists r, w'. split; [done|]. intros table He.
  destruct (Hev _ He) as [Hold|[Hfile|Hcall]]; [done|done|].
  destruct Hcall as (_ & _ & _ & _ & _ & _ & _ & _ & _ & _ & Hup).
  by specialize (Hup Hclear).
Qed.

(** X22. A table for which the snapshot has no rows is left alone, also with
    [clearBeforeRestore]: every store call of a restore is on a table whose
    entry in the data section is a non-empty value. *)
Theorem restoreFromBackup_tables_with_rows cfg (path : string)
    (options : RestoreOptions) w (doc : json) :
  obj_get path (w_files w) = Some (Doc doc) ->
  exists (r : RestoreOutcome) (w' : World S),
    restoreFromBackup cfg path options w = (Ok r, w')
    /\ forall e table, e ∈ w_trace w' -> event_table e = Some table ->
         e ∈ w_trace w \/ has_rows doc table = true.
Proof.
  intros Hdoc.
  destruct (restoreFromBackup_events cfg path options w) as (r & w' & Hrun & Hev).
  exists r, w'. split; [done|]. intros e table He Htable.
  destruct (Hev e He) as [Hold|[Hfile|Hcall]]; [by left|congruence|].
  destruct Hcall as (doc' & md & worklist & t & Hdoc' & _ & _ & _ & Htable' & Hrows & _).
  right. congruence.
Qed.

Lemma obj_get_no_keys {A} (key : string) (fields : list (string * A)) :
  length (obj_keys fields) = 0 -> obj_get key fields = None.
Proof. by destruct fields. Qed.

(** X23. A report with [success = true] has no error entry, and the rows of every
    table of the worklist were sent to the store, the trace holds an upsert
    for each of them, unless the table is named [__proto__]: under that
    name no error can be recorded, so that a failure of that table does not
    show in the report. *)
Theorem restoreFromBackup_success cfg (path : string) (options : RestoreOptions)
    w (w' : World S) (details : RestoreDetails) (pre : string) :
  restoreFromBackup cfg path options w = (Ok (RestoreReport true details pre), w') ->
  errors details = []
  /\ 0 < tablesRestored details
  /\ exists (doc : json) (md : jsval) (worklist : list json),
       obj_get path (w_files w) = Some (Doc doc)
       /\ prop (Some doc) "metadata" = Ok md
       /\ tables_to_restore md options = Ok worklist
       /\ forall t, t ∈ worklist -> js_to_string t <> "__proto__" ->
            exists v, EvUpsert (js_to_string t) v ∈ w_trace w'.
Proof.
  intros Hrun.
  destruct (restoreFromBackup_run cfg path options w)
    as (r & w1 & Hrun' & [((err & ts & ->) & _)|Hnet]); [congruence|].
  rewrite Hrun in Hrun'. injection Hrun' as <- <-.
  destruct Hnet as (pre' & content & answers & deleted & evs & _ & _ & _ & _ & _ & _
                    & _ & Htrace & Hcase).
  destruct Hcase as [((err & ts & [=]) & _)|Hreport].
  destruct Hreport
    as (success & details' & doc & md & worklist & [= <- <- <-] & Hsuccess & Hfile & Hmd
        & Hwork & _ & _ & Hdone).
  symmetry in Hsuccess. apply andb_true_iff in Hsuccess as [Hcount Hnone].
  apply Nat.ltb_lt in Hcount. apply Nat.eqb_eq in Hnone.
  split; [by destruct (errors details)|]. split; [done|].
  exists doc, md, worklist. repeat (split; [done|]). intros t Ht Hname.
  destruct (Hdone t Ht Hname) as [[msg Herr]|[v Hv]].
  - by rewrite (obj_get_no_keys _ _ Hnone) in Herr.
  - exists v. rewrite Htrace. apply elem_of_app. right.
    apply list_elem_of_further, elem_of_app. by right.
Qed.

(** X24. The restore changes the store through three calls only:
    [delete().neq('id', 0)] on a table, the [upsert] on [id] of the rows the
    snapshot holds for a table, and the insert of a log line into
    [system_logs]. Whatever the three keep of the store holds after the
    restore if it held before, with every option and every outcome. *)
Theorem restoreFromBackup_store_invariant (P : S -> Prop) cfg (path : string)
    (options : RestoreOptions) w (doc : json) :
  obj_get path (w_files w) = Some (Doc doc) ->
  (forall db name, P db -> P (store_delete_neq db name "id" (JNum 0)).1) ->
  (forall db name,
     P db -> P (store_upsert db name (default JNull (table_data doc name)) "id").1) ->
  (forall db row, P db -> P (store_insert db "system_logs" row).1) ->
  P (w_db w) ->
  exists (r : RestoreOutcome) (w' : World S),
    restoreFromBackup cfg path options w = (Ok r, w') /\ P (w_db w').
Proof.
  intros Hdoc Hdel Hup Hlog HP.
  destruct (restoreFromBackup_run cfg path options w) as (r & w' & Hrun & _).
  exists r, w'. split; [done|].
  eapply (keeps_restoreFromBackup P Hlog); [exact Hdel| |exact Hrun|exact HP].
  intros doc' Hdoc'. assert (doc' = doc) as -> by congruence. exact Hup.
Qed.
End Restore.

(** ** The restore on the store in memory *)

Section RowZero.
Context `{!Runtime}.
Implicit Types (w : World MemDb) (cfg : Config) (db : MemDb).

Lemma row_of_with_table db (name : string) (rows : gmap Z (list (string * json)))
    (table : string) (key : Z) :
  row_of (with_table db name rows) table key
  = if decide (name = table) then rows !! key else row_of db table key.
Proof.
  unfold row_of, with_table; simpl. destruct (decide (name = table)) as [->|Hne].
  - by rewrite lookup_insert_eq.
  - by rewrite lookup_insert_ne.
Qed.

Lemma mem_delete_neq_keeps_zero db (name table : string)
    (cols : list (string * json)) :
  row_of db table 0 = Some cols ->
  row_of (mem_delete_neq db name "id" (JNum 0)).1 table 0 = Some cols.
Proof.
  intros Hrow. unfold mem_delete_neq.
  destruct (db_tables db !! name) as [rows|] eqn:Hrows; [|done].
  destruct (decide (name ∈ db_no_delete db)); [done|].
  destruct (decide ("id" = "id")); [|done]. simpl.
  rewrite row_of_with_table. destruct (decide (name = table)) as [->|Hne]; [|done].
  unfold row_of in Hrow. rewrite Hrows in Hrow. simpl in Hrow.
  by apply map_lookup_filter_Some.
Qed.

Lemma put_rows_other (keyed : list (Z * list (string * json)))
    (rows : gmap Z (list (string * json))) (key : Z) :
  key ∉ keyed.*1 -> foldl put_row rows keyed !! key = rows !! key.
Proof.
  revert rows. induction keyed as [|[k c] rest IH]; intros rows; simpl; [done|].
  intros [Hne Hrest]%not_elem_of_cons. rewrite (IH _ Hrest).
  unfold put_row; simpl. by rewrite lookup_insert_ne.
Qed.

Lemma rows_not_zero_keys (rows : list json) (keyed : list (Z * list (string * json))) :
  forallb row_not_zero rows = true ->
  mapM row_key rows = Some keyed ->
  0%Z ∉ keyed.*1.
Proof.
  revert keyed. induction rows as [|row rest IH]; intros keyed Hrows Hkeyed.
  - injection Hkeyed as <-. apply not_elem_of_nil.
  - simpl in Hrows. apply andb_true_iff in Hrows as [Hrow Hrest].
    cbn [mapM] in Hkeyed.
    destruct (row_key row) as [[z cols]|] eqn:Hkey; [|done].
    destruct (mapM row_key rest) as [keyed'|] eqn:Hrest'; [|done].
    injection Hkeyed as <-. cbn [fmap list_fmap fst]. apply not_elem_of_cons. split.
    + unfold row_not_zero in Hrow. unfold row_key in Hkey.
      destruct row as [| | | | | |fields|]; try done.
      destruct (obj_get "id" fields) as [[| |i| | | | |]|]; try done.
      simpl in Hkey. injection Hkey as <- _.
      apply negb_true_iff, Z.eqb_neq in Hrow. congruence.
    + by apply IH.
Qed.

Lemma mem_upsert_keeps_zero (db : MemDb) (name table : string) (doc : json)
    (cols : list (string * json)) :
  ids_not_zero doc table = true ->
  row_of db table 0 = Some cols ->
  row_of (mem_upsert db name (default JNull (table_data doc name)) "id").1 table 0
  = Some cols.
Proof.
  intros Hfree Hrow. unfold mem_upsert.
  destruct (db_tables db !! name) as [rows|] eqn:Hrows; [|done].
  destruct (decide (name ∈ db_no_upsert db)); [done|].
  destruct (decide ("id" = "id")); [|done].
  destruct (rows_of_values (default JNull (table_data doc name)) ≫= mapM row_key)
    as [keyed|] eqn:Hkeyed; [|done].
  destruct (decide (NoDup keyed.*1)); [|done]. simpl.
  rewrite row_of_with_table. destruct (decide (name = table)) as [->|Hne]; [|done].
  unfold ids_not_zero in Hfree.
  unfold row_of in Hrow. rewrite Hrows in Hrow. simpl in Hrow.
  rewrite put_rows_other; [done|].
  destruct (table_data doc table) as [[| | | | |items| |]|]; try done.
  simpl in Hkeyed. by eapply rows_not_zero_keys.
Qed.

Lemma next_id_fresh (rows : gmap Z (list (string * json))) (key : Z) :
  is_Some (rows !! key) -> next_id rows <> key.
Proof.
  intros [cols Hkey]. unfold next_id.
  assert (key <= map_fold (fun k _ top => Z.max k top) 0%Z rows)%Z; [|lia].
  revert Hkey.
  apply (map_fold_weak_ind
           (fun top m => m !! key = Some cols -> (key <= top)%Z)).
  - by intros ?%lookup_empty_Some.
  - intros k c m top Hfresh IH Hlook.
    destruct (decide (k = key)) as [->|Hne]; [lia|].
    rewrite lookup_insert_ne in Hlook by done. specialize (IH Hlook). lia.
Qed.

(** An insert never touches a row that is there. *)
Lemma mem_insert_keeps db (name : string) (row : json) (table : string) (key : Z)
    (cols : list (string * json)) :
  row_of db table key = Some cols ->
  row_of (mem_insert db name row).1 table key = Some cols.
Proof.
  intros Hrow. unfold mem_insert.
  destruct (db_tables db !! name) as [rows|] eqn:Hrows; [|done].
  destruct (decide (name ∈ db_no_upsert db)); [done|].
  destruct row as [| | | | | |fields|]; try done.
  assert (name = table -> rows !! key = Some cols) as Hthere.
  { intros ->. unfold row_of in Hrow. by rewrite Hrows in Hrow. }
  destruct (obj_get "id" fields) as [v|].
  - destruct (id_value v) as [z|]; [|done].
    destruct (decide (is_Some (rows !! z))) as [Hused|Hfree]; [done|]. simpl.
    rewrite row_of_with_table. destruct (decide (name = table)) as [->|Hne]; [|done].
    rewrite lookup_insert_ne; [by apply Hthere|].
    intros ->. destruct Hfree. rewrite Hthere by done. eauto.
  - simpl. rewrite row_of_with_table.
    destruct (decide (name = table)) as [->|Hne]; [|done].
    rewrite lookup_insert_ne; [by apply Hthere|].
    apply next_id_fresh. rewrite Hthere by done. eauto.
Qed.

(** No call creates or drops a table. *)
Lemma with_table_tables db (name : string) (rows : gmap Z (list (string * json))) :
  is_Some (db_tables db !! name) ->
  dom (db_tables (with_table db name rows)) = dom (db_tables db).
Proof. intros Hthere. unfold with_table; simpl. by apply dom_insert_lookup_L. Qed.

Lemma mem_delete_neq_tables db (name column : string) (value : json) :
  dom (db_tables (mem_delete_neq db name column value).1) = dom (db_tables db).
Proof.
  unfold mem_delete_neq. destruct (db_tables db !! name) as [rows|] eqn:Hrows; [|done].
  repeat case_match; try done. simpl. apply with_table_tables. by rewrite Hrows.
Qed.

Lemma mem_upsert_tables db (name : string) (values : json) (onConflict : string) :
  dom (db_tables (mem_upsert db name values onConflict).1) = dom (db_tables db).
Proof.
  unfold mem_upsert. destruct (db_tables db !! name) as [rows|] eqn:Hrows; [|done].
  repeat case_match; try done. simpl. apply with_table_tables. by rewrite Hrows.
Qed.

Lemma mem_insert_tables db (name : string) (row : json) :
  dom (db_tables (mem_insert db name row).1) = dom (db_tables db).
Proof.
  unfold mem_insert. destruct (db_tables db !! name) as [rows|] eqn:Hrows; [|done].
  repeat case_match; try done; simpl; apply with_table_tables; by rewrite Hrows.
Qed.

(** X25. On the store in memory, whose tables have the integer key [id], the
    clear spares the row of id 0, since it deletes the rows whose [id] is not
    0, and the log only adds rows: the row of id 0 of a table for which
    every row of the snapshot brings a number other than 0 as its [id] is
    in the store after the restore as it was before, with
    [clearBeforeRestore] as without, and with the database sink of the log
    on or off. *)
Theorem restoreFromBackup_spares_row_zero cfg (path : string)
    (options : RestoreOptions) w (doc : json) (table : string)
    (cols : list (string * json)) :
  obj_get path (w_files w) = Some (Doc doc) ->
  row_of (w_db w) table 0 = Some cols ->
  ids_not_zero doc table = true ->
  exists (r : RestoreOutcome) (w' : World MemDb),
    restoreFromBackup cfg path options w = (Ok r, w')
    /\ row_of (w_db w') table 0 = Some cols.
Proof.
  intros Hdoc Hrow Hfree.
  destruct (restoreFromBackup_run cfg path options w) as (r & w' & Hrun & _).
  exists r, w'. split; [done|].
  eapply (keeps_restoreFromBackup (fun db => row_of db table 0 = Some cols));
    [| | |exact Hrun|exact Hrow].
  - intros db row. apply mem_insert_keeps.
  - intros db name. apply mem_delete_neq_keeps_zero.
  - intros doc' Hdoc' db name. assert (doc' = doc) as -> by congruence.
    by apply mem_upsert_keeps_zero.
Qed.
End RowZero.


(** ** The scripts and the filter of the log service *)

Section Scripts.
Context {S : Type} `{!Store S} `{!Runtime}.
Implicit Types (w : World S) (cfg : Config).

Lemma split_commas_nonempty (s : string) : split_commas s <> [].
Proof.
  induction s as [|c rest IH]; simpl; [done|].
  destruct (Ascii.eqb c ","); [done|]. by destruct (split_commas rest).
Qed.

Lemma restore_tables_step (options : RestoreScript.Options) (arg : string)
    (names : list string) :
  RestoreScript.tables (RestoreScript.parse_argument options arg) = Some names ->
  RestoreScript.tables options = Some names
  \/ exists text, arg = "--tables=" +:+ text /\ names = trim <$> split_commas text.
Proof.
  unfold RestoreScript.parse_argument.
  destruct (strip_prefix "--file=" arg); [by left|].
  destruct (String.eqb arg "--clear"); [by left|].
  destruct (strip_prefix "--tables=" arg) as [text|] eqn:Htables.
  - intros [= <-]. right. exists text. split; [|done]. by apply strip_prefix_app.
  - destruct (strip_prefix "--skip=" arg); by left.
Qed.

Lemma restore_tables_from (args : list string) (options : RestoreScript.Options)
    (names : list string) :
  RestoreScript.tables (foldl RestoreScript.parse_argument options args) = Some names ->
  RestoreScript.tables options = Some names
  \/ exists text, "--tables=" +:+ text ∈ args /\ names = trim <$> split_commas text.
Proof.
  revert options. induction args as [|arg rest IH]; intros options; simpl; [by left|].
  intros Hnames. destruct (IH _ Hnames) as [Hstep|(text & Hin & ->)].
  - destruct (restore_tables_step _ _ _ Hstep) as [Hold|(text & -> & ->)]; [by left|].
    right. exists text. split; [apply list_elem_of_here|done].
  - right. exists text. split; [by apply list_elem_of_further|done].
Qed.

Lemma restore_tables_kept (args : list string) (options : RestoreScript.Options) :
  is_Some (RestoreScript.tables options) ->
  is_Some (RestoreScript.tables (foldl RestoreScript.parse_argument options args)).
Proof.
  revert options. induction args as [|arg rest IH]; intros options; simpl; [done|].
  intros Hsome. apply IH. unfold RestoreScript.parse_argument.
  destruct (strip_prefix "--file=" arg); [done|].
  destruct (String.eqb arg "--clear"); [done|].
  destruct (strip_prefix "--tables=" arg); [by eexists|].
  by destruct (strip_prefix "--skip=" arg).
Qed.

Lemma restore_tables_given (args : list string) (options : RestoreScript.Options)
    (text : string) :
  "--tables=" +:+ text ∈ args ->
  is_Some (RestoreScript.tables (foldl RestoreScript.parse_argument options args)).
Proof.
  revert options. induction args as [|arg rest IH]; intros options Hin; simpl.
  - by apply elem_of_nil in Hin.
  - apply elem_of_cons in Hin as [<-|Hin]; [|by apply IH].
    apply restore_tables_kept. simpl. by eexists.
Qed.

Lemma restore_clear_from (args : list string) (options : RestoreScript.Options) :
  RestoreScript.clear (foldl RestoreScript.parse_argument options args) = true ->
  RestoreScript.clear options = true \/ "--clear" ∈ args.
Proof.
  revert options. induction args as [|arg rest IH]; intros options; simpl; [by left|].
  intros Hclear. destruct (IH _ Hclear) as [Hstep|Hin];
    [|by right; apply list_elem_of_further].
  revert Hstep. unfold RestoreScript.parse_argument.
  destruct (strip_prefix "--file=" arg); [by left|].
  destruct (String.eqb arg "--clear") eqn:Harg.
  - apply String.eqb_eq in Harg as ->. right. apply list_elem_of_here.
  - destruct (strip_prefix "--tables=" arg); [by left|].
    destruct (strip_prefix "--skip=" arg); by left.
Qed.

(** X26. A restore started with [--tables=...] touches the tables named on the
    command line only: whatever else the command line holds, every event the
    restore adds is a file event of the safety-net backup or a store call on
    a table that one of the [--tables] arguments names, trimmed, between its
    commas. *)
Theorem restore_script_tables cfg (path : string) (argv : list string) w
    (text : string) :
  "--tables=" +:+ text ∈ drop 2 argv ->
  exists (r : RestoreOutcome) (w' : World S),
    restoreFromBackup cfg path
      (RestoreScript.restoreOptions (RestoreScript.parseArguments argv)) w
    = (Ok r, w')
    /\ forall e, e ∈ w_trace w' ->
         e ∈ w_trace w \/ event_table e = None
         \/ exists given c,
              "--tables=" +:+ given ∈ drop 2 argv
              /\ c ∈ trim <$> split_commas given
              /\ event_table e = Some c.
Proof.
  intros Hgiven.
  destruct (restore_tables_given _
              {| RestoreScript.file := None; RestoreScript.clear := false;
                 RestoreScript.tables := None; RestoreScript.skipTables := None |}
              _ Hgiven) as [names Hnames].
  fold (RestoreScript.parseArguments argv) in Hnames.
  destruct (restore_tables_from _ _ _ Hnames) as [Hnone|(given & Hin & ->)]; [done|].
  destruct (restoreFromBackup_events cfg path
              (RestoreScript.restoreOptions (RestoreScript.parseArguments argv)) w)
    as (r & w' & Hrun & Hev).
  exists r, w'. split; [done|]. intros e He.
  destruct (Hev e He) as [Hold|[Hfile|Hcall]]; [by left|by right; left|].
  destruct Hcall as (doc & md & worklist & t & _ & _ & Hwork & Ht & Htable & _).
  destruct (tables_to_restore_elem md _ worklist t Hwork Ht) as (Honly & _).
  assert (trim <$> split_commas given <> []) as Hnonempty.
  { intros Hempty%fmap_nil_inv. by apply split_commas_nonempty in Hempty. }
  destruct (includes_true _ t (Honly _ Hnames Hnonempty)) as (c & -> & Hc).
  right; right. exists given, c. done.
Qed.

(** X27. A restore started without [--clear] deletes no row, whatever else the
    command line holds. *)
Theorem restore_script_without_clear cfg (path : string) (argv : list string) w :
  "--clear" ∉ drop 2 argv ->
  exists (r : RestoreOutcome) (w' : World S),
    restoreFromBackup cfg path
      (RestoreScript.restoreOptions (RestoreScript.parseArguments argv)) w
    = (Ok r, w')
    /\ forall table, EvDeleteRows table ∈ w_trace w' -> EvDeleteRows table ∈ w_trace w.
Proof.
  intros Hnone.
  assert (RestoreScript.clear (RestoreScript.parseArguments argv) = false) as Hclear.
  { destruct (RestoreScript.clear (RestoreScript.parseArguments argv)) eqn:Hc; [|done].
    by destruct (restore_clear_from _ _ Hc). }
  destruct (restoreFromBackup_events cfg path
              (RestoreScript.restoreOptions (RestoreScript.parseArguments argv)) w)
    as (r & w' & Hrun & Hev).
  exists r, w'. split; [done|]. intros table He.
  destruct (Hev _ He) as [Hold|[Hfile|Hcall]]; [done|done|].
  destruct Hcall as (_ & _ & _ & _ & _ & _ & _ & _ & _ & _ & Hup).
  by specialize (Hup Hclear).
Qed.



End Scripts.

Lemma indexOf_bounds (names : list string) (v : string) :
  (-1 <= LogService.indexOf names v)%Z
  /\ (LogService.indexOf names v = -1 <-> v ∉ names)%Z.
Proof.
  induction names as [|name rest [IHlow IHiff]]; simpl.
  - split; [lia|]. split; [intros _; apply not_elem_of_nil|done].
  - destruct (String.eqb name v) eqn:Hname.
    + apply String.eqb_eq in Hname as ->. split; [lia|].
      split; [lia|]. intros Hnot. destruct Hnot. apply list_elem_of_here.
    + apply String.eqb_neq in Hname.
      destruct (LogService.indexOf rest v <? 0)%Z eqn:Hneg.
      * apply Z.ltb_lt in Hneg. split; [lia|]. split; [|done].
        intros _. apply not_elem_of_cons. split; [done|]. apply IHiff. lia.
      * apply Z.ltb_ge in Hneg. split; [lia|]. split; [lia|].
        intros [_ Hnot]%not_elem_of_cons. apply IHiff in Hnot. lia.
Qed.

(** X29. The filter is monotone in the level: a message whose level stands at
    least as far in the list of levels as that of a message the filter lets
    through is let through as well, in the same category. *)
Theorem shouldLog_monotone (config : LogService.LogConfig)
    (level level' category : string) :
  (LogService.indexOf LogService.levels level
   <= LogService.indexOf LogService.levels level')%Z ->
  LogService.shouldLog config level category = true ->
  LogService.shouldLog config level' category = true.
Proof.
  unfold LogService.shouldLog. intros Hle [Hlevel Hcategory]%andb_true_iff.
  apply andb_true_iff. split; [|done]. apply Z.leb_le. apply Z.leb_le in Hlevel. lia.
Qed.

(** X30. A configured level that is none of the five levels filters nothing:
    [indexOf] answers -1 for it, and every message of an included category
    is let through, whatever its level. *)
Theorem shouldLog_unknown_config_level (config : LogService.LogConfig)
    (level category : string) :
  LogService.logLevel config ∉ LogService.levels ->
  category ∈ LogService.includeCategories config ->
  LogService.shouldLog config level category = true.
Proof.
  intros Hunknown Hcategory. unfold LogService.shouldLog.
  apply andb_true_iff. split; [|by apply bool_decide_eq_true].
  apply Z.leb_le.
  destruct (indexOf_bounds LogService.levels (LogService.logLevel config)) as [_ Hiff].
  destruct (indexOf_bounds LogService.levels level) as [Hlow _].
  apply Hiff in Hunknown. lia.
Qed.

(** ** Worked examples of the further properties *)

Section FurtherExamples.
#[local] Existing Instance example_runtime.

Ltac evaluate t := let v := eval vm_compute in t in change t with v.

Lemma listAvailableBackups_directory_order_witness :
  let w := world_of no_tables three_backups in
  (forall e, e ∈ entries_of default_config (w_files w) -> entry_time e = Ok None)
  /\ exists w',
       listAvailableBackups default_config w
       = (Ok [entry_at "backup_2025-01-01T10-00-00.json" "2025-01-01T10-00-00";
              entry_at "backup_2025-01-02T10-00-00.json" "2025-01-02T10-00-00";
              entry_at "backup_2025-01-03T10-00-00.json" "2025-01-03T10-00-00"], w').
Proof.
  intros w.
  assert (forall e, e ∈ entries_of default_config (w_files w) -> entry_time e = Ok None)
    as Hnan.
  { intros e He. apply list_elem_of_In in He. vm_compute in He.
    destruct He as [<-|[<-|[<-|[]]]]; reflexivity. }
  split; [exact Hnan|].
  exact (listAvailableBackups_directory_order default_config w Hnan).
Defined.

Lemma listAvailableBackups_newest_first_witness :
  let w := world_of no_tables dated_backups in
  Forall (fun e => exists t, entry_time e = Ok (Some t))
    (entries_of default_config (w_files w))
  /\ exists (sorted : list BackupEntry) (w' : World MemDb),
       listAvailableBackups default_config w = (Ok sorted, w')
       /\ sorted ≡ₚ entries_of default_config (w_files w)
       /\ StronglySorted (fun a b => (time_key b <= time_key a)%Z) sorted.
Proof.
  intros w.
  assert (Forall (fun e => exists t, entry_time e = Ok (Some t))
            (entries_of default_config (w_files w))) as Htimed.
  { evaluate (entries_of default_config (w_files w)).
    repeat constructor; eexists; vm_compute; reflexivity. }
  split; [exact Htimed|].
  exact (listAvailableBackups_newest_first default_config w Htimed).
Defined.

Lemma listAvailableBackups_empty_without_metadata_witness :
  let w := world_of no_tables broken_backups in
  2 <= length (entries_of default_config (w_files w))
  /\ exists w', listAvailableBackups default_config w = (Ok [], w').
Proof.
  intros w.
  assert (2 <= length (entries_of default_config (w_files w))) as Hlen
      by (vm_compute; lia).
  split; [exact Hlen|].
  apply (listAvailableBackups_empty_without_metadata default_config w Hlen).
  evaluate (entries_of default_config (w_files w)).
  apply Exists_cons_hd. by left.
Defined.

Lemma cleanupOldBackups_within_limit_witness :
  let w := world_of no_tables three_backups in
  (Z.of_nat (length (entries_of default_config (w_files w)))
   <= maxBackupCount default_config)%Z
  /\ exists w',
       cleanupOldBackups default_config w = (Ok tt, w')
       /\ w_files w' = w_files w /\ w_trace w' = w_trace w.
Proof.
  intros w.
  assert (Z.of_nat (length (entries_of default_config (w_files w)))
          <= maxBackupCount default_config)%Z as Hroom by (vm_compute; discriminate).
  split; [exact Hroom|].
  apply (cleanupOldBackups_within_limit default_config w
           (entries_of default_config (w_files w))
           (snd (listAvailableBackups default_config w)));
    [vm_compute; reflexivity|exact Hroom].
Defined.

Lemma cleanupOldBackups_spares_other_files_witness :
  let w := world_of no_tables three_backups in
  let w' := snd (cleanupOldBackups keep_one w) in
  obj_get "backups/notes.txt" (w_files w) = Some (Garbage "retention: keep one")
  /\ (obj_get "backups/notes.txt" (w_files w') = Some (Garbage "retention: keep one")
      \/ exists (name : string) (doc : json),
           "backups/notes.txt" = path_join (backupDirectory keep_one) name
           /\ ends_with ".json" name = true
           /\ Garbage "retention: keep one" = Doc doc).
Proof.
  intros w w'. split; [reflexivity|].
  apply (cleanupOldBackups_spares_other_files keep_one w w');
    [vm_compute; reflexivity|reflexivity].
Defined.

Lemma cleanupOldBackups_continues_after_failure_witness :
  let w := locked_world no_tables three_backups []
             ["backups/backup_2025-01-02T10-00-00.json"] in
  let b := entry_at "backup_2025-01-03T10-00-00.json" "2025-01-03T10-00-00" in
  (entry_path b ∉ w_undeletable w)
  /\ exists w',
       cleanupOldBackups keep_one w = (Ok tt, w')
       /\ obj_get (entry_path b) (w_files w') = None.
Proof.
  intros w b.
  assert (entry_path b ∉ w_undeletable w) as Hfree.
  { intros Hin. apply list_elem_of_In in Hin. vm_compute in Hin.
    destruct Hin as [Heq|[]]. discriminate Heq. }
  split; [exact Hfree|].
  apply (cleanupOldBackups_continues_after_failure keep_one w
           (entries_of keep_one (w_files w))
           (snd (listAvailableBackups keep_one w)) b);
    [vm_compute; reflexivity|vm_compute; reflexivity| |exact Hfree].
  evaluate (array_slice (maxBackupCount keep_one) (entries_of keep_one (w_files w))).
  apply list_elem_of_further, list_elem_of_here.
Defined.





Lemma validateBackup_after_null_rows_witness :
  let w : World unit := mkWorld tt [] [] [] at_second 0 [] [] LogService.config [] in
  let path := "backups/critical_backup_2025-01-01T12-30-00.json" in
  let w' := snd (@createCriticalBackup unit silent_client example_runtime
                   default_config None w) in
  (forall r, ("bot_settings", r) ∈ answers_since w w' ->
     sel_error r = None /\ sel_data r = None)
  /\ exists v,
       @validateBackup unit example_runtime path w' = (Ok v, w')
       /\ valid v = false
       /\ IssueChecksum "bot_settings" ∈ issues v.
Proof.
  intros w path w'.
  assert (forall r, ("bot_settings", r) ∈ answers_since w w' ->
            sel_error r = None /\ sel_data r = None) as Hnull.
  { intros r Hr. apply list_elem_of_In in Hr. vm_compute in Hr.
    destruct Hr as [Heq|[Heq|[Heq|[]]]]; try discriminate Heq.
    injection Heq as <-. split; reflexivity. }
  split; [exact Hnull|].
  apply (@validateBackup_after_null_rows unit silent_client example_runtime
           CRITICAL_TABLES "critical_backup_" "クリティカルバックアップ" false
           default_config (Some "クリティカルテーブルのみのバックアップ") w path w'
           "bot_settings").
  - apply list_elem_of_further, list_elem_of_here.
  - exact Hnull.
  - discriminate.
  - discriminate.
  - vm_compute. reflexivity.
  - vm_compute. eauto.
Defined.




Lemma restoreFromBackup_only_tables_witness :
  let w := world_of store_with_critical_tables three_backups in
  exists (r : RestoreOutcome) (w' : World MemDb),
    restoreFromBackup default_config "backups/backup_2025-01-03T10-00-00.json"
      (restore_only ["env_variables"; "bot_settings"]) w = (Ok r, w')
    /\ forall e, e ∈ w_trace w' ->
         e ∈ w_trace w \/ event_table e = None
         \/ exists c, c ∈ ["env_variables"; "bot_settings"] /\ event_table e = Some c.
Proof.
  intros w.
  apply (restoreFromBackup_only_tables default_config
           "backups/backup_2025-01-03T10-00-00.json"
           (restore_only ["env_variables"; "bot_settings"]) w
           ["env_variables"; "bot_settings"]);
    [reflexivity|discriminate].
Defined.

Lemma restoreFromBackup_skip_tables_witness :
  let w := world_of store_with_critical_tables three_backups in
  forallb is_string (listed_tables (snapshot_at "2025-01-03T10-00-00")) = true
  /\ exists (r : RestoreOutcome) (w' : World MemDb),
       restoreFromBackup default_config "backups/backup_2025-01-03T10-00-00.json"
         (restore_but ["bot_settings"]) w = (Ok r, w')
       /\ forall e, e ∈ w_trace w' ->
            e ∈ w_trace w \/ event_table e = None
            \/ exists c, (c ∉ ["bot_settings"]) /\ event_table e = Some c.
Proof.
  intros w. split; [reflexivity|].
  apply (restoreFromBackup_skip_tables default_config
           "backups/backup_2025-01-03T10-00-00.json" (restore_but ["bot_settings"]) w
           (snapshot_at "2025-01-03T10-00-00") ["bot_settings"]);
    [reflexivity|reflexivity|reflexivity|discriminate].
Defined.

Lemma restoreFromBackup_deletes_only_when_asked_witness :
  let w := world_of store_with_settings three_backups in
  exists (r : RestoreOutcome) (w' : World MemDb),
    restoreFromBackup default_config "backups/backup_2025-01-03T10-00-00.json"
      restore_everything w = (Ok r, w')
    /\ forall table, EvDeleteRows table ∈ w_trace w' -> EvDeleteRows table ∈ w_trace w.
Proof.
  intros w.
  apply (restoreFromBackup_deletes_only_when_asked default_config
           "backups/backup_2025-01-03T10-00-00.json" restore_everything w).
  reflexivity.
Defined.

Lemma restoreFromBackup_tables_with_rows_witness :
  let w := world_of store_with_settings three_backups in
  exists (r : RestoreOutcome) (w' : World MemDb),
    restoreFromBackup default_config "backups/backup_2025-01-03T10-00-00.json"
      (restore_only ["bot_settings"]) w = (Ok r, w')
    /\ forall e table, e ∈ w_trace w' -> event_table e = Some table ->
         e ∈ w_trace w \/ has_rows (snapshot_at "2025-01-03T10-00-00") table = true.
Proof.
  intros w.
  apply (restoreFromBackup_tables_with_rows default_config
           "backups/backup_2025-01-03T10-00-00.json" (restore_only ["bot_settings"]) w
           (snapshot_at "2025-01-03T10-00-00")).
  reflexivity.
Defined.

Lemma restoreFromBackup_success_witness :
  let w := world_of store_with_settings three_backups in
  exists (details : RestoreDetails) (pre : string) (w' : World MemDb),
    restoreFromBackup default_config "backups/backup_2025-01-03T10-00-00.json"
      restore_everything w = (Ok (RestoreReport true details pre), w')
    /\ errors details = []
    /\ 0 < tablesRestored details
    /\ exists v, EvUpsert "bot_settings" v ∈ w_trace w'.
Proof.
  intros w.
  destruct (restoreFromBackup default_config "backups/backup_2025-01-03T10-00-00.json"
              restore_everything w) as [r w'] eqn:Hrun.
  pose proof Hrun as Hval. vm_compute in Hval. injection Hval as <- <-.
  destruct (restoreFromBackup_success _ _ _ _ _ _ _ Hrun)
    as (Hnone & Hcount & doc & md & worklist & Hfile & Hmd & Hwork & Hall).
  eexists _, _, _. split; [reflexivity|]. split; [exact Hnone|]. split; [exact Hcount|].
  injection Hfile as <-. injection Hmd as <-. vm_compute in Hwork. injection Hwork as <-.
  apply (Hall (JStr "bot_settings")); [apply list_elem_of_here|discriminate].
Defined.
Lemma restore_script_tables_witness :
  let w := world_of store_with_critical_tables three_backups in
  exists (r : RestoreOutcome) (w' : World MemDb),
    restoreFromBackup default_config "backups/backup_2025-01-03T10-00-00.json"
      (RestoreScript.restoreOptions (RestoreScript.parseArguments restore_command)) w
    = (Ok r, w')
    /\ forall e, e ∈ w_trace w' ->
         e ∈ w_trace w \/ event_table e = None
         \/ exists given c,
              "--tables=" +:+ given ∈ drop 2 restore_command
              /\ c ∈ trim <$> split_commas given
              /\ event_table e = Some c.
Proof.
  intros w.
  apply (restore_script_tables default_config "backups/backup_2025-01-03T10-00-00.json"
           restore_command w "env_variables, bot_settings").
  vm_compute. apply list_elem_of_further, list_elem_of_here.
Defined.

Lemma restore_script_without_clear_witness :
  let w := world_of store_with_critical_tables three_backups in
  exists (r : RestoreOutcome) (w' : World MemDb),
    restoreFromBackup default_config "backups/backup_2025-01-03T10-00-00.json"
      (RestoreScript.restoreOptions (RestoreScript.parseArguments restore_command)) w
    = (Ok r, w')
    /\ forall table, EvDeleteRows table ∈ w_trace w' -> EvDeleteRows table ∈ w_trace w.
Proof.
  intros w.
  apply (restore_script_without_clear default_config
           "backups/backup_2025-01-03T10-00-00.json" restore_command w).
  intros Hin. apply list_elem_of_In in Hin. vm_compute in Hin.
  destruct Hin as [Heq|[Heq|[]]]; discriminate Heq.
Defined.


Lemma shouldLog_monotone_witness :
  let config := {| LogService.enableDatabase := true;
                   LogService.logLevel := "info";
                   LogService.includeCategories := ["system"; "database"] |} in
  LogService.shouldLog config "warn" "database" = true
  /\ LogService.shouldLog config "fatal" "database" = true.
Proof.
  intros config. split; [reflexivity|].
  apply (shouldLog_monotone config "warn" "fatal" "database");
    [vm_compute; discriminate|reflexivity].
Defined.

Lemma shouldLog_unknown_config_level_witness :
  let config := {| LogService.enableDatabase := true;
                   LogService.logLevel := "verbose";
                   LogService.includeCategories := ["system"; "database"] |} in
  LogService.shouldLog config "debug" "database" = true.
Proof.
  intros config.
  apply (shouldLog_unknown_config_level config "debug" "database").
  - intros Hin. apply list_elem_of_In in Hin. vm_compute in Hin.
    destruct Hin as [Heq|[Heq|[Heq|[Heq|[Heq|[]]]]]]; discriminate Heq.
  - apply list_elem_of_further, list_elem_of_here.
Defined.
Lemma restoreFromBackup_store_invariant_witness :
  let w := world_of store_with_all_tables three_backups in
  exists (r : RestoreOutcome) (w' : World MemDb),
    restoreFromBackup default_config "backups/backup_2025-01-03T10-00-00.json"
      (restore_only ["bot_settings"]) w = (Ok r, w')
    /\ dom (db_tables (w_db w')) = dom (db_tables store_with_all_tables).
Proof.
  intros w.
  apply (restoreFromBackup_store_invariant
           (fun db => dom (db_tables db) = dom (db_tables store_with_all_tables))
           default_config "backups/backup_2025-01-03T10-00-00.json"
           (restore_only ["bot_settings"]) w (snapshot_at "2025-01-03T10-00-00")).
  - reflexivity.
  - intros db name Hsame. simpl. by rewrite mem_delete_neq_tables.
  - intros db name Hsame. simpl. by rewrite mem_upsert_tables.
  - intros db row Hsame. simpl. by rewrite mem_insert_tables.
  - reflexivity.
Defined.

Lemma restoreFromBackup_spares_row_zero_witness :
  let w := world_of store_with_settings three_backups in
  row_of (w_db w) "bot_settings" 0 = Some [("key", JStr "defaults")]
  /\ row_of (w_db w) "bot_settings" 7 = Some [("key", JStr "prefix")]
  /\ ids_not_zero (snapshot_at "2025-01-03T10-00-00") "bot_settings" = true
  /\ exists (r : RestoreOutcome) (w' : World MemDb),
       restoreFromBackup default_config "backups/backup_2025-01-03T10-00-00.json"
         (restore_only ["bot_settings"]) w = (Ok r, w')
       /\ row_of (w_db w') "bot_settings" 0 = Some [("key", JStr "defaults")].
Proof.
  intros w. split; [reflexivity|]. split; [reflexivity|]. split; [reflexivity|].
  apply (restoreFromBackup_spares_row_zero default_config
           "backups/backup_2025-01-03T10-00-00.json" (restore_only ["bot_settings"]) w
           (snapshot_at "2025-01-03T10-00-00") "bot_settings"
           [("key", JStr "defaults")]); reflexivity.
Defined.
End FurtherExamples.
